(** * The injury-report core of the NBA service (app/main.py)

    A shallow embedding of the report locator, the line cleaner, the
    player/status/reason splitter, the table-oriented parser, the
    line-oriented parser and the per-page extraction loop, with the
    properties the specification states about them.

    Conventions.
    - Python [str] is [str], a list of characters; literals are written
      [txt "..."].  Text is taken to be ASCII: the classes [\s], [\d], [\w],
      case folding, [str.strip], [str.split] and [str.splitlines] are given
      on the code points below 128, and a character above is in no class.
    - Python dicts are [gmap]s; [d.get(k)] is [dget].
    - Entries are heap objects: the heap is the list of all entry dicts in
      allocation order, a reference is an index into it, and the
      [lastEntry] alias is a reference.
    - [urlparse] of the standard library is a parameter of the locator,
      [urlparse_path]: the path of a URL, or the [ValueError] raised for
      it.  The examples instantiate it with [url_path]. *)

From Stdlib Require Import Ascii String List Arith Bool Lia.
From stdpp Require Import base option list gmap strings.

Local Open Scope list_scope.
Local Open Scope nat_scope.

(** ** Text *)

Abbreviation str := (list ascii).

Definition txt (s : string) : str := list_ascii_of_string s.

Definition code (c : ascii) : nat := nat_of_ascii c.

(** [str.isspace] below 128: TAB..CR, FS..US and the blank. *)
Definition is_space (c : ascii) : bool :=
  let n := code c in
  ((9 <=? n) && (n <=? 13)) || ((28 <=? n) && (n <=? 32)).

Definition is_digit (c : ascii) : bool :=
  let n := code c in (48 <=? n) && (n <=? 57).

Definition is_upper (c : ascii) : bool :=
  let n := code c in (65 <=? n) && (n <=? 90).

Definition is_lower (c : ascii) : bool :=
  let n := code c in (97 <=? n) && (n <=? 122).

(** [\w]: letters, digits and the underscore. *)
Definition is_word (c : ascii) : bool :=
  is_upper c || is_lower c || is_digit c || (code c =? 95).

Definition lower_char (c : ascii) : ascii :=
  if is_upper c then ascii_of_nat (code c + 32) else c.

Definition upper_char (c : ascii) : ascii :=
  if is_lower c then ascii_of_nat (code c - 32) else c.

Definition lower (s : str) : str := map lower_char s.
Definition upper (s : str) : str := map upper_char s.

Definition ch_eq (a b : ascii) : bool := code a =? code b.

(** Equality of characters under [re.I]. *)
Definition ch_eq_ci (a b : ascii) : bool := ch_eq (lower_char a) (lower_char b).

Fixpoint text_eqb (a b : str) : bool :=
  match a, b with
  | [], [] => true
  | x :: a', y :: b' => ch_eq x y && text_eqb a' b'
  | _, _ => false
  end.

Fixpoint lstrip (s : str) : str :=
  match s with
  | c :: s' => if is_space c then lstrip s' else s
  | [] => []
  end.

Definition rstrip (s : str) : str := rev (lstrip (rev s)).

(** [s.strip()] *)
Definition strip (s : str) : str := rstrip (lstrip s).

(** [s.startswith(p)] *)
Fixpoint startswith (p s : str) : bool :=
  match p, s with
  | [], _ => true
  | x :: p', y :: s' => ch_eq x y && startswith p' s'
  | _ :: _, [] => false
  end.

(** [c in s] for a one-character needle. *)
Definition contains_char (c : ascii) (s : str) : bool := existsb (ch_eq c) s.

(** [s.replace(a, b)] for one-character [a] and [b]. *)
Definition replace_char (a b : ascii) (s : str) : str :=
  map (fun c => if ch_eq c a then b else c) s.

(** [s.replace(" ", "")] *)
Definition remove_char (a : ascii) (s : str) : str :=
  filter (fun c => negb (ch_eq c a)) s.

(** [s.split()]: the maximal runs of non-blank characters.  [cur] is the
    run being read, in reverse. *)
Fixpoint split_go (cur : str) (s : str) : list str :=
  match s with
  | [] => match cur with [] => [] | _ => [rev cur] end
  | c :: s' =>
      if is_space c
      then match cur with
           | [] => split_go [] s'
           | _ => rev cur :: split_go [] s'
           end
      else split_go (c :: cur) s'
  end.

Definition split (s : str) : list str := split_go [] s.

(** [sep.join(parts)] *)
Fixpoint join (sep : str) (parts : list str) : str :=
  match parts with
  | [] => []
  | [p] => p
  | p :: rest => p ++ sep ++ join sep rest
  end.

(** Line boundaries of [str.splitlines] below 128: LF, VT, FF, CR, FS, GS,
    RS; CR LF counts once. *)
Definition is_linebreak (c : ascii) : bool :=
  let n := code c in
  ((10 <=? n) && (n <=? 13)) || ((28 <=? n) && (n <=? 30)).

Fixpoint splitlines_go (cur : str) (s : str) : list str :=
  match s with
  | [] => match cur with [] => [] | _ => [rev cur] end
  | c :: s' =>
      if is_linebreak c
      then rev cur ::
           match s' with
           | d :: s'' =>
               if (code c =? 13) && (code d =? 10)
               then splitlines_go [] s''
               else splitlines_go [] s'
           | [] => []
           end
      else splitlines_go (c :: cur) s'
  end.

Definition splitlines (s : str) : list str := splitlines_go [] s.

(** Truth value of a string, and [s or None]. *)
Definition nonempty (s : str) : bool :=
  match s with [] => false | _ => true end.

Definition or_none (s : str) : option str :=
  match s with [] => None | _ => Some s end.

(** ** Regular expressions

    The fragment of Python's [re] the program uses, matched by
    backtracking with Python's priorities: the left alternative first,
    repetition greedy.  A repetition is always over a character class here.
    The matcher is in continuation-passing style; [prev] is the character
    before the current position ([None] at the start of the string), which
    [^] and [\b] look at. *)

Inductive re : Type :=
| Eps
| Chr (p : ascii -> bool)
| Seq (r1 r2 : re)
| Alt (r1 r2 : re)
| Star (p : ascii -> bool)
| Grp (n : nat) (r : re)
| Bol
| Eol
| Wordb.

Abbreviation caps := (gmap nat str).

Definition is_word_opt (c : option ascii) : bool :=
  match c with Some x => is_word x | None => false end.

(** [$] without MULTILINE: the end, or just before a final newline. *)
Definition at_eol (s : str) : bool :=
  match s with
  | [] => true
  | [c] => code c =? 10
  | _ => false
  end.

Section Matcher.
Context {A : Type}.

Fixpoint star_match (p : ascii -> bool) (prev : option ascii) (s : str)
    (k : option ascii -> str -> option A) : option A :=
  match s with
  | c :: s' =>
      if p c
      then match star_match p (Some c) s' k with
           | Some a => Some a
           | None => k prev s
           end
      else k prev s
  | [] => k prev s
  end.

Fixpoint rmatch (r : re) (prev : option ascii) (s : str) (g : caps)
    (k : option ascii -> str -> caps -> option A) : option A :=
  match r with
  | Eps => k prev s g
  | Chr p =>
      match s with
      | c :: s' => if p c then k (Some c) s' g else None
      | [] => None
      end
  | Seq r1 r2 =>
      rmatch r1 prev s g (fun prev' s' g' => rmatch r2 prev' s' g' k)
  | Alt r1 r2 =>
      match rmatch r1 prev s g k with
      | Some a => Some a
      | None => rmatch r2 prev s g k
      end
  | Star p => star_match p prev s (fun prev' s' => k prev' s' g)
  | Grp n r =>
      rmatch r prev s g
        (fun prev' s' g' => k prev' s' (<[n := take (length s - length s') s]> g'))
  | Bol => match prev with None => k prev s g | Some _ => None end
  | Eol => if at_eol s then k prev s g else None
  | Wordb =>
      if xorb (is_word_opt prev) (is_word_opt (head s))
      then k prev s g else None
  end.
End Matcher.

(** A successful match: where it starts and ends in the subject, and its
    groups. *)
Record rmatch_result := MkMatch {
  m_start : nat;
  m_end : nat;
  m_groups : caps
}.

(** The match of [r] that begins exactly at the current position. *)
Definition match_here (r : re) (prev : option ascii) (s : str) (pos : nat)
    : option rmatch_result :=
  rmatch r prev s ∅
    (fun _ s' g => Some (MkMatch pos (pos + (length s - length s')) g)).

(** [re.match(r, s)] *)
Definition re_match (r : re) (s : str) : option rmatch_result :=
  match_here r None s 0.

Fixpoint search_from (r : re) (prev : option ascii) (s : str) (pos : nat)
    : option rmatch_result :=
  match match_here r prev s pos with
  | Some m => Some m
  | None =>
      match s with
      | c :: s' => search_from r (Some c) s' (S pos)
      | [] => None
      end
  end.

(** [re.search(r, s)]: the leftmost position with a match. *)
Definition re_search (r : re) (s : str) : option rmatch_result :=
  search_from r None s 0.

(** [m.group(n)] *)
Definition group (m : rmatch_result) (n : nat) : option str := m_groups m !! n.

(** [re.sub(r, rep, s)]: every non-overlapping match, leftmost first, is
    replaced by [rep].  [skip] counts the characters of the current match
    still to drop. *)
Fixpoint sub_go (r : re) (rep : str) (prev : option ascii) (s : str)
    (skip : nat) : str :=
  match skip with
  | S n =>
      match s with
      | c :: s' => sub_go r rep (Some c) s' n
      | [] => []
      end
  | 0 =>
      match s with
      | c :: s' =>
          match match_here r prev s 0 with
          | Some m =>
              match m_end m with
              | S n => rep ++ sub_go r rep (Some c) s' n
              | 0 => rep ++ c :: sub_go r rep (Some c) s' 0
              end
          | None => c :: sub_go r rep (Some c) s' 0
          end
      | [] =>
          match match_here r prev [] 0 with
          | Some _ => rep
          | None => []
          end
      end
  end.

Definition re_sub (r : re) (rep : str) (s : str) : str :=
  sub_go r rep None s 0.

(** Pattern combinators. *)
Definition Plus (p : ascii -> bool) : re := Seq (Chr p) (Star p).
Definition Opt (r : re) : re := Alt r Eps.

Fixpoint lit (s : str) : re :=
  match s with
  | [] => Eps
  | c :: s' => Seq (Chr (ch_eq c)) (lit s')
  end.

(** A literal under [re.I]. *)
Fixpoint lit_ci (s : str) : re :=
  match s with
  | [] => Eps
  | c :: s' => Seq (Chr (ch_eq_ci c)) (lit_ci s')
  end.

Definition seqs (rs : list re) : re := foldr Seq Eps rs.

Definition not_space (c : ascii) : bool := negb (is_space c).

(** [.] without DOTALL. *)
Definition not_newline (c : ascii) : bool := negb (code c =? 10).

Definition one_of (cs : str) (c : ascii) : bool := existsb (ch_eq c) cs.

(** ** Python values and dicts *)

(** The values the entry and context dicts hold: [None], a string, the
    [raw] dict of a table row, or a reference to an entry on the heap. *)
Inductive value : Type :=
| VNone
| VStr (s : str)
| VDict (d : gmap str str)
| VRef (r : nat).

Abbreviation dict := (gmap str value).

(** [d.get(k)] *)
Definition dget (d : dict) (k : str) : value := default VNone (d !! k).

(** Truth value. *)
Definition truthy (v : value) : bool :=
  match v with
  | VNone => false
  | VStr s => nonempty s
  | VDict d => negb (bool_decide (d = ∅))
  | VRef _ => true
  end.

(** [x or None] for an optional string, as a value. *)
Definition opt_value (o : option str) : value :=
  match o with Some s => VStr s | None => VNone end.

(** ** Header normalisation: [_normalize_header] *)

(** [re.sub(r"\s+", " ", text.replace("\n", " ")).strip().lower()] of
    [str(value or "")]. *)
Definition normalize_header (value : option str) : str :=
  let text := default [] value in
  lower (strip (re_sub (Plus is_space) (txt " ")
                  (replace_char "010"%char " "%char text))).

(** ** The status vocabulary and the splitter *)

Definition STATUS_OPTIONS : list str :=
  [ txt "Game Time Decision";
    txt "Not With Team";
    txt "Questionable";
    txt "Probable";
    txt "Doubtful";
    txt "Available";
    txt "Suspended";
    txt "Out" ].

(** [rf"\b{re.escape(status)}\b"] under [re.I]; the labels hold letters and
    spaces only, which [re.escape] leaves matching themselves. *)
Definition status_re (status : str) : re :=
  Seq Wordb (Seq (lit_ci status) Wordb).

(** The [for status in STATUS_OPTIONS] loop of
    [_parse_player_status_reason]. *)
Fixpoint split_on_first_status (options : list str) (text : str)
    : option str * option str * option str :=
  match options with
  | status :: rest =>
      match re_search (status_re status) text with
      | Some m =>
          let player := strip (take (m_start m) text) in
          let reason := strip (drop (m_end m) text) in
          (or_none player, Some status, or_none reason)
      | None => split_on_first_status rest text
      end
  | [] => (Some (strip text), None, None)
  end.

Definition parse_player_status_reason (text : str)
    : option str * option str * option str :=
  match text with
  | [] => (None, None, None)
  | _ => split_on_first_status STATUS_OPTIONS text
  end.

(** ** The line cleaner: [_clean_injury_line] *)

Definition ws : re := Star is_space.
Definition digits : re := Plus is_digit.

(** [^Page\s*\d+\s*of\s*\d+] *)
Definition leading_page_re : re :=
  seqs [Bol; lit_ci (txt "Page"); ws; digits; ws; lit_ci (txt "of"); ws; digits].

(** [\s*Page\s*\d+\s*of\s*\d+\s*$] *)
Definition trailing_page_re : re :=
  seqs [ws; lit_ci (txt "Page"); ws; digits; ws; lit_ci (txt "of"); ws; digits;
        ws; Eol].

(** [\s*Page\d+of\d+\s*$] *)
Definition trailing_compact_page_re : re :=
  seqs [ws; lit_ci (txt "Page"); digits; lit_ci (txt "of"); digits; ws; Eol].

Definition clean_injury_line (line : str) : option str :=
  match line with
  | [] => None
  | _ =>
      match re_match leading_page_re line with
      | Some _ => None
      | None =>
          let line := re_sub trailing_page_re [] line in
          let line := re_sub trailing_compact_page_re [] line in
          or_none (strip line)
      end
  end.

(** ** The report locator *)

Fixpoint find_char (c : ascii) (s : str) : option nat :=
  match s with
  | [] => None
  | x :: s' => if ch_eq x c then Some 0 else S <$> find_char c s'
  end.

(** [s[:s.find(c)]], or [s] when [c] does not occur. *)
Definition cut_at (c : ascii) (s : str) : str :=
  match find_char c s with
  | Some i => take i s
  | None => s
  end.

(** [s[s.rfind(c) + 1:]]: the text after the last [c]. *)
Fixpoint after_last (c : ascii) (s : str) : str :=
  match s with
  | [] => []
  | x :: s' =>
      if contains_char c s' then after_last c s'
      else if ch_eq x c then s' else s
  end.

Fixpoint drop_until (p : ascii -> bool) (s : str) : str :=
  match s with
  | [] => []
  | c :: s' => if p c then s else drop_until p s'
  end.

Definition is_scheme_char (c : ascii) : bool :=
  is_upper c || is_lower c || is_digit c || one_of (txt "+-.") c.

(** The schemes for which [urlparse] splits [;params] off the path. *)
Definition uses_params : list str :=
  map txt [ ""; "ftp"; "hdl"; "prospero"; "http"; "imap"; "https"; "shttp";
            "rtsp"; "rtspu"; "sip"; "sips"; "mms"; "sftp"; "tel" ]%string.

(** The scheme of a URL and what follows its colon, as [urlsplit] finds
    them. *)
Definition split_scheme (url : str) : str * str :=
  match find_char ":"%char url with
  | Some (S i) =>
      if match url with
         | c :: _ => is_upper c || is_lower c
         | [] => false
         end && forallb is_scheme_char (take (S i) url)
      then (lower (take (S i) url), drop (S (S i)) url)
      else ([], url)
  | _ => ([], url)
  end.

(** Exceptions, and results that are a value or a raised exception. *)
Inductive exn : Type :=
| ValueError (msg : str)
| IndexError.

Inductive result (A : Type) : Type :=
| Ok (a : A)
| Raise (e : exn).
Arguments Ok {A} a.
Arguments Raise {A} e.

(** The characters that [urlsplit] strips from the front of a URL (the C0
    controls and the blank), and those it deletes wherever they stand (TAB,
    LF, CR). *)
Definition is_c0_or_space (c : ascii) : bool := code c <=? 32.

Definition is_unsafe_url_char (c : ascii) : bool :=
  (code c =? 9) || (code c =? 10) || (code c =? 13).

Fixpoint take_until (p : ascii -> bool) (s : str) : str :=
  match s with
  | [] => []
  | c :: s' => if p c then [] else c :: take_until p s'
  end.

(** [urlparse(url).path] on ASCII text: leading controls and blanks are
    stripped and TAB, LF, CR deleted; the scheme and the network location
    are split off; a network location with only one of the two brackets
    raises [ValueError]; then the fragment, the query and the parameters of
    the last segment are cut off.  What the library does with a network
    location that has both brackets depends on its version (nothing, a
    check of the host, a check of the whole location) and is the parameter
    [check_bracketed_netloc]: [None] when it accepts the location, the
    message of its [ValueError] otherwise. *)
Definition url_path (check_bracketed_netloc : str -> option str) (url : str)
    : result str :=
  let url := drop_until (fun c => negb (is_c0_or_space c)) url in
  let url := filter (fun c => negb (is_unsafe_url_char c)) url in
  let '(scheme, url) := split_scheme url in
  let netloc :=
    if startswith (txt "//") url
    then take_until (one_of (txt "/?#")) (drop 2 url)
    else [] in
  let url :=
    if startswith (txt "//") url
    then drop_until (one_of (txt "/?#")) (drop 2 url)
    else url in
  let has_open := contains_char "["%char netloc in
  let has_close := contains_char "]"%char netloc in
  if xorb has_open has_close
  then Raise (ValueError (txt "Invalid IPv6 URL"))
  else
    match (if has_open && has_close then check_bracketed_netloc netloc
           else None) with
    | Some msg => Raise (ValueError msg)
    | None =>
        let url := cut_at "#"%char url in
        let url := cut_at "?"%char url in
        if existsb (text_eqb scheme) uses_params
        then
          let last_seg := after_last "/"%char url in
          Ok (take (length url - length last_seg) url ++ cut_at ";"%char last_seg)
        else Ok url
    end.

(** The [urlparse] of the examples, none of which has a network location
    with both brackets. *)
Definition example_urlparse : str -> result str := url_path (fun _ => None).

(** [os.path.basename] *)
Definition basename (path : str) : str := after_last "/"%char path.

(** [(\d{4})[-_]?(\d{2})[-_]?(\d{2})] *)
Definition report_date_re : re :=
  let d := Chr is_digit in
  let sep := Opt (Chr (one_of (txt "-_"))) in
  seqs [Grp 1 (seqs [d; d; d; d]); sep; Grp 2 (seqs [d; d]); sep;
        Grp 3 (seqs [d; d])].

(** [(\d{1,2})(?:[:_]?(\d{2}))?\s*(AM|PM)] under [re.I] *)
Definition report_time_re : re :=
  let d := Chr is_digit in
  seqs [Grp 1 (Seq d (Opt d));
        Opt (Seq (Opt (Chr (one_of (txt ":_")))) (Grp 2 (seqs [d; d])));
        Star is_space;
        Grp 3 (Alt (lit_ci (txt "AM")) (lit_ci (txt "PM")))].

(** [int(s)] for a run of decimal digits. *)
Definition int_of (s : str) : nat :=
  foldl (fun n c => 10 * n + (code c - 48)) 0 s.

Definition digit_char (n : nat) : ascii := ascii_of_nat (48 + n).

Fixpoint decimal_go (fuel n : nat) (acc : str) : str :=
  match fuel with
  | 0 => acc
  | S fuel' =>
      let acc' := digit_char (n mod 10) :: acc in
      if n / 10 =? 0 then acc' else decimal_go fuel' (n / 10) acc'
  end.

(** [f"{n}"] *)
Definition decimal (n : nat) : str := decimal_go (S n) n [].

(** [f"{n:02d}"] *)
Definition decimal02 (n : nat) : str :=
  if n <? 10 then "0"%char :: decimal n else decimal n.

Record report_metadata := MkMeta {
  report_date : option str;
  report_time : option str
}.

(** The locator calls [urlparse] of the standard library.  It is a
    parameter here: [urlparse_path url] is [urlparse(url).path], or the
    [ValueError] that [urlparse] raises for [url]. *)
Section Locator.
Variable urlparse_path : str -> result str.

Definition extract_report_metadata_from_url (url : str) : result report_metadata :=
  match urlparse_path url with
  | Raise e => Raise e
  | Ok path =>
      let filename := basename path in
      let report_date :=
        match re_search report_date_re filename with
        | Some m =>
            Some (default [] (group m 1) ++ txt "-" ++ default [] (group m 2)
                    ++ txt "-" ++ default [] (group m 3))
        | None => None
        end in
      let report_time :=
        match re_search report_time_re filename with
        | Some m =>
            let hour := int_of (default [] (group m 1)) in
            let minute := int_of (default (txt "0") (group m 2)) in
            let ampm := upper (default [] (group m 3)) in
            Some (decimal hour ++ txt ":" ++ decimal02 minute ++ txt " " ++ ampm)
        | None => None
        end in
      Ok (MkMeta report_date report_time)
  end.

(** *** [datetime] and [datetime.strptime] *)

Record datetime := MkDatetime {
  dt_year : nat;
  dt_month : nat;
  dt_day : nat;
  dt_hour : nat;
  dt_minute : nat
}.

(** [datetime.min] *)
Definition datetime_min : datetime := MkDatetime 1 1 1 0 0.

Definition is_leap (y : nat) : bool :=
  (y mod 4 =? 0) && (negb (y mod 100 =? 0) || (y mod 400 =? 0)).

Definition days_in_month (y m : nat) : nat :=
  match m with
  | 2 => if is_leap y then 29 else 28
  | 4 | 6 | 9 | 11 => 30
  | _ => 31
  end.

(** The range checks of the [datetime] constructor. *)
Definition valid_date (y m d : nat) : bool :=
  (1 <=? y) && (y <? 100 * 100) && (1 <=? m) && (m <=? 12)
  && (1 <=? d) && (d <=? days_in_month y m).

Definition in_range (a b : nat) (c : ascii) : bool :=
  (48 + a <=? code c) && (code c <=? 48 + b).

(** The directives of [_strptime], as the regular expressions it compiles
    them to. *)
Definition dir_Y : re := let d := Chr is_digit in seqs [d; d; d; d].
Definition dir_m : re :=
  Alt (Seq (Chr (in_range 1 1)) (Chr (in_range 0 2)))
      (Alt (Seq (Chr (in_range 0 0)) (Chr (in_range 1 9))) (Chr (in_range 1 9))).
Definition dir_d : re :=
  Alt (Seq (Chr (in_range 3 3)) (Chr (in_range 0 1)))
      (Alt (Seq (Chr (in_range 1 2)) (Chr is_digit))
           (Alt (Seq (Chr (in_range 0 0)) (Chr (in_range 1 9)))
                (Alt (Chr (in_range 1 9))
                     (Seq (Chr (ch_eq " "%char)) (Chr (in_range 1 9)))))).
Definition dir_I : re := dir_m.
Definition dir_M : re :=
  Alt (Seq (Chr (in_range 0 5)) (Chr is_digit)) (Chr is_digit).
Definition dir_p : re := Alt (lit_ci (txt "am")) (lit_ci (txt "pm")).

(** ["%Y-%m-%d"] *)
Definition date_format_re : re :=
  seqs [Grp 1 dir_Y; lit (txt "-"); Grp 2 dir_m; lit (txt "-"); Grp 3 dir_d].

(** ["%Y-%m-%d %I:%M %p"] *)
Definition datetime_format_re : re :=
  seqs [Grp 1 dir_Y; lit (txt "-"); Grp 2 dir_m; lit (txt "-"); Grp 3 dir_d;
        Plus is_space; Grp 4 dir_I; lit (txt ":"); Grp 5 dir_M;
        Plus is_space; Grp 6 dir_p].

(** [datetime.strptime(s, fmt)] for the two formats above; [None] is its
    [ValueError].  The whole of [s] must be consumed. *)
Definition strptime (with_time : bool) (s : str) : option datetime :=
  match re_match (if with_time then datetime_format_re else date_format_re) s with
  | Some m =>
      if m_end m =? length s then
        let num n := int_of (lstrip (default [] (group m n))) in
        let hour :=
          if with_time then
            let h := num 4 in
            if text_eqb (lower (default [] (group m 6))) (txt "am")
            then (if h =? 12 then 0 else h)
            else (if h =? 12 then h else h + 12)
          else 0 in
        let minute := if with_time then num 5 else 0 in
        if valid_date (num 1) (num 2) (num 3)
        then Some (MkDatetime (num 1) (num 2) (num 3) hour minute)
        else None
      else None
  | None => None
  end.

(** *** Selecting the newest link: [_select_latest_report_link] *)

Definition lex (c1 c2 : comparison) : comparison :=
  match c1 with Eq => c2 | _ => c1 end.

Definition datetime_compare (a b : datetime) : comparison :=
  lex (dt_year a ?= dt_year b)
   (lex (dt_month a ?= dt_month b)
     (lex (dt_day a ?= dt_day b)
       (lex (dt_hour a ?= dt_hour b) (dt_minute a ?= dt_minute b)))).

(** Strings compare by code point, a proper prefix first. *)
Fixpoint str_compare (a b : str) : comparison :=
  match a, b with
  | [], [] => Eq
  | [], _ :: _ => Lt
  | _ :: _, [] => Gt
  | x :: a', y :: b' => lex (code x ?= code y) (str_compare a' b')
  end.

(** An element of [scored]. *)
Definition scored_link : Type := datetime * nat * str.

Definition scored_compare (a b : scored_link) : comparison :=
  let '(d1, i1, l1) := a in
  let '(d2, i2, l2) := b in
  lex (datetime_compare d1 d2) (lex (i1 ?= i2) (str_compare l1 l2)).

(** [list.sort(reverse=True)]: descending, equal elements in their
    original order. *)
Fixpoint insert_desc (x : scored_link) (l : list scored_link) : list scored_link :=
  match l with
  | [] => [x]
  | y :: l' =>
      match scored_compare x y with
      | Lt => y :: insert_desc x l'
      | _ => x :: l
      end
  end.

Definition sort_desc (l : list scored_link) : list scored_link :=
  foldr insert_desc [] l.

(** Truth value of an optional string. *)
Definition opt_truthy (o : option str) : bool :=
  match o with Some s => nonempty s | None => false end.

(** The [dt_value] the loop computes for one link; the call of
    [_extract_report_metadata_from_url] can raise, the rest cannot. *)
Definition link_timestamp (link : str) : result datetime :=
  match extract_report_metadata_from_url link with
  | Raise e => Raise e
  | Ok meta =>
      if opt_truthy (report_date meta) then
        let date := default [] (report_date meta) in
        Ok (default datetime_min
              (if opt_truthy (report_time meta)
               then strptime true (date ++ txt " " ++ default [] (report_time meta))
               else strptime false date))
      else Ok datetime_min
  end.

(** [enumerate(links)] from index [idx] on, scored; the first link that
    raises ends the loop. *)
Fixpoint score_links (idx : nat) (links : list str) : result (list scored_link) :=
  match links with
  | [] => Ok []
  | link :: rest =>
      match link_timestamp link with
      | Raise e => Raise e
      | Ok dt_value =>
          match score_links (S idx) rest with
          | Raise e => Raise e
          | Ok scored => Ok ((dt_value, idx, link) :: scored)
          end
      end
  end.

Definition select_latest_report_link (links : list str) : result str :=
  match links with
  | [] => Raise (ValueError (txt "No injury report links found"))
  | _ =>
      match score_links 0 links with
      | Raise e => Raise e
      | Ok scored =>
          match sort_desc scored with
          | (_, _, link) :: _ => Ok link
          | [] => Raise IndexError
          end
      end
  end.
End Locator.

(** ** The table-oriented parser *)

Definition alias_map : gmap str str :=
  list_to_map
    (map (fun p : string * string => (txt p.1, txt p.2))
       [ ("game date", "gameDate"); ("gamedate", "gameDate");
         ("date", "gameDate"); ("game time", "gameTime");
         ("gametime", "gameTime"); ("matchup", "matchup"); ("team", "team");
         ("player name", "playerName"); ("player", "playerName");
         ("current status", "status"); ("status", "status");
         ("injury/illness", "injury"); ("injury", "injury");
         ("reason", "reason"); ("remarks", "notes"); ("comment", "notes");
         ("notes", "notes"); ("est. return date", "returnDate");
         ("est return date", "returnDate") ]%string).

(** A table cell is a string or [None]. *)
Abbreviation cell := (option str).

(** The loop of [_map_table_headers] from column [idx] on. *)
Fixpoint map_headers_go (idx : nat) (headers : list cell)
    (mapping : gmap nat str) (normalized_headers : list str)
    : gmap nat str * list str :=
  match headers with
  | [] => (mapping, normalized_headers)
  | header :: rest =>
      let normalized := normalize_header header in
      let normalized_headers := normalized_headers ++ [normalized] in
      let mapping :=
        match alias_map !! normalized with
        | Some canonical =>
            if nonempty canonical then <[idx := canonical]> mapping else mapping
        | None => mapping
        end in
      map_headers_go (S idx) rest mapping normalized_headers
  end.

Definition map_table_headers (headers : list cell) : gmap nat str * list str :=
  map_headers_go 0 headers ∅ [].

(** [str(cell or "").replace("\n", " ").strip()] *)
Definition clean_cell (c : cell) : str :=
  strip (replace_char "010"%char " "%char (default [] c)).

(** [f"col_{idx}"] *)
Definition col_label (idx : nat) : str := txt "col_" ++ decimal idx.

(** The key of column [idx] in [raw]. *)
Definition raw_label (normalized_headers : list str) (idx : nat) : str :=
  let header_label :=
    match normalized_headers !! idx with
    | Some h => h
    | None => col_label idx
    end in
  if nonempty header_label then header_label else col_label idx.

(** The [for idx, value in enumerate(row_values)] loop, from column [idx]
    on: it fills [entry] and [raw] together. *)
Fixpoint fill_row (mapping : gmap nat str) (normalized_headers : list str)
    (idx : nat) (row_values : list str) (entry : gmap str value)
    (raw : gmap str str) : gmap str value * gmap str str :=
  match row_values with
  | [] => (entry, raw)
  | value :: rest =>
      let raw := <[raw_label normalized_headers idx := value]> raw in
      let entry :=
        match mapping !! idx with
        | Some canonical => <[canonical := VStr value]> entry
        | None => entry
        end in
      fill_row mapping normalized_headers (S idx) rest entry raw
  end.

(** The entry built from one kept row. *)
Definition row_entry (mapping : gmap nat str) (normalized_headers : list str)
    (row_values : list str) : gmap str value :=
  let '(entry, raw) := fill_row mapping normalized_headers 0 row_values ∅ ∅ in
  <[txt "raw" := VDict raw]> entry.

Definition is_player_header (val : str) : bool :=
  let h := normalize_header (Some val) in
  text_eqb h (txt "player name") || text_eqb h (txt "player").

(** Whether the row loop keeps a row: it is not empty, some cleaned cell is
    not empty, and no cell repeats a player header. *)
Definition keeps_row (row : list cell) : bool :=
  let row_values := map clean_cell row in
  match row with
  | [] => false
  | _ => existsb nonempty row_values && negb (existsb is_player_header row_values)
  end.

Fixpoint build_rows (mapping : gmap nat str) (normalized_headers : list str)
    (rows : list (list cell)) : list (gmap str value) :=
  match rows with
  | [] => []
  | row :: rest =>
      if keeps_row row
      then row_entry mapping normalized_headers (map clean_cell row)
             :: build_rows mapping normalized_headers rest
      else build_rows mapping normalized_headers rest
  end.

Definition build_entries_from_table (table : list (list cell))
    : list (gmap str value) :=
  match table with
  | headers :: rows =>
      match rows with
      | [] => []
      | _ :: _ =>
          let '(mapping, normalized_headers) := map_table_headers headers in
          if bool_decide (mapping = ∅) then []
          else build_rows mapping normalized_headers rows
      end
  | [] => []
  end.

(** ** Context propagation *)

Definition context_keys : list str :=
  map txt ["gameDate"; "gameTime"; "matchup"; "team"]%string.

(** [_apply_injury_context] *)
Definition apply_injury_context (entry context : gmap str value) : gmap str value :=
  foldl (fun entry key =>
           if negb (truthy (dget entry key)) && truthy (dget context key)
           then <[key := dget context key]> entry
           else entry)
        entry context_keys.

(** [_update_injury_context], for the entry at reference [r]. *)
Definition update_injury_context (entry : gmap str value) (r : nat)
    (context : gmap str value) : gmap str value :=
  <[txt "lastEntry" := VRef r]>
    (foldl (fun context key =>
              if truthy (dget entry key)
              then <[key := dget entry key]> context
              else context)
           context context_keys).

(** ** The line-oriented parser *)

(** [^(\d{2}/\d{2}/\d{4})\s+(\d{1,2}:\d{2}\(ET\))\s+(\S+)\s+(\S+)\s+( .* )$] *)
Definition clock_re : re :=
  let d := Chr is_digit in
  seqs [d; Opt d; lit (txt ":"); d; d; lit (txt "(ET)")].

Definition date_header_re : re :=
  let d := Chr is_digit in
  seqs [Bol;
        Grp 1 (seqs [d; d; lit (txt "/"); d; d; lit (txt "/"); d; d; d; d]);
        Plus is_space; Grp 2 clock_re;
        Plus is_space; Grp 3 (Plus not_space);
        Plus is_space; Grp 4 (Plus not_space);
        Plus is_space; Grp 5 (Star not_newline); Eol].

(** [^(\d{1,2}:\d{2}\(ET\))\s+(\S+)\s+(\S+)\s+( .* )$] *)
Definition time_header_re : re :=
  seqs [Bol;
        Grp 1 clock_re;
        Plus is_space; Grp 2 (Plus not_space);
        Plus is_space; Grp 3 (Plus not_space);
        Plus is_space; Grp 4 (Star not_newline); Eol].

(** The state of one run of [_parse_injury_report_text]: its local
    variables, the context dict, and the heap of entries. *)
Record pstate := MkState {
  entries : list nat;
  context : gmap str value;
  current_date : value;
  current_time : value;
  current_matchup : value;
  current_team : value;
  last_entry : value;
  heap : list (gmap str value)
}.

(** The entry dict literal of the three emitting branches. *)
Definition new_entry (st : pstate) (psr : option str * option str * option str)
    : gmap str value :=
  let '(player, status, reason) := psr in
  <[txt "reason" := opt_value reason]>
  (<[txt "status" := opt_value status]>
  (<[txt "playerName" := opt_value player]>
  (<[txt "team" := current_team st]>
  (<[txt "matchup" := current_matchup st]>
  (<[txt "gameTime" := current_time st]>
  (<[txt "gameDate" := current_date st]> ∅)))))).

(** Apply the context to a fresh entry, append it, make it the last entry
    and fold it back into the context. *)
Definition emit (st : pstate) (entry : gmap str value) : pstate :=
  let entry := apply_injury_context entry (context st) in
  let r := length (heap st) in
  {| entries := entries st ++ [r];
     context := update_injury_context entry r (context st);
     current_date := current_date st;
     current_time := current_time st;
     current_matchup := current_matchup st;
     current_team := current_team st;
     last_entry := VRef r;
     heap := heap st ++ [entry] |}.

(** [any(re.search(rf"\b{re.escape(status)}\b", line, flags=re.I) for ...)] *)
Definition has_status (line : str) : bool :=
  existsb (fun status => bool_decide (is_Some (re_search (status_re status) line)))
    STATUS_OPTIONS.

(** [v or ""] when [v] is a string or [None]. *)
Definition str_or_empty (v : value) : str :=
  match v with VStr s => s | _ => [] end.

(** The continuation branch: the line is added to the reason of the last
    entry, if there is one. *)
Definition continuation (st : pstate) (line : str) : pstate :=
  match last_entry st with
  | VRef r =>
      match heap st !! r with
      | Some e =>
          let existing_reason := str_or_empty (dget e (txt "reason")) in
          let separator := if nonempty existing_reason then txt " " else [] in
          let e := <[txt "reason" := VStr (existing_reason ++ separator ++ line)]> e in
          {| entries := entries st; context := context st;
             current_date := current_date st; current_time := current_time st;
             current_matchup := current_matchup st;
             current_team := current_team st; last_entry := last_entry st;
             heap := <[r := e]> (heap st) |}
      | None => st
      end
  | _ => st
  end.

Definition set_header (st : pstate) (date time matchup team : value) : pstate :=
  {| entries := entries st; context := context st;
     current_date := date; current_time := time;
     current_matchup := matchup; current_team := team;
     last_entry := last_entry st; heap := heap st |}.

Definition grp (m : rmatch_result) (n : nat) : str := default [] (group m n).

(** The data-row branch. *)
Definition data_row (st : pstate) (line : str) : pstate :=
  match split line with
  | [] => st
  | token0 :: tokens =>
      let '(st, rest) :=
        if negb (contains_char ","%char token0)
        then (set_header st (current_date st) (current_time st)
                (current_matchup st) (VStr token0),
              strip (join (txt " ") tokens))
        else (st, line) in
      let psr := parse_player_status_reason rest in
      let '(player, status, reason) := psr in
      if opt_truthy player || opt_truthy status || opt_truthy reason
      then emit st (new_entry st psr)
      else st
  end.

(** One iteration of the [for raw_line in ...] loop. *)
Definition line_step (st : pstate) (raw_line : str) : pstate :=
  let line := strip raw_line in
  if negb (nonempty line) then st
  else if startswith (txt "injury report") (lower line) then st
  else if startswith (txt "gamedate") (lower (remove_char " "%char line)) then st
  else
    match clean_injury_line line with
    | None => st
    | Some line =>
        match re_match date_header_re line, re_match time_header_re line with
        | Some m, _ =>
            let st := set_header st (VStr (grp m 1)) (VStr (grp m 2))
                        (VStr (grp m 3)) (VStr (grp m 4)) in
            let rest := strip (grp m 5) in
            emit st (new_entry st (parse_player_status_reason rest))
        | None, Some m =>
            let st := set_header st (current_date st) (VStr (grp m 1))
                        (VStr (grp m 2)) (VStr (grp m 3)) in
            let rest := strip (grp m 4) in
            emit st (new_entry st (parse_player_status_reason rest))
        | None, None =>
            if negb (contains_char ","%char line) && negb (has_status line)
            then continuation st line
            else data_row st line
        end
    end.

(** [_parse_injury_report_text(text, context)] on the heap [h]: the
    references of the page's entries, the context and the heap afterwards.
    An absent context is the empty dict. *)
Definition parse_injury_report_text (text : str) (ctx : gmap str value)
    (h : list (gmap str value)) : list nat * gmap str value * list (gmap str value) :=
  let st0 :=
    {| entries := []; context := ctx;
       current_date := dget ctx (txt "gameDate");
       current_time := dget ctx (txt "gameTime");
       current_matchup := dget ctx (txt "matchup");
       current_team := dget ctx (txt "team");
       last_entry := dget ctx (txt "lastEntry");
       heap := h |} in
  let st := foldl line_step st0 (splitlines text) in
  (entries st, <[txt "lastEntry" := last_entry st]> (context st), heap st).

(** ** The extraction loop: [_extract_injury_report_entries] *)

(** What the PDF library gives for one page: [page.extract_text()] and
    [page.extract_tables(table_settings)]. *)
Record page := MkPage {
  extract_text : option str;
  extract_tables : list (list (list cell))
}.

(** The state of the loop over pages: the references in [entries], the
    context, and the heap. *)
Definition xstate : Type := list nat * gmap str value * list (gmap str value).

(** [_apply_injury_context(entry, context); _update_injury_context(entry,
    context)] for one table entry, then its place in [entries]. *)
Definition add_table_entry (xs : xstate) (entry : gmap str value) : xstate :=
  let '(ents, ctx, h) := xs in
  let entry := apply_injury_context entry ctx in
  let r := length h in
  (ents ++ [r], update_injury_context entry r ctx, h ++ [entry]).

Definition add_table (xs : xstate) (table : list (list cell)) : xstate :=
  foldl add_table_entry xs (build_entries_from_table table).

(** The body of [for page in pdf.pages]. *)
Definition process_page (xs : xstate) (pg : page) : xstate :=
  let '(ents, ctx, h) := xs in
  let '(text_entries, ctx, h) :=
    parse_injury_report_text (default [] (extract_text pg)) ctx h in
  let ents := ents ++ text_entries in
  match text_entries with
  | [] => foldl add_table (ents, ctx, h) (extract_tables pg)
  | _ :: _ => (ents, ctx, h)
  end.

(** The entries of a document, read off the heap at the end. *)
Definition extract_injury_report_entries (pages : list page)
    : list (gmap str value) :=
  let '(ents, _, h) := foldl process_page ([], ∅, []) pages in
  omap (fun r => h !! r) ents.

(** * Other helpers of the service *)

(** ** Seasons: [_season_year_from_date], [_season_label_from_year]

    Season years are the years of dates, natural numbers from 1 on. *)

Definition season_year_from_date (value : datetime) : nat :=
  if 7 <=? dt_month value then dt_year value else dt_year value - 1.

(** [f"{season_year}-{(season_year + 1) % 100:02d}"] *)
Definition season_label_from_year (season_year : nat) : str :=
  decimal season_year ++ txt "-" ++ decimal02 ((season_year + 1) mod 100).

(** ** The proxy pool *)

Definition allowed_schemes : list str :=
  map txt ["http://"; "https://"; "socks4://"; "socks4a://"; "socks5://";
           "socks5h://"]%string.

(** [sub in s] *)
Fixpoint contains_sub (sub s : str) : bool :=
  startswith sub s
  || match s with
     | [] => false
     | _ :: s' => contains_sub sub s'
     end.

(** The body of the loop over the lines of the response: the proxy a line
    contributes, if any. *)
Definition proxy_of_line (raw : str) : option str :=
  let proxy := strip raw in
  if negb (nonempty proxy) then None
  else
    let proxy :=
      if negb (contains_sub (txt "://") proxy) then txt "http://" ++ proxy
      else proxy in
    let proxy_lower := lower proxy in
    if negb (existsb (fun scheme => startswith scheme proxy_lower) allowed_schemes)
    then None
    else Some proxy.

(** The second loop: the first occurrence of every proxy, in order. *)
Fixpoint dedupe (seen : gset str) (proxies : list str) : list str :=
  match proxies with
  | [] => []
  | proxy :: rest =>
      if bool_decide (proxy ∈ seen) then dedupe seen rest
      else proxy :: dedupe ({[proxy]} ∪ seen) rest
  end.

(** [_fetch_proxy_list], for the status code and the text of the response
    of the proxy source. *)
Definition fetch_proxy_list (status_code : nat) (text : str) : list str :=
  if 400 <=? status_code then []
  else dedupe ∅ (omap proxy_of_line (splitlines text)).

(** The part of [_PROXY_STATE] that [_next_proxy] reads and writes. *)
Record proxy_state := MkProxy {
  proxies : list str;
  index : nat
}.

(** [_next_proxy]: its result and the state afterwards. *)
Definition next_proxy (st : proxy_state) : result (option str) * proxy_state :=
  match proxies st with
  | [] => (Ok None, st)
  | _ :: _ =>
      let index := index st mod length (proxies st) in
      let st := MkProxy (proxies st) (index + 1) in
      match proxies st !! index with
      | Some proxy => (Ok (Some proxy), st)
      | None => (Raise IndexError, st)
      end
  end.

(** ** Retries: [_with_retries]

    [fn] is given by what its calls do, in order: call number [n] returns a
    value or raises (an exception raised on entering the proxy context
    counts as raised by the call).  A run gives the outcome, the number of
    calls made, and the lengths of the sleeps in milliseconds.
    [time.sleep] raises [ValueError] for a negative length; its limit for
    lengths beyond the range of the platform's clock is not modelled. *)

Inductive retry_exn (E : Type) : Type :=
| FnError (e : E)
| SleepValueError
| RequestFailed.
Arguments FnError {E} e.
Arguments SleepValueError {E}.
Arguments RequestFailed {E}.

Inductive retry_outcome (A E : Type) : Type :=
| Returns (a : A)
| Raises (e : retry_exn E).
Arguments Returns {A E} a.
Arguments Raises {A E} e.

Record retry_run (A E : Type) := MkRun {
  outcome : retry_outcome A E;
  calls : nat;
  sleeps : list Z
}.
Arguments MkRun {A E} outcome calls sleeps.
Arguments outcome {A E} r.
Arguments calls {A E} r.
Arguments sleeps {A E} r.

(** [if last_exc: raise last_exc] and the [RuntimeError] after it. *)
Definition after_loop {A E : Type} (last_exc : option E) : retry_outcome A E :=
  match last_exc with
  | Some exc => Raises (FnError exc)
  | None => Raises RequestFailed
  end.

(** The [for attempt in range(retries + 1)] loop with [remaining]
    iterations to go. *)
Fixpoint retry_loop {A E : Type} (fn : nat -> A + E) (retries backoff_ms : Z)
    (attempt remaining : nat) (last_exc : option E) (slept : list Z)
    : retry_run A E :=
  match remaining with
  | 0 => MkRun (after_loop last_exc) attempt slept
  | S remaining' =>
      match fn attempt with
      | inl value => MkRun (Returns value) (S attempt) slept
      | inr exc =>
          if (retries <=? Z.of_nat attempt)%Z
          then MkRun (after_loop (Some exc)) (S attempt) slept
          else
            let sleep_ms := (backoff_ms * 2 ^ Z.of_nat attempt)%Z in
            if (sleep_ms <? 0)%Z
            then MkRun (Raises SleepValueError) (S attempt) slept
            else retry_loop fn retries backoff_ms (S attempt) remaining'
                   (Some exc) (slept ++ [sleep_ms])
      end
  end.

Definition with_retries {A E : Type} (fn : nat -> A + E)
    (retries backoff_ms : Z) : retry_run A E :=
  retry_loop fn retries backoff_ms 0 (Z.to_nat (retries + 1)) None [].

(** ** Rows under headers: [_normalize_data_set] *)

Section DataSets.
(** The values of the cells, whatever they are. *)
Variable V : Type.

(** [{headers[idx]: value for idx, value in enumerate(row)}], from column
    [idx] on. *)
Fixpoint zip_row (headers : list str) (idx : nat) (row : list V)
    (acc : gmap str V) : result (gmap str V) :=
  match row with
  | [] => Ok acc
  | value :: rest =>
      match headers !! idx with
      | Some header => zip_row headers (S idx) rest (<[header := value]> acc)
      | None => Raise IndexError
      end
  end.

Fixpoint zip_rows (headers : list str) (rows : list (list V))
    : result (list (gmap str V)) :=
  match rows with
  | [] => Ok []
  | row :: rest =>
      match zip_row headers 0 row ∅ with
      | Ok d =>
          match zip_rows headers rest with
          | Ok ds => Ok (d :: ds)
          | Raise e => Raise e
          end
      | Raise e => Raise e
      end
  end.

(** A data set: the values under [headers] and [data], [None] for a
    missing key or a null. *)
Record data_set := MkDataSet {
  ds_headers : option (list str);
  ds_data : option (list (list V))
}.

Definition normalize_data_set (data_set : option data_set)
    : result (list (gmap str V)) :=
  match data_set with
  | None => Ok []
  | Some ds => zip_rows (default [] (ds_headers ds)) (default [] (ds_data ds))
  end.

End DataSets.
Arguments zip_row {V} headers idx row acc.
Arguments zip_rows {V} headers rows.
Arguments MkDataSet {V} ds_headers ds_data.
Arguments ds_headers {V} d.
Arguments ds_data {V} d.
Arguments normalize_data_set {V} data_set.

(** * Specification-side definitions *)

(** The character before the position reached after reading [s]. *)
Fixpoint last_of (prev : option ascii) (s : str) : option ascii :=
  match s with
  | [] => prev
  | c :: s' => last_of (Some c) s'
  end.

(** [matches r prev s rest g g']: the pattern [r] can match exactly [s]
    when [prev] is the character before it and [rest] the text after it,
    turning the groups [g] into [g'].  This is the declarative reading of a
    pattern, without priorities. *)
Inductive matches : re -> option ascii -> str -> str -> caps -> caps -> Prop :=
| M_Eps prev rest g :
    matches Eps prev [] rest g g
| M_Chr p c prev rest g :
    p c = true -> matches (Chr p) prev [c] rest g g
| M_Seq r1 r2 prev s1 s2 rest g g1 g2 :
    matches r1 prev s1 (s2 ++ rest) g g1 ->
    matches r2 (last_of prev s1) s2 rest g1 g2 ->
    matches (Seq r1 r2) prev (s1 ++ s2) rest g g2
| M_AltL r1 r2 prev s rest g g' :
    matches r1 prev s rest g g' -> matches (Alt r1 r2) prev s rest g g'
| M_AltR r1 r2 prev s rest g g' :
    matches r2 prev s rest g g' -> matches (Alt r1 r2) prev s rest g g'
| M_Star p prev s rest g :
    forallb p s = true -> matches (Star p) prev s rest g g
| M_Grp n r prev s rest g g' :
    matches r prev s rest g g' -> matches (Grp n r) prev s rest g (<[n := s]> g')
| M_Bol rest g :
    matches Bol None [] rest g g
| M_Eol prev rest g :
    at_eol rest = true -> matches Eol prev [] rest g g
| M_Wordb prev rest g :
    xorb (is_word_opt prev) (is_word_opt (head rest)) = true ->
    matches Wordb prev [] rest g g.

(** [\b] between two neighbours: exactly one of them is a word character
    (the start and the end of the text count as non-word). *)
Definition boundary (before after : option ascii) : Prop :=
  is_word_opt before <> is_word_opt after.

(** A whole-word, case-insensitive occurrence of [label] in [text] that
    begins at offset [i]: what [rf"\b{label}\b"] under [re.I] matches. *)
Definition occurs_at (label text : str) (i : nat) : Prop :=
  exists pre mid post,
    text = pre ++ mid ++ post /\ length pre = i /\ lower mid = lower label
    /\ boundary (last_of None pre) (head (mid ++ post))
    /\ boundary (last_of None (pre ++ mid)) (head post).


(** Lexicographic comparison of lists of numbers; the comparisons of the
    locator are instances of it through [scored_key]. *)
Fixpoint lcmp (a b : list nat) : comparison :=
  match a, b with
  | [], [] => Eq
  | [], _ :: _ => Lt
  | _ :: _, [] => Gt
  | x :: a', y :: b' => lex (x ?= y) (lcmp a' b')
  end.

Definition scored_key (a : scored_link) : list nat :=
  let '(d, i, l) := a in
  dt_year d :: dt_month d :: dt_day d :: dt_hour d :: dt_minute d :: i
    :: map code l.

(** Whether one of the three parts of a split is a non-empty string: the
    test [if player or status or reason]. *)
Definition psr_truthy (psr : option str * option str * option str) : bool :=
  let '(player, status, reason) := psr in
  opt_truthy player || opt_truthy status || opt_truthy reason.

(** An entry with at least one of [playerName], [status], [reason]
    non-empty. *)
Definition has_content_b (e : gmap str value) : bool :=
  truthy (dget e (txt "playerName")) || truthy (dget e (txt "status"))
  || truthy (dget e (txt "reason")).

Definition has_content (e : gmap str value) : Prop := has_content_b e = true.

(** An entry whose [status] is [None] or a label of the vocabulary. *)
Definition status_in_vocabulary (e : gmap str value) : Prop :=
  dget e (txt "status") = VNone
  \/ exists label, label ∈ STATUS_OPTIONS /\ dget e (txt "status") = VStr label.

(** Two parser states that differ at most in the local header variables. *)
Definition same_store (st st' : pstate) : Prop :=
  entries st' = entries st /\ context st' = context st
  /\ heap st' = heap st /\ last_entry st' = last_entry st.

(** The reason of an entry after a continuation line is added to it. *)
Definition extended_reason (e : gmap str value) (line : str) : str :=
  let existing_reason := str_or_empty (dget e (txt "reason")) in
  existing_reason ++ (if nonempty existing_reason then txt " " else []) ++ line.

(** Texts made of blanks only, and non-empty runs of digits. *)
Definition is_blank (s : str) : Prop := forallb is_space s = true.
Definition is_number (s : str) : Prop := s <> [] /\ forallb is_digit s = true.

(** A pagination marker "Page N of M": the words up to case, with or
    without blanks between the four parts. *)
Definition page_marker (m : str) : Prop :=
  exists p w1 n w2 o w3 k,
    m = p ++ w1 ++ n ++ w2 ++ o ++ w3 ++ k
    /\ lower p = txt "page" /\ is_blank w1 /\ is_number n /\ is_blank w2
    /\ lower o = txt "of" /\ is_blank w3 /\ is_number k.

(** A pagination marker with the blanks around it. *)
Definition trailing_marker (tail : str) : Prop :=
  exists w m w', tail = w ++ m ++ w' /\ is_blank w /\ page_marker m /\ is_blank w'.

(** The number of characters of [s] that are a [p] up to case. *)
Fixpoint count_p (s : str) : nat :=
  match s with
  | [] => 0
  | c :: s' => (if ch_eq_ci "p" c then 1 else 0) + count_p s'
  end.

(** ** The store of a document *)

(** The reference of the most recent cell of a heap, [None] on the empty
    heap. *)
Definition last_ref (h : list (gmap str value)) : value :=
  match length h with
  | 0 => VNone
  | S n => VRef n
  end.

(** The entries that reach the store: the dict literal of an emitting
    branch of the line-oriented parser, built from a split with some
    content, or an entry of a table. *)
Definition emittable (e : gmap str value) : Prop :=
  (exists st rest,
      psr_truthy (parse_player_status_reason rest) = true
      /\ e = new_entry st (parse_player_status_reason rest))
  \/ exists table, e ∈ build_entries_from_table table.

(** What the parsers do to the entries, the context and the heap, one
    effect at a time: a continuation line extends the reason of the most
    recent cell; an entry is merged with the context, appended and folded
    back into the context; the [lastEntry] of the context is written
    back. *)
Inductive store_step : xstate -> xstate -> Prop :=
| step_extend ents ctx h e line :
    line <> [] ->
    store_step (ents, ctx, h ++ [e])
      (ents, ctx, h ++ [<[txt "reason" := VStr (extended_reason e line)]> e])
| step_emit ents ctx h e :
    emittable e ->
    store_step (ents, ctx, h)
      (ents ++ [length h],
       update_injury_context (apply_injury_context e ctx) (length h) ctx,
       h ++ [apply_injury_context e ctx])
| step_touch ents ctx h :
    store_step (ents, ctx, h) (ents, <[txt "lastEntry" := last_ref h]> ctx, h).

Inductive reaches : xstate -> xstate -> Prop :=
| reaches_refl xs : reaches xs xs
| reaches_step xs ys zs : reaches xs ys -> store_step ys zs -> reaches xs zs.

(** The context names the most recent cell as its last entry. *)
Definition tracks_last (ctx : gmap str value) (h : list (gmap str value)) : Prop :=
  dget ctx (txt "lastEntry") = last_ref h.

(** Two entries that differ at most in their reason. *)
Definition same_but_reason (e e' : gmap str value) : Prop :=
  forall k : str, k <> txt "reason" -> e' !! k = e !! k.

(** The state of the page loop after the pages of a document. *)
Definition document_store (pages : list page) : xstate :=
  foldl process_page ([], ∅, []) pages.

(** What the line-oriented parser guarantees for its entries, stated for
    the entries without a [raw] map (the table-oriented parser gives every
    entry one). *)
Definition line_entry_ok (e : gmap str value) : Prop :=
  dget e (txt "raw") = VNone -> has_content e /\ status_in_vocabulary e.

(** The local [last_entry] of the line loop and the context's [lastEntry]
    are both the most recent cell. *)
Definition tracks_last_line (st : pstate) : Prop :=
  last_entry st = last_ref (heap st) /\ tracks_last (context st) (heap st).

(** The heap [h'] keeps the cells of [h]: all but the last unchanged, the
    last changed at most in its reason. *)
Definition keeps (h h' : list (gmap str value)) : Prop :=
  length h <= length h'
  /\ (forall i, S i < length h -> h' !! i = h !! i)
  /\ (forall e, last h = Some e ->
        exists e', h' !! (length h - 1) = Some e' /\ same_but_reason e e').

(** Once an entry holds the context field [k], every later entry of the
    heap holds it, and so does the context. *)
Definition field_persists (k : str) (ctx : gmap str value)
    (h : list (gmap str value)) : Prop :=
  (forall i e, h !! i = Some e -> truthy (dget e k) = true ->
     truthy (dget ctx k) = true)
  /\ (forall i j ei ej, i <= j -> h !! i = Some ei -> h !! j = Some ej ->
        truthy (dget ei k) = true -> truthy (dget ej k) = true).

(** ** The fields of an entry *)

(** The canonical field names of the header alias table. *)
Definition canonical_fields : list str :=
  map txt ["gameDate"; "gameTime"; "matchup"; "team"; "playerName"; "status";
           "injury"; "reason"; "notes"; "returnDate"]%string.

(** The keys of the dict literal of the line-oriented parser. *)
Definition line_fields : gset str :=
  list_to_set
    (map txt ["gameDate"; "gameTime"; "matchup"; "team"; "playerName";
              "status"; "reason"]%string).

(** The keys an entry of the table-oriented parser can have. *)
Definition table_fields : gset str :=
  list_to_set (txt "raw" :: canonical_fields).

(** The canonical field of a header cell, if the alias table has one. *)
Definition header_field (header : cell) : option str :=
  alias_map !! normalize_header header.

(** ** Runs of the helpers *)

(** [n] calls of [_next_proxy] in a row: their results and the state
    afterwards. *)
Fixpoint next_proxies (n : nat) (st : proxy_state)
    : list (result (option str)) * proxy_state :=
  match n with
  | 0 => ([], st)
  | S n' =>
      let '(r, st') := next_proxy st in
      let '(rs, st'') := next_proxies n' st' in
      (r :: rs, st'')
  end.

(** The sleeps before attempt [k]: the backoff doubled each time. *)
Definition backoff_sleeps (backoff_ms : Z) (k : nat) : list Z :=
  map (fun j => (backoff_ms * 2 ^ Z.of_nat j)%Z) (seq 0 k).

(** * Properties *)

(** ** Text *)

Lemma last_of_app prev s1 s2 :
  last_of prev (s1 ++ s2) = last_of (last_of prev s1) s2.
Proof. revert prev. induction s1 as [|c s1 IH]; intros prev; simpl; auto. Qed.

Lemma ch_eq_true a b : ch_eq a b = true <-> a = b.
Proof.
  unfold ch_eq, code. rewrite Nat.eqb_eq. split; [|congruence].
  intros H. rewrite <- (ascii_nat_embedding a), <- (ascii_nat_embedding b).
  congruence.
Qed.

Lemma ch_eq_refl a : ch_eq a a = true.
Proof. apply ch_eq_true; reflexivity. Qed.

Lemma text_eqb_true a b : text_eqb a b = true <-> a = b.
Proof.
  revert b. induction a as [|x a IH]; intros [|y b]; simpl; split;
    try congruence; try discriminate.
  - rewrite andb_true_iff, ch_eq_true, IH. intros [-> ->]; reflexivity.
  - intros [= -> ->]. rewrite ch_eq_refl. simpl. apply IH. reflexivity.
Qed.

(** ** The matcher against the declarative reading *)

Section MatcherFacts.
Context {A : Type}.
Implicit Types (k : option ascii -> str -> caps -> option A).

Lemma star_match_sound p prev s (k : option ascii -> str -> option A) a :
  star_match p prev s k = Some a ->
  exists s1 s2, s = s1 ++ s2 /\ forallb p s1 = true
                /\ k (last_of prev s1) s2 = Some a.
Proof.
  revert prev. induction s as [|c s IH]; intros prev; simpl.
  - intros H. exists [], []. auto.
  - destruct (p c) eqn:Hp.
    + destruct (star_match p (Some c) s k) eqn:Hs.
      * intros [= ->]. destruct (IH _ Hs) as (s1 & s2 & -> & Hall & Hk).
        exists (c :: s1), s2. simpl. rewrite Hp. auto.
      * intros H. exists [], (c :: s). auto.
    + intros H. exists [], (c :: s). auto.
Qed.

Lemma star_match_complete p prev s1 s2 (k : option ascii -> str -> option A) :
  forallb p s1 = true ->
  is_Some (k (last_of prev s1) s2) ->
  is_Some (star_match p prev (s1 ++ s2) k).
Proof.
  revert prev. induction s1 as [|c s1 IH]; intros prev Hall Hk; simpl in *.
  - destruct s2 as [|d s2]; simpl; auto.
    destruct (p d); auto.
    destruct (star_match p (Some d) s2 k); eauto.
  - apply andb_true_iff in Hall as [Hc Hall]. rewrite Hc.
    specialize (IH (Some c) Hall Hk).
    destruct IH as [a ->]. eauto.
Qed.

Lemma rmatch_sound r prev s g k a :
  rmatch r prev s g k = Some a ->
  exists s1 s2 g', s = s1 ++ s2 /\ matches r prev s1 s2 g g'
                   /\ k (last_of prev s1) s2 g' = Some a.
Proof.
  revert prev s g k a.
  induction r as [|p|r1 IH1 r2 IH2|r1 IH1 r2 IH2|p|n r IH| | |];
    intros prev s g k a; simpl.
  - intros H. exists [], s, g. split; [done|]. split; [constructor|done].
  - destruct s as [|c s]; [done|]. destruct (p c) eqn:Hp; [|done].
    intros H. exists [c], s, g. split; [done|]. split; [by constructor|done].
  - intros H. apply IH1 in H as (s1 & s2 & g1 & -> & M1 & H).
    apply IH2 in H as (s3 & s4 & g2 & -> & M2 & H).
    exists (s1 ++ s3), s4, g2. rewrite last_of_app, <- app_assoc.
    split; [done|]. split; [|done]. by econstructor.
  - destruct (rmatch r1 prev s g k) eqn:H1.
    + intros [= ->]. apply IH1 in H1 as (s1 & s2 & g1 & -> & M1 & H).
      exists s1, s2, g1. split; [done|]. split; [by apply M_AltL|done].
    + intros H. apply IH2 in H as (s1 & s2 & g1 & -> & M1 & H).
      exists s1, s2, g1. split; [done|]. split; [by apply M_AltR|done].
  - intros H. apply star_match_sound in H as (s1 & s2 & -> & Hall & H).
    exists s1, s2, g. split; [done|]. split; [by constructor|done].
  - intros H. apply IH in H as (s1 & s2 & g1 & -> & M1 & H).
    exists s1, s2, (<[n := s1]> g1). split; [done|].
    split; [by constructor|].
    rewrite length_app in H.
    replace (length s1 + length s2 - length s2) with (length s1) in H by lia.
    by rewrite take_app_length in H.
  - destruct prev; [done|]. intros H. exists [], s, g.
    split; [done|]. split; [constructor|done].
  - destruct (at_eol s) eqn:He; [|done]. intros H. exists [], s, g.
    split; [done|]. split; [by constructor|done].
  - destruct (xorb _ _) eqn:He; [|done]. intros H. exists [], s, g.
    split; [done|]. split; [by constructor|done].
Qed.

Lemma rmatch_complete r prev s1 s2 g g' k :
  matches r prev s1 s2 g g' ->
  is_Some (k (last_of prev s1) s2 g') ->
  is_Some (rmatch r prev (s1 ++ s2) g k).
Proof.
  intros M. revert k.
  induction M as [prev rest g|p c prev rest g Hp
                 |r1 r2 prev s1 s2 rest g g1 g2 M1 IH1 M2 IH2
                 |r1 r2 prev s rest g g' M IH|r1 r2 prev s rest g g' M IH
                 |p prev s rest g Hall|n r prev s rest g g' M IH
                 |rest g|prev rest g He|prev rest g He];
    intros k Hk; simpl in *.
  - done.
  - by rewrite Hp.
  - rewrite <- app_assoc. apply IH1. apply IH2.
    by rewrite <- last_of_app.
  - destruct (IH k Hk) as [a ->]. eauto.
  - destruct (rmatch r1 prev (s ++ rest) g k); eauto.
  - by apply star_match_complete.
  - apply IH. rewrite length_app.
    replace (length s + length rest - length rest) with (length s) by lia.
    by rewrite take_app_length.
  - done.
  - by rewrite He.
  - by rewrite He.
Qed.
End MatcherFacts.

(** ** Searching *)

Lemma match_here_Some r prev s pos m :
  match_here r prev s pos = Some m ->
  exists s1 s2 g, s = s1 ++ s2 /\ matches r prev s1 s2 ∅ g
                  /\ m = MkMatch pos (pos + length s1) g.
Proof.
  unfold match_here. intros H.
  apply rmatch_sound in H as (s1 & s2 & g & -> & M & [= <-]).
  exists s1, s2, g. split; [done|]. split; [done|].
  rewrite length_app. f_equal. lia.
Qed.

Lemma match_here_None r prev s pos s1 s2 g :
  match_here r prev s pos = None -> s = s1 ++ s2 -> ~ matches r prev s1 s2 ∅ g.
Proof.
  unfold match_here. intros H -> M.
  eapply rmatch_complete in M; [rewrite H in M; by destruct M|]. eauto.
Qed.

Lemma match_here_pos r prev s pos pos' :
  match_here r prev s pos = None -> match_here r prev s pos' = None.
Proof.
  intros H. destruct (match_here r prev s pos') as [m|] eqn:H'; [|done].
  apply match_here_Some in H' as (s1 & s2 & g & -> & M & _).
  by eapply match_here_None in H.
Qed.

Lemma search_from_Some r prev s pos m :
  search_from r prev s pos = Some m ->
  exists pre s',
    s = pre ++ s'
    /\ match_here r (last_of prev pre) s' (pos + length pre) = Some m
    /\ forall pre1 s1, s = pre1 ++ s1 -> length pre1 < length pre ->
         match_here r (last_of prev pre1) s1 0 = None.
Proof.
  revert prev pos. induction s as [|c s IH]; intros prev pos; simpl.
  - destruct (match_here r prev [] pos) eqn:H; [|done]. intros [= ->].
    exists [], []. simpl. rewrite Nat.add_0_r. repeat split; auto. intros; lia.
  - destruct (match_here r prev (c :: s) pos) eqn:H.
    + intros [= ->]. exists [], (c :: s). simpl. rewrite Nat.add_0_r.
      repeat split; auto. intros; lia.
    + intros Hs. apply IH in Hs as (pre & s' & -> & Hm & Hleft).
      exists (c :: pre), s'. simpl.
      replace (pos + S (length pre)) with (S pos + length pre) by lia.
      repeat split; auto.
      intros [|d pre1] s1 E Hlt; simpl in *.
      * subst s1. by eapply match_here_pos.
      * injection E as -> E. apply Hleft; [done|lia].
Qed.

Lemma search_from_None r prev s pos pre s' :
  search_from r prev s pos = None -> s = pre ++ s' ->
  match_here r (last_of prev pre) s' 0 = None.
Proof.
  revert prev pos pre. induction s as [|c s IH]; intros prev pos pre; simpl.
  - destruct (match_here r prev [] pos) eqn:H; [done|]. intros _ E.
    symmetry in E. apply app_eq_nil in E as [-> ->]. by eapply match_here_pos.
  - destruct (match_here r prev (c :: s) pos) eqn:H; [done|]. intros Hs E.
    destruct pre as [|d pre]; simpl in *.
    + subst s'. by eapply match_here_pos.
    + injection E as -> E. by eapply IH.
Qed.

(** ** The status pattern *)

Lemma xorb_true_neq a b : xorb a b = true <-> a <> b.
Proof. destruct a, b; simpl; split; congruence. Qed.

Lemma lower_length s : length (lower s) = length s.
Proof. apply length_map. Qed.

Lemma matches_lit_ci label prev s rest g g' :
  matches (lit_ci label) prev s rest g g' <-> lower s = lower label /\ g' = g.
Proof.
  revert prev s g g'. induction label as [|c label IH]; intros prev s g g'; simpl.
  - split.
    + intros M. inversion M; subst. done.
    + intros [E ->]. destruct s; [constructor|done].
  - split.
    + intros M. inversion M as [| |? ? ? s1 s2 ? ? g1 ? M1 M2| | | | | | |]; subst.
      inversion M1 as [|? x ? ? ? Hx| | | | | | | |]; subst.
      apply IH in M2 as [E ->]. split; [|done]. simpl. rewrite E.
      unfold ch_eq_ci in Hx. apply ch_eq_true in Hx. by rewrite Hx.
    + intros [E ->]. destruct s as [|x s]; [done|]. injection E as Hx E.
      change (x :: s) with ([x] ++ s). econstructor.
      * constructor. unfold ch_eq_ci. apply ch_eq_true. done.
      * apply IH. done.
Qed.

Lemma matches_status label prev s rest g g' :
  matches (status_re label) prev s rest g g' <->
  lower s = lower label /\ g' = g
  /\ boundary prev (head (s ++ rest)) /\ boundary (last_of prev s) (head rest).
Proof.
  unfold status_re, boundary. split.
  - intros M. inversion M as [| |? ? ? s1 s2 ? ? g1 ? M1 M2| | | | | | |]; subst.
    inversion M1 as [| | | | | | | | |? ? ? Hb1]; subst.
    inversion M2 as [| |? ? ? s3 s4 ? ? g3 ? M3 M4| | | | | | |]; subst.
    inversion M4 as [| | | | | | | | |? ? ? Hb2]; subst.
    apply matches_lit_ci in M3 as [E ->]. simpl in *.
    rewrite app_nil_r in *. apply xorb_true_neq in Hb1, Hb2. done.
  - intros (E & -> & Hb1 & Hb2).
    assert (matches (Seq (lit_ci label) Wordb) prev s rest g g) as M2.
    { rewrite <- (app_nil_r s). econstructor.
      - apply matches_lit_ci. done.
      - constructor. by apply xorb_true_neq. }
    apply (M_Seq Wordb _ prev [] s rest g g g); [|exact M2].
    constructor. by apply xorb_true_neq.
Qed.

Lemma re_search_status_Some label text m :
  re_search (status_re label) text = Some m ->
  occurs_at label text (m_start m)
  /\ m_end m = m_start m + length label
  /\ forall j, j < m_start m -> ~ occurs_at label text j.
Proof.
  unfold re_search. intros H.
  apply search_from_Some in H as (pre & s' & -> & Hm & Hleft).
  apply match_here_Some in Hm as (mid & post & g & -> & M & ->). simpl.
  apply matches_status in M as (E & -> & Hb1 & Hb2).
  split; [|split].
  - exists pre, mid, post. rewrite last_of_app. done.
  - f_equal. rewrite <- (lower_length mid), E. apply lower_length.
  - intros j Hj (pre1 & mid1 & post1 & E1 & <- & El & Hc1 & Hc2).
    specialize (Hleft pre1 (mid1 ++ post1) E1 Hj).
    eapply match_here_None in Hleft; [|reflexivity].
    apply Hleft. apply matches_status. rewrite last_of_app in Hc2. eauto.
Qed.

Lemma re_search_status_None label text j :
  re_search (status_re label) text = None -> ~ occurs_at label text j.
Proof.
  unfold re_search. intros H (pre1 & mid1 & post1 & E1 & <- & El & Hc1 & Hc2).
  eapply search_from_None in H; [|exact E1].
  eapply match_here_None in H; [|reflexivity].
  apply H. apply matches_status. rewrite last_of_app in Hc2. eauto.
Qed.

Lemma split_on_first_status_found options text skipped status later i :
  options = skipped ++ status :: later ->
  (forall s j, s ∈ skipped -> ~ occurs_at s text j) ->
  occurs_at status text i ->
  (forall j, j < i -> ~ occurs_at status text j) ->
  split_on_first_status options text
  = (or_none (strip (take i text)), Some status,
     or_none (strip (drop (i + length status) text))).
Proof.
  intros -> Hskip Hocc Hleft.
  induction skipped as [|s skipped IH]; simpl.
  - destruct (re_search (status_re status) text) as [m|] eqn:Hs.
    + apply re_search_status_Some in Hs as (Hm & He & Hl).
      assert (m_start m = i) as <-.
      { destruct (Nat.lt_trichotomy (m_start m) i) as [Hlt|[->|Hlt]]; [|done|].
        - by apply Hleft in Hlt.
        - by apply Hl in Hlt. }
      by rewrite He.
    + by eapply re_search_status_None in Hs.
  - destruct (re_search (status_re s) text) as [m|] eqn:Hs.
    + apply re_search_status_Some in Hs as (Hm & _).
      exfalso. eapply Hskip; [|exact Hm]. left.
    + apply IH. intros s' j Hin. apply Hskip. by right.
Qed.

Lemma split_on_first_status_none options text :
  (forall s j, s ∈ options -> ~ occurs_at s text j) ->
  split_on_first_status options text = (Some (strip text), None, None).
Proof.
  induction options as [|s options IH]; intros Hnone; simpl; [done|].
  destruct (re_search (status_re s) text) as [m|] eqn:Hs.
  - apply re_search_status_Some in Hs as (Hm & _).
    exfalso. eapply Hnone; [|exact Hm]. left.
  - apply IH. intros s' j Hin. apply Hnone. by right.
Qed.



(** ** The report locator *)

Lemma lcmp_refl a : lcmp a a = Eq.
Proof. induction a as [|x a IH]; simpl; [done|]. by rewrite Nat.compare_refl. Qed.

Lemma lcmp_eq a b : lcmp a b = Eq -> a = b.
Proof.
  revert b. induction a as [|x a IH]; intros [|y b]; simpl; try done.
  destruct (Nat.compare_spec x y) as [->| |]; simpl; try done.
  intros E. f_equal. by apply IH.
Qed.

Lemma lcmp_antisym a b : lcmp b a = CompOpp (lcmp a b).
Proof.
  revert b. induction a as [|x a IH]; intros [|y b]; simpl; try done.
  rewrite (Nat.compare_antisym x y).
  destruct (x ?= y); simpl; auto.
Qed.

Lemma lcmp_trans a b c : lcmp a b <> Gt -> lcmp b c <> Gt -> lcmp a c <> Gt.
Proof.
  revert b c. induction a as [|x a IH]; intros [|y b] [|z c]; simpl; try done.
  destruct (Nat.compare_spec x y), (Nat.compare_spec y z),
    (Nat.compare_spec x z); simpl; try done; try lia.
  apply IH.
Qed.

Lemma str_compare_lcmp a b : str_compare a b = lcmp (map code a) (map code b).
Proof.
  revert b. induction a as [|x a IH]; intros [|y b]; simpl; try done.
  by rewrite IH.
Qed.

Lemma scored_compare_lcmp a b :
  scored_compare a b = lcmp (scored_key a) (scored_key b).
Proof.
  destruct a as [[d1 i1] l1], b as [[d2 i2] l2]. simpl.
  unfold datetime_compare. rewrite str_compare_lcmp.
  destruct (dt_year d1 ?= dt_year d2), (dt_month d1 ?= dt_month d2),
    (dt_day d1 ?= dt_day d2), (dt_hour d1 ?= dt_hour d2),
    (dt_minute d1 ?= dt_minute d2); reflexivity.
Qed.

Lemma datetime_compare_eq a b : datetime_compare a b = Eq -> a = b.
Proof.
  destruct a, b. unfold datetime_compare. simpl.
  repeat match goal with
         | |- context [?x ?= ?y] => destruct (Nat.compare_spec x y); simpl; try done
         end.
  intros _. congruence.
Qed.

Lemma insert_desc_elem x y l : y ∈ insert_desc x l <-> y = x \/ y ∈ l.
Proof.
  induction l as [|z l IH]; simpl.
  - rewrite list_elem_of_singleton, elem_of_nil. tauto.
  - destruct (scored_compare x z); rewrite !elem_of_cons; tauto.
Qed.

Lemma sort_desc_elem y l : y ∈ sort_desc l <-> y ∈ l.
Proof.
  induction l as [|x l IH]; simpl; [done|].
  rewrite insert_desc_elem, elem_of_cons, IH. done.
Qed.

(** The head of an insertion is the greater of the new element and the old
    head. *)
Lemma insert_desc_head x l m rest :
  (forall h t, l = h :: t -> forall y, y ∈ l -> scored_compare y h <> Gt) ->
  insert_desc x l = m :: rest ->
  forall y, y ∈ x :: l -> scored_compare y m <> Gt.
Proof.
  intros Hmax. destruct l as [|h t]; simpl.
  - intros [= <- <-] y Hy. apply list_elem_of_singleton in Hy as ->.
    rewrite scored_compare_lcmp, lcmp_refl. done.
  - specialize (Hmax h t eq_refl).
    destruct (scored_compare x h) eqn:Hc.
    + intros [= <- <-] y Hy. apply elem_of_cons in Hy as [->|Hy].
      * rewrite scored_compare_lcmp, lcmp_refl. done.
      * rewrite scored_compare_lcmp in *. apply lcmp_eq in Hc.
        rewrite Hc. rewrite <- scored_compare_lcmp. by apply Hmax.
    + intros [= <- <-] y Hy. apply elem_of_cons in Hy as [->|Hy].
      * congruence.
      * by apply Hmax.
    + intros [= <- <-] y Hy. apply elem_of_cons in Hy as [->|Hy].
      * rewrite scored_compare_lcmp, lcmp_refl. done.
      * specialize (Hmax y Hy). rewrite scored_compare_lcmp in *.
        eapply lcmp_trans; [exact Hmax|].
        rewrite (lcmp_antisym (scored_key x)), Hc. done.
Qed.

Lemma sort_desc_head l m rest :
  sort_desc l = m :: rest -> forall y, y ∈ l -> scored_compare y m <> Gt.
Proof.
  revert m rest. induction l as [|x l IH]; intros m rest; simpl; [done|].
  intros H y Hy.
  eapply (insert_desc_head x (sort_desc l)); [|exact H|].
  - intros h t E z Hz. apply (IH h t E). by apply sort_desc_elem.
  - apply elem_of_cons in Hy as [->|Hy]; [left|right; by apply sort_desc_elem].
Qed.

Section LocatorFacts.
Variable urlparse_path : str -> result str.

(** The timestamp of a link is there exactly when [urlparse] accepts the
    link, and the exception of [urlparse] is passed on. *)
Lemma link_timestamp_ok link p :
  urlparse_path link = Ok p -> exists t, link_timestamp urlparse_path link = Ok t.
Proof.
  intros Hp. unfold link_timestamp, extract_report_metadata_from_url.
  rewrite Hp. cbv beta iota zeta. destruct (opt_truthy _); eauto.
Qed.

Lemma link_timestamp_raise link e :
  urlparse_path link = Raise e -> link_timestamp urlparse_path link = Raise e.
Proof.
  intros Hp. unfold link_timestamp, extract_report_metadata_from_url.
  by rewrite Hp.
Qed.

Lemma score_links_ok k links :
  (forall l, l ∈ links -> exists p, urlparse_path l = Ok p) ->
  exists scored,
    score_links urlparse_path k links = Ok scored
    /\ forall d i l,
         (d, i, l) ∈ scored <->
         exists j, i = k + j /\ links !! j = Some l
                   /\ link_timestamp urlparse_path l = Ok d.
Proof.
  revert k. induction links as [|x links IH]; intros k Hall; cbn [score_links].
  - exists []. split; [done|]. intros d i l. rewrite elem_of_nil.
    split; [done|]. by intros (j & _ & ? & _).
  - destruct (Hall x) as [p Hp]; [left|].
    destruct (link_timestamp_ok x p Hp) as [t Ht]. rewrite Ht.
    destruct (IH (S k)) as (scored & -> & Hin).
    { intros l Hl. apply Hall. by right. }
    exists ((t, k, x) :: scored). split; [done|].
    intros d i l. rewrite elem_of_cons, Hin. split.
    + intros [[= -> -> ->]|(j & -> & Hj & Hd)].
      * exists 0. rewrite Nat.add_0_r. done.
      * exists (S j). split; [lia|done].
    + intros ([|j] & -> & Hj & Hd); cbn in Hj.
      * left. injection Hj as ->. rewrite Ht in Hd. injection Hd as ->.
        by rewrite Nat.add_0_r.
      * right. exists j. split; [lia|done].
Qed.

Lemma score_links_raise k pre bad rest e :
  (forall l, l ∈ pre -> exists p, urlparse_path l = Ok p) ->
  urlparse_path bad = Raise e ->
  score_links urlparse_path k (pre ++ bad :: rest) = Raise e.
Proof.
  revert k. induction pre as [|x pre IH]; intros k Hall Hbad;
    cbn [app score_links].
  - by rewrite (link_timestamp_raise bad e Hbad).
  - destruct (Hall x) as [p Hp]; [left|].
    destruct (link_timestamp_ok x p Hp) as [t ->].
    rewrite IH; [done| |done]. intros l Hl. apply Hall. by right.
Qed.

Lemma select_latest_nonempty link rest :
  (forall l, l ∈ link :: rest -> exists p, urlparse_path l = Ok p) ->
  exists scored d i url others,
    score_links urlparse_path 0 (link :: rest) = Ok scored
    /\ (forall d' i' l',
          (d', i', l') ∈ scored <->
          exists j, i' = 0 + j /\ (link :: rest) !! j = Some l'
                    /\ link_timestamp urlparse_path l' = Ok d')
    /\ sort_desc scored = (d, i, url) :: others
    /\ select_latest_report_link urlparse_path (link :: rest) = Ok url.
Proof.
  intros Hall. destruct (score_links_ok 0 (link :: rest) Hall) as (scored & Hs & Hin).
  unfold select_latest_report_link. rewrite Hs.
  destruct (sort_desc scored) as [|[[d i] url] others] eqn:E.
  - destruct (Hall link) as [p Hp]; [left|].
    destruct (link_timestamp_ok link p Hp) as [t Ht].
    assert ((t, 0, link) ∈ sort_desc scored) as Hin'.
    { apply sort_desc_elem, Hin. exists 0. done. }
    rewrite E in Hin'. by apply elem_of_nil in Hin'.
  - exists scored, d, i, url, others. done.
Qed.

(** C7, as amended: the empty link list makes [selectLatest] fail with its
    no-candidates error, the [ValueError] "No injury report links found";
    a non-empty list all of whose links [urlparse] accepts makes it return
    one of its links; and a list with a link that [urlparse] rejects makes
    it fail with the [ValueError] that [urlparse] raises for the first
    such link. *)
Theorem select_latest_failures :
  select_latest_report_link urlparse_path []
  = Raise (ValueError (txt "No injury report links found"))
  /\ (forall link rest,
        (forall l, l ∈ link :: rest -> exists p, urlparse_path l = Ok p) ->
        exists url,
          select_latest_report_link urlparse_path (link :: rest) = Ok url
          /\ url ∈ link :: rest)
  /\ (forall pre bad rest e,
        (forall l, l ∈ pre -> exists p, urlparse_path l = Ok p) ->
        urlparse_path bad = Raise e ->
        select_latest_report_link urlparse_path (pre ++ bad :: rest) = Raise e).
Proof.
  split; [reflexivity|]. split.
  - intros link rest Hall.
    destruct (select_latest_nonempty link rest Hall)
      as (scored & d & i & url & others & _ & Hin & E & ->).
    exists url. split; [done|].
    assert ((d, i, url) ∈ scored) as Hu.
    { apply sort_desc_elem. rewrite E. left. }
    apply Hin in Hu as (j & _ & Hj & _).
    by eapply list_elem_of_lookup_2.
  - intros pre bad rest e Hall Hbad. unfold select_latest_report_link.
    rewrite (score_links_raise 0 pre bad rest e Hall Hbad).
    by destruct pre.
Qed.

(** C1, as amended: for a non-empty list all of whose links [urlparse]
    accepts, the link returned is the LAST of the links that carry the
    greatest timestamp: every other link is strictly older, or has the same
    timestamp and stands no later in the list.  Among links with identical
    timestamps, also when none parses to a date, the one listed later
    wins. *)
Theorem select_latest_returns_last_of_newest (link : str) (rest : list str) :
  (forall l, l ∈ link :: rest -> exists p, urlparse_path l = Ok p) ->
  exists i url,
    select_latest_report_link urlparse_path (link :: rest) = Ok url
    /\ (link :: rest) !! i = Some url
    /\ forall j other, (link :: rest) !! j = Some other ->
         exists t t',
           link_timestamp urlparse_path other = Ok t
           /\ link_timestamp urlparse_path url = Ok t'
           /\ (datetime_compare t t' = Lt \/ (t = t' /\ j <= i)).
Proof.
  intros Hall.
  destruct (select_latest_nonempty link rest Hall)
    as (scored & d & i & url & others & _ & Hin & E & ->).
  assert ((d, i, url) ∈ scored) as Hu.
  { apply sort_desc_elem. rewrite E. left. }
  apply Hin in Hu as (i' & -> & Hi & Hd). cbn [Nat.add] in E.
  exists i', url. split; [done|]. split; [done|].
  intros j other Hj.
  destruct (Hall other) as [p Hp]; [by eapply list_elem_of_lookup_2|].
  destruct (link_timestamp_ok other p Hp) as [t Ht].
  exists t, d. split; [done|]. split; [done|].
  assert ((t, j, other) ∈ scored) as Ho.
  { apply Hin. exists j. done. }
  eapply sort_desc_head in Ho; [|exact E]. cbn in Ho.
  destruct (datetime_compare t d) eqn:Hc; cbn in Ho.
  - right. split; [by apply datetime_compare_eq|].
    destruct (Nat.compare_spec j i'); cbn in Ho; [lia|lia|done].
  - by left.
  - done.
Qed.
End LocatorFacts.

Lemma select_latest_returns_last_of_newest_witness :
  let a := txt "https://official.nba.com/wp/injury-report_2025-01-16.pdf" in
  let b := txt "https://official.nba.com/wp/injury-report_2025-01-15.pdf" in
  exists i url,
    select_latest_report_link example_urlparse [a; b] = Ok url
    /\ [a; b] !! i = Some url
    /\ forall j other, [a; b] !! j = Some other ->
         exists t t',
           link_timestamp example_urlparse other = Ok t
           /\ link_timestamp example_urlparse url = Ok t'
           /\ (datetime_compare t t' = Lt \/ (t = t' /\ j <= i)).
Proof.
  intros a b. apply (select_latest_returns_last_of_newest example_urlparse a [b]).
  intros l Hl. apply elem_of_cons in Hl as [->|Hl].
  - eexists. vm_compute. reflexivity.
  - apply list_elem_of_singleton in Hl as ->. eexists. vm_compute. reflexivity.
Defined.

(** C1 as stated fails: of two links with the same parseable date the
    second is returned, and so is the second of two links without any
    timestamp. *)
Lemma select_latest_tie_counterexample :
  let a := txt "https://official.nba.com/wp/a/injury-report_2025-01-15.pdf" in
  let b := txt "https://official.nba.com/wp/b/injury-report_2025-01-15.pdf" in
  let c := txt "https://official.nba.com/wp/injury-first.pdf" in
  let d := txt "https://official.nba.com/wp/injury-second.pdf" in
  link_timestamp example_urlparse a = link_timestamp example_urlparse b
  /\ select_latest_report_link example_urlparse [a; b] = Ok b
  /\ link_timestamp example_urlparse c = link_timestamp example_urlparse d
  /\ select_latest_report_link example_urlparse [c; d] = Ok d.
Proof. vm_compute. repeat split. Qed.

(** C7 as stated fails: a non-empty list does not always give a URL.  The
    network location of this link opens a bracket and never closes it, so
    [urlparse] raises [ValueError], outside the [try] of the loop, and the
    call fails. *)
Lemma select_latest_bad_url_counterexample :
  select_latest_report_link example_urlparse [txt "http://[x/injury-2025-01-15.pdf"]
  = Raise (ValueError (txt "Invalid IPv6 URL")).
Proof. vm_compute. reflexivity. Qed.

(** [urlparse] deletes a TAB inside a URL before it splits it. *)
Lemma example_urlparse_deletes_tab :
  example_urlparse (txt "https://a.b/c/in" ++ ["009"%char] ++ txt "jury_2025-01-15.pdf")
  = Ok (txt "/c/injury_2025-01-15.pdf").
Proof. vm_compute. reflexivity. Qed.

(** ** Trimming *)

Lemma last_of_snoc prev s c : last_of prev (s ++ [c]) = Some c.
Proof. by rewrite last_of_app. Qed.

Lemma last_of_rev_head prev s : last_of prev s = match head (rev s) with Some c => Some c | None => prev end.
Proof.
  induction s as [|c s IH] using rev_ind; [done|].
  rewrite last_of_snoc, rev_app_distr. done.
Qed.

Lemma lstrip_head s c : head (lstrip s) = Some c -> is_space c = false.
Proof.
  induction s as [|x s IH]; simpl; [done|].
  destruct (is_space x) eqn:E; [done|]. simpl. congruence.
Qed.

Lemma lstrip_suffix s : exists w, s = w ++ lstrip s /\ forallb is_space w = true.
Proof.
  induction s as [|x s (w & E & Hw)]; simpl.
  - by exists [].
  - destruct (is_space x) eqn:Hx.
    + exists (x :: w). simpl. rewrite Hx, <- E. done.
    + by exists [].
Qed.

Lemma lstrip_last s c :
  last_of None s = Some c -> is_space c = false -> last_of None (lstrip s) = Some c.
Proof.
  intros Hl Hc. destruct (lstrip_suffix s) as (w & E & Hw).
  destruct (lstrip s) as [|y t] eqn:El.
  - rewrite app_nil_r in E. subst w.
    exfalso. clear El. induction s as [|x s IH] using rev_ind; [done|].
    rewrite last_of_snoc in Hl. injection Hl as ->.
    rewrite forallb_app in Hw. simpl in Hw. rewrite Hc in Hw.
    by rewrite andb_false_r in Hw.
  - rewrite E, last_of_app in Hl. simpl in *. done.
Qed.

Lemma lstrip_nonempty s c :
  c ∈ s -> is_space c = false -> lstrip s <> [].
Proof.
  induction s as [|x s IH]; simpl; intros Hin Hc.
  - by apply elem_of_nil in Hin.
  - destruct (is_space x) eqn:Hx; [|done].
    apply elem_of_cons in Hin as [->|Hin]; [congruence|]. by apply IH.
Qed.

Lemma strip_last s c : last_of None (strip s) = Some c -> is_space c = false.
Proof.
  unfold strip, rstrip. rewrite last_of_rev_head, rev_involutive.
  destruct (head (lstrip (rev (lstrip s)))) eqn:E; [|done].
  intros [= ->]. by eapply lstrip_head.
Qed.

Lemma strip_head s c : head (strip s) = Some c -> is_space c = false.
Proof.
  unfold strip, rstrip. intros H.
  assert (last_of None (rev (strip s)) = Some c) as Hl.
  { rewrite last_of_rev_head, rev_involutive. unfold strip, rstrip. by rewrite H. }
  unfold strip, rstrip in Hl. rewrite rev_involutive in Hl.
  destruct (lstrip s) as [|y t] eqn:El; [done|].
  assert (last_of None (rev (y :: t)) = Some y) as Hy.
  { simpl. apply last_of_snoc. }
  assert (is_space y = false) as Hys.
  { eapply lstrip_head. by rewrite El. }
  pose proof (lstrip_last _ _ Hy Hys) as Hl'.
  rewrite Hl' in Hl. injection Hl as <-. done.
Qed.

(** A text whose last character is not blank does not trim to nothing. *)
Lemma strip_keeps_last s c :
  last_of None s = Some c -> is_space c = false -> strip s <> [].
Proof.
  intros Hl Hc. unfold strip, rstrip.
  pose proof (lstrip_last _ _ Hl Hc) as Hl'.
  destruct (lstrip s) as [|y t] eqn:El; [done|].
  intros E. apply (f_equal (@rev ascii)) in E. rewrite rev_involutive in E.
  simpl in E.
  rewrite last_of_rev_head in Hl'.
  destruct (head (rev (y :: t))) as [d|] eqn:Hh; [|done].
  injection Hl' as ->.
  eapply (lstrip_nonempty (rev (y :: t)) c); [|done|done].
  destruct (rev (y :: t)); [done|]. simpl in Hh. injection Hh as ->. left.
Qed.

Lemma or_none_Some s l : or_none s = Some l -> l = s /\ s <> [].
Proof. destruct s; simpl; [done|]. by intros [= <-]. Qed.

Lemma nonempty_last s : s <> [] -> exists c, last_of None s = Some c.
Proof.
  destruct s as [|x s] using rev_ind; [done|]. intros _.
  exists x. apply last_of_snoc.
Qed.

(** What the cleaner returns is not empty and does not end in a blank. *)
Lemma clean_injury_line_Some line l :
  clean_injury_line line = Some l ->
  exists c, last_of None l = Some c /\ is_space c = false.
Proof.
  unfold clean_injury_line. destruct line; [done|].
  destruct (re_match leading_page_re _); [done|].
  intros H. apply or_none_Some in H as [-> Hne].
  destruct (nonempty_last _ Hne) as [c Hc]. exists c. split; [done|].
  by eapply strip_last.
Qed.

(** ** The header patterns *)

Lemma matches_Seq_inv r1 r2 prev s rest g g' :
  matches (Seq r1 r2) prev s rest g g' ->
  exists s1 s2 g1,
    s = s1 ++ s2 /\ matches r1 prev s1 (s2 ++ rest) g g1
    /\ matches r2 (last_of prev s1) s2 rest g1 g'.
Proof. intros M. inversion M; subst. eauto 10. Qed.

Lemma matches_Plus_inv p prev s rest g g' :
  matches (Plus p) prev s rest g g' ->
  s <> [] /\ forallb p s = true /\ g' = g.
Proof.
  unfold Plus. intros M.
  apply matches_Seq_inv in M as (s1 & s2 & g1 & -> & M1 & M2).
  inversion M1; subst. inversion M2; subst. simpl.
  split; [done|]. split; [|done]. by apply andb_true_iff.
Qed.

(** The end of both header patterns: blanks, the last group, the end of
    the line. *)
Lemma matches_header_tail n prev s rest g g' :
  matches (seqs [Plus is_space; Grp n (Star not_newline); Eol]) prev s rest g g' ->
  exists w x,
    s = w ++ x /\ w <> [] /\ forallb is_space w = true
    /\ g' = <[n := x]> g /\ at_eol rest = true.
Proof.
  unfold seqs. simpl. intros M.
  apply matches_Seq_inv in M as (w & s2 & g1 & -> & M1 & M).
  apply matches_Plus_inv in M1 as (Hw & Hws & ->).
  apply matches_Seq_inv in M as (x & s3 & g2 & -> & M2 & M).
  apply matches_Seq_inv in M as (s4 & s5 & g3 & -> & M3 & M4).
  inversion M4; subst. inversion M3; subst. inversion M2; subst.
  match goal with H : matches (Star _) _ _ _ _ _ |- _ => inversion H; subst end.
  exists w, x. rewrite !app_nil_r. done.
Qed.

(** In a line that does not end in a blank, the text matched by the last
    group of a header pattern does not trim to nothing. *)
Lemma header_tail_rest n prev s rest g g' c :
  matches (seqs [Plus is_space; Grp n (Star not_newline); Eol]) prev s rest g g' ->
  forall pre, last_of None (pre ++ s ++ rest) = Some c -> is_space c = false ->
  exists x, g' !! n = Some x /\ strip x <> [].
Proof.
  intros M pre Hl Hc.
  apply matches_header_tail in M as (w & x & -> & Hw & Hws & -> & He).
  exists x. split; [apply lookup_insert_eq|].
  assert (rest = []) as ->.
  { destruct rest as [|d [|? ?]]; [done| |done]. simpl in He.
    rewrite !app_assoc, last_of_snoc in Hl. injection Hl as ->.
    apply Nat.eqb_eq in He. unfold is_space in Hc. rewrite He in Hc. done. }
  rewrite app_nil_r, !last_of_app in Hl.
  destruct x as [|y x].
  - exfalso. simpl in Hl.
    destruct w as [|v w] using rev_ind; [done|].
    rewrite last_of_snoc in Hl. injection Hl as ->.
    rewrite forallb_app in Hws. simpl in Hws. rewrite Hc in Hws.
    by rewrite andb_false_r in Hws.
  - eapply strip_keeps_last; [|exact Hc]. simpl in *. exact Hl.
Qed.

Lemma date_header_rest line m c :
  re_match date_header_re line = Some m ->
  last_of None line = Some c -> is_space c = false ->
  strip (grp m 5) <> [].
Proof.
  unfold re_match. intros Hm Hl Hc.
  apply match_here_Some in Hm as (s & rest & g & -> & M & ->).
  unfold date_header_re in M. cbv zeta in M.
  change (seqs (?a :: ?l)) with (Seq a (seqs l)) in M.
  do 8 (apply matches_Seq_inv in M as (? & ? & ? & -> & _ & M);
        change (seqs (?a :: ?l)) with (Seq a (seqs l)) in M).
  rewrite <- !app_assoc in Hl.
  rewrite !app_assoc in Hl. rewrite <- (app_assoc _ _ rest) in Hl.
  eapply header_tail_rest in M as (t & Ht & Hs); [|exact Hl|exact Hc].
  unfold grp, group. simpl. by rewrite Ht.
Qed.

Lemma time_header_rest line m c :
  re_match time_header_re line = Some m ->
  last_of None line = Some c -> is_space c = false ->
  strip (grp m 4) <> [].
Proof.
  unfold re_match. intros Hm Hl Hc.
  apply match_here_Some in Hm as (s & rest & g & -> & M & ->).
  unfold time_header_re in M. cbv zeta in M.
  change (seqs (?a :: ?l)) with (Seq a (seqs l)) in M.
  do 6 (apply matches_Seq_inv in M as (? & ? & ? & -> & _ & M);
        change (seqs (?a :: ?l)) with (Seq a (seqs l)) in M).
  rewrite <- !app_assoc in Hl.
  rewrite !app_assoc in Hl. rewrite <- (app_assoc _ _ rest) in Hl.
  eapply header_tail_rest in M as (t & Ht & Hs); [|exact Hl|exact Hc].
  unfold grp, group. simpl. by rewrite Ht.
Qed.

(** ** Dicts *)

Ltac key_neq := let H := fresh in intros H; vm_compute in H; discriminate H.

Ltac map_get :=
  unfold dget;
  repeat (rewrite lookup_insert_eq || (rewrite lookup_insert_ne by key_neq));
  rewrite ?lookup_empty; simpl.

Lemma dget_insert_eq (d : gmap str value) (k : str) v : dget (<[k := v]> d) k = v.
Proof. unfold dget. by rewrite lookup_insert_eq. Qed.

Lemma dget_insert_ne (d : gmap str value) (k k' : str) v :
  k <> k' -> dget (<[k := v]> d) k' = dget d k'.
Proof. intros H. unfold dget. by rewrite lookup_insert_ne. Qed.

Lemma new_entry_player st p s r :
  dget (new_entry st (p, s, r)) (txt "playerName") = opt_value p.
Proof. unfold new_entry. by map_get. Qed.

Lemma new_entry_status st p s r :
  dget (new_entry st (p, s, r)) (txt "status") = opt_value s.
Proof. unfold new_entry. by map_get. Qed.

Lemma new_entry_reason st p s r :
  dget (new_entry st (p, s, r)) (txt "reason") = opt_value r.
Proof. unfold new_entry. by map_get. Qed.

Lemma new_entry_team st psr :
  dget (new_entry st psr) (txt "team") = current_team st.
Proof. destruct psr as [[p s] r]. unfold new_entry. by map_get. Qed.

Lemma apply_context_go_other (keys : list str) (e c : gmap str value) (k : str) :
  k ∉ keys ->
  dget (foldl (fun entry key =>
                 if negb (truthy (dget entry key)) && truthy (dget c key)
                 then <[key := dget c key]> entry else entry) e keys) k
  = dget e k.
Proof.
  revert e. induction keys as [|key keys IH]; intros e Hk; simpl; [done|].
  apply not_elem_of_cons in Hk as [Hne Hk]. rewrite IH by done.
  destruct (_ && _); [|done]. by apply dget_insert_ne.
Qed.

Lemma apply_context_go_truthy (keys : list str) (e c : gmap str value) (k : str) :
  truthy (dget e k) = true ->
  dget (foldl (fun entry key =>
                 if negb (truthy (dget entry key)) && truthy (dget c key)
                 then <[key := dget c key]> entry else entry) e keys) k
  = dget e k.
Proof.
  revert e. induction keys as [|key keys IH]; intros e Hk; simpl; [done|].
  destruct (decide (key = k)) as [->|Hne].
  - rewrite Hk. simpl. by apply IH.
  - destruct (_ && _); [|by apply IH].
    rewrite IH; rewrite dget_insert_ne; done.
Qed.

(** Applying the context leaves every key other than the four context
    keys as it is. *)
Lemma apply_injury_context_other e c k :
  k ∉ context_keys -> dget (apply_injury_context e c) k = dget e k.
Proof. apply apply_context_go_other. Qed.

(** A field the entry already holds wins over the context. *)
Lemma apply_injury_context_truthy e c k :
  truthy (dget e k) = true -> dget (apply_injury_context e c) k = dget e k.
Proof. apply apply_context_go_truthy. Qed.

Ltac not_context_key :=
  let H := fresh in
  intros H; unfold context_keys in H; simpl in H;
  repeat (apply elem_of_cons in H as [H|H]; [vm_compute in H; discriminate H|]);
  by apply elem_of_nil in H.

Lemma apply_injury_context_player e c :
  dget (apply_injury_context e c) (txt "playerName") = dget e (txt "playerName").
Proof. apply apply_injury_context_other. not_context_key. Qed.

Lemma apply_injury_context_status e c :
  dget (apply_injury_context e c) (txt "status") = dget e (txt "status").
Proof. apply apply_injury_context_other. not_context_key. Qed.

Lemma apply_injury_context_reason e c :
  dget (apply_injury_context e c) (txt "reason") = dget e (txt "reason").
Proof. apply apply_injury_context_other. not_context_key. Qed.

(** ** The splitter, by cases *)

Lemma split_on_first_status_cases options text :
  (exists status p r,
      status ∈ options /\ split_on_first_status options text = (p, Some status, r))
  \/ split_on_first_status options text = (Some (strip text), None, None).
Proof.
  induction options as [|s options IH]; simpl; [by right|].
  destruct (re_search (status_re s) text).
  - left. eexists _, _, _. split; [left|reflexivity].
  - destruct IH as [(status & p & r & Hin & E)|E]; [|by right].
    left. exists status, p, r. split; [by right|done].
Qed.

Lemma status_options_nonempty label :
  label ∈ STATUS_OPTIONS -> nonempty label = true.
Proof.
  unfold STATUS_OPTIONS. intros H.
  repeat (apply elem_of_cons in H as [->|H]; [reflexivity|]).
  by apply elem_of_nil in H.
Qed.

(** A text that does not trim to nothing always splits into something. *)
Lemma parse_player_status_reason_truthy rest :
  strip rest <> [] -> psr_truthy (parse_player_status_reason rest) = true.
Proof.
  intros Hne. unfold parse_player_status_reason.
  destruct rest as [|x rest]; [done|].
  destruct (split_on_first_status_cases STATUS_OPTIONS (x :: rest))
    as [(status & p & r & Hin & ->)| ->]; simpl.
  - rewrite (status_options_nonempty _ Hin). by rewrite orb_true_r.
  - destruct (strip (x :: rest)); done.
Qed.

Lemma parse_player_status_reason_status rest p s r :
  parse_player_status_reason rest = (p, s, r) ->
  s = None \/ exists label, label ∈ STATUS_OPTIONS /\ s = Some label.
Proof.
  unfold parse_player_status_reason. destruct rest as [|x rest].
  - intros [= <- <- <-]. by left.
  - destruct (split_on_first_status_cases STATUS_OPTIONS (x :: rest))
      as [(status & p' & r' & Hin & ->)| ->]; intros [= <- <- <-]; eauto.
Qed.

(** ** The line-oriented parser, step by step *)

Lemma same_store_refl st : same_store st st.
Proof. by unfold same_store. Qed.

Lemma same_store_set_header st d t m tm : same_store st (set_header st d t m tm).
Proof. by unfold same_store. Qed.

Lemma data_row_cases st line :
  same_store st (data_row st line)
  \/ exists st' rest,
       same_store st st'
       /\ psr_truthy (parse_player_status_reason rest) = true
       /\ data_row st line = emit st' (new_entry st' (parse_player_status_reason rest)).
Proof.
  unfold data_row. destruct (split line) as [|token0 tokens].
  { left. apply same_store_refl. }
  destruct (negb (contains_char "," token0)).
  - destruct (parse_player_status_reason (strip (join (txt " ") tokens)))
      as [[p s] r] eqn:E.
    destruct (opt_truthy p || opt_truthy s || opt_truthy r) eqn:Ht.
    + right. eexists _, _. split; [apply same_store_set_header|].
      rewrite E. split; [exact Ht|reflexivity].
    + left. apply same_store_set_header.
  - destruct (parse_player_status_reason line) as [[p s] r] eqn:E.
    destruct (opt_truthy p || opt_truthy s || opt_truthy r) eqn:Ht.
    + right. exists st, line. split; [apply same_store_refl|].
      rewrite E. split; [exact Ht|reflexivity].
    + left. apply same_store_refl.
Qed.

Lemma strip_strip_nonempty s : strip s <> [] -> strip (strip s) <> [].
Proof.
  intros Hne. destruct (nonempty_last _ Hne) as [c Hc].
  eapply strip_keeps_last; [exact Hc|]. by eapply strip_last.
Qed.

(** What one line can do: leave the entries alone, extend the reason of
    the last entry, or emit one entry whose split has some content. *)
Lemma line_step_cases st raw_line :
  same_store st (line_step st raw_line)
  \/ (exists line, line <> [] /\ line_step st raw_line = continuation st line)
  \/ exists st' rest,
       same_store st st'
       /\ psr_truthy (parse_player_status_reason rest) = true
       /\ line_step st raw_line
          = emit st' (new_entry st' (parse_player_status_reason rest)).
Proof.
  unfold line_step.
  destruct (negb (nonempty (strip raw_line))); [left; apply same_store_refl|].
  destruct (startswith (txt "injury report") _); [left; apply same_store_refl|].
  destruct (startswith (txt "gamedate") _); [left; apply same_store_refl|].
  destruct (clean_injury_line (strip raw_line)) as [line|] eqn:Hc;
    [|left; apply same_store_refl].
  destruct (clean_injury_line_Some _ _ Hc) as (c & Hl & Hsp).
  destruct (re_match date_header_re line) as [m|] eqn:Hd.
  { right. right. eexists _, _. split; [apply same_store_set_header|].
    split; [|reflexivity].
    apply parse_player_status_reason_truthy, strip_strip_nonempty.
    by eapply date_header_rest. }
  destruct (re_match time_header_re line) as [m|] eqn:Ht.
  { right. right. eexists _, _. split; [apply same_store_set_header|].
    split; [|reflexivity].
    apply parse_player_status_reason_truthy, strip_strip_nonempty.
    by eapply time_header_rest. }
  destruct (negb (contains_char "," line) && negb (has_status line)).
  - right. left. exists line. split; [|done]. by destruct line.
  - destruct (data_row_cases st line) as [H|H]; [by left|by right; right].
Qed.

(** *** An invariant of the line loop

    For a property [P] of entries that an added continuation line keeps
    and that every emitted entry has, all entries of the page so far and
    all tracked older entries ([T]) have [P] on the current heap. *)
Section LineInvariant.
Variable P : gmap str value -> Prop.
Variable T : nat -> Prop.
Hypothesis P_continuation :
  forall e line, line <> [] -> P e ->
    P (<[txt "reason" := VStr (extended_reason e line)]> e).
Hypothesis P_emit :
  forall st rest ctx,
    psr_truthy (parse_player_status_reason rest) = true ->
    P (apply_injury_context (new_entry st (parse_player_status_reason rest)) ctx).

Definition line_inv (st : pstate) : Prop :=
  forall r, r ∈ entries st \/ T r -> exists e, heap st !! r = Some e /\ P e.

Lemma continuation_inv st line :
  line <> [] -> line_inv st -> line_inv (continuation st line).
Proof.
  intros Hne Hinv. unfold continuation.
  destruct (last_entry st) as [| | |r0]; try done.
  destruct (heap st !! r0) as [e0|] eqn:H0; [|done].
  intros r Hr. simpl in *. destruct (Hinv r Hr) as (e & He & HP).
  destruct (decide (r = r0)) as [->|Hne'].
  - rewrite list_lookup_insert_eq by (by eapply lookup_lt_Some).
    eexists. split; [done|].
    assert (e = e0) as -> by congruence. by apply P_continuation.
  - rewrite list_lookup_insert_ne by done. eauto.
Qed.

Lemma emit_inv st st' rest :
  same_store st st' ->
  psr_truthy (parse_player_status_reason rest) = true ->
  line_inv st ->
  line_inv (emit st' (new_entry st' (parse_player_status_reason rest))).
Proof.
  intros (He & Hc & Hh & Hl) Ht Hinv r Hr. simpl in *. rewrite He, Hh in *.
  destruct Hr as [Hr|Hr].
  - apply elem_of_app in Hr as [Hr|Hr].
    + destruct (Hinv r (or_introl Hr)) as (e & Hlook & HP).
      exists e. split; [|done]. by apply lookup_app_l_Some.
    + apply list_elem_of_singleton in Hr as ->.
      eexists. split; [|by apply P_emit].
      rewrite lookup_app_r by lia. by rewrite Nat.sub_diag.
  - destruct (Hinv r (or_intror Hr)) as (e & Hlook & HP).
    exists e. split; [|done]. by apply lookup_app_l_Some.
Qed.

Lemma line_step_inv st raw_line : line_inv st -> line_inv (line_step st raw_line).
Proof.
  intros Hinv.
  destruct (line_step_cases st raw_line)
    as [(He & Hc & Hh & Hl)|[(line & Hne & ->)|(st' & rest & Hs & Ht & ->)]].
  - intros r Hr. rewrite He in Hr. rewrite Hh. by apply Hinv.
  - by apply continuation_inv.
  - by apply (emit_inv st).
Qed.

Lemma foldl_line_step_inv lines st :
  line_inv st -> line_inv (foldl line_step st lines).
Proof.
  revert st. induction lines as [|l lines IH]; intros st Hinv; simpl; [done|].
  apply IH. by apply line_step_inv.
Qed.

Lemma parse_injury_report_text_inv text ctx h ents ctx' h' :
  parse_injury_report_text text ctx h = (ents, ctx', h') ->
  (forall r, T r -> exists e, h !! r = Some e /\ P e) ->
  forall r, r ∈ ents \/ T r -> exists e, h' !! r = Some e /\ P e.
Proof.
  unfold parse_injury_report_text. intros [= <- <- <-] HT.
  apply foldl_line_step_inv. intros r [Hr|Hr]; simpl in *.
  - by apply elem_of_nil in Hr.
  - by apply HT.
Qed.
End LineInvariant.

Lemma has_content_continuation e line :
  line <> [] -> has_content e ->
  has_content (<[txt "reason" := VStr (extended_reason e line)]> e).
Proof.
  intros Hne _. unfold has_content, has_content_b. rewrite dget_insert_eq.
  unfold extended_reason. simpl.
  destruct (str_or_empty _) as [|x t]; simpl.
  - destruct line; [done|]. by rewrite orb_true_r.
  - by rewrite orb_true_r.
Qed.

Lemma has_content_emit st rest ctx :
  psr_truthy (parse_player_status_reason rest) = true ->
  has_content (apply_injury_context (new_entry st (parse_player_status_reason rest)) ctx).
Proof.
  destruct (parse_player_status_reason rest) as [[p s] r].
  unfold has_content, has_content_b.
  rewrite apply_injury_context_player, apply_injury_context_status,
    apply_injury_context_reason, new_entry_player, new_entry_status,
    new_entry_reason.
  by destruct p, s, r.
Qed.

Lemma status_in_vocabulary_continuation e line :
  line <> [] -> status_in_vocabulary e ->
  status_in_vocabulary (<[txt "reason" := VStr (extended_reason e line)]> e).
Proof.
  intros _. unfold status_in_vocabulary.
  rewrite dget_insert_ne by key_neq. done.
Qed.

Lemma status_in_vocabulary_emit st rest ctx :
  psr_truthy (parse_player_status_reason rest) = true ->
  status_in_vocabulary
    (apply_injury_context (new_entry st (parse_player_status_reason rest)) ctx).
Proof.
  intros _. destruct (parse_player_status_reason rest) as [[p s] r] eqn:E.
  unfold status_in_vocabulary.
  rewrite apply_injury_context_status, new_entry_status.
  apply parse_player_status_reason_status in E as [->|(label & Hin & ->)].
  - by left.
  - right. by exists label.
Qed.

(** ** Continuation lines and data rows *)

Lemma line_step_third_branch st raw_line line :
  nonempty (strip raw_line) = true ->
  startswith (txt "injury report") (lower (strip raw_line)) = false ->
  startswith (txt "gamedate") (lower (remove_char " " (strip raw_line))) = false ->
  clean_injury_line (strip raw_line) = Some line ->
  re_match date_header_re line = None ->
  re_match time_header_re line = None ->
  line_step st raw_line
  = if negb (contains_char "," line) && negb (has_status line)
    then continuation st line else data_row st line.
Proof.
  intros H1 H2 H3 H4 H5 H6. unfold line_step.
  rewrite H1, H2, H3, H4, H5, H6. reflexivity.
Qed.

(** C6, as amended: a line that is not skipped as a title or column
    header, is cleaned to [line], matches neither header pattern and has
    no comma and no status label creates no entry and changes neither the
    entry list, the context, the header variables nor the last-entry
    reference.  When there is a last entry, its reason becomes the old
    reason, one space if the old reason is not empty, and the line; every
    other heap cell and every other field stays.  When there is none, the
    line is discarded. *)
Theorem continuation_line_extends_last_reason (st : pstate) (raw_line line : str) :
  nonempty (strip raw_line) = true ->
  startswith (txt "injury report") (lower (strip raw_line)) = false ->
  startswith (txt "gamedate") (lower (remove_char " " (strip raw_line))) = false ->
  clean_injury_line (strip raw_line) = Some line ->
  re_match date_header_re line = None ->
  re_match time_header_re line = None ->
  contains_char "," line = false ->
  has_status line = false ->
  let st' := line_step st raw_line in
  entries st' = entries st /\ context st' = context st
  /\ current_date st' = current_date st /\ current_time st' = current_time st
  /\ current_matchup st' = current_matchup st
  /\ current_team st' = current_team st /\ last_entry st' = last_entry st
  /\ (forall r e, last_entry st = VRef r -> heap st !! r = Some e ->
        heap st' = <[r := <[txt "reason" := VStr (extended_reason e line)]> e]> (heap st)
        /\ extended_reason e line
           = match str_or_empty (dget e (txt "reason")) with
             | [] => line
             | old => old ++ txt " " ++ line
             end)
  /\ (last_entry st = VNone -> st' = st).
Proof.
  intros H1 H2 H3 H4 H5 H6 H7 H8 st'. subst st'.
  rewrite (line_step_third_branch st raw_line line) by done.
  rewrite H7, H8. simpl. unfold continuation.
  destruct (last_entry st) as [| | |r] eqn:El;
    try (do 7 (split; [first [reflexivity|assumption]|]);
         split; [intros; discriminate|intros; reflexivity]).
  destruct (heap st !! r) as [e|] eqn:Eh.
  - do 7 (split; [first [reflexivity|assumption]|]). split; [|intros; discriminate].
    intros r' e' [= <-] He'. rewrite Eh in He'. injection He' as <-.
    split; [reflexivity|].
    unfold extended_reason. destruct (str_or_empty _); reflexivity.
  - do 7 (split; [first [reflexivity|assumption]|]). split; [|intros; discriminate].
    intros r' e' [= <-] He'. rewrite Eh in He'. discriminate.
Qed.

Lemma continuation_line_extends_last_reason_witness :
  let e0 : gmap str value := <[txt "reason" := VStr (txt "Knee")]> ∅ in
  let st := MkState [0] ∅ VNone VNone VNone VNone (VRef 0) [e0] in
  let raw_line := txt "  soreness Page 2 of 3" in
  let line := txt "soreness" in
  clean_injury_line (strip raw_line) = Some line
  /\ heap (line_step st raw_line)
     = <[0 := <[txt "reason" := VStr (extended_reason e0 line)]> e0]> [e0]
  /\ extended_reason e0 line = txt "Knee soreness".
Proof.
  intros e0 st raw_line line.
  assert (clean_injury_line (strip raw_line) = Some line) as Hc
    by (vm_compute; reflexivity).
  split; [exact Hc|].
  destruct (continuation_line_extends_last_reason st raw_line line)
    as (_ & _ & _ & _ & _ & _ & _ & Hlast & _);
    try (vm_compute; reflexivity).
  destruct (Hlast 0 e0 eq_refl eq_refl) as [Hh He].
  split; [exact Hh|]. vm_compute. reflexivity.
Defined.

(** C6 as stated fails twice: a continuation line is added without a
    space when the last entry has no reason yet, and a line without comma
    and status label that matches the full-header pattern starts a new
    entry. *)
Lemma continuation_claim_counterexample :
  let nl := ["010"%char] in
  let first := txt "LAL James, LeBron Out" in
  let header := txt "01/15/2025 7:00(ET) LAL@BOS LAL Davis Anthony" in
  map (fun e => dget e (txt "reason"))
      (extract_injury_report_entries
         [MkPage (Some (first ++ nl ++ txt "Left ankle")) []])
  = [VStr (txt "Left ankle")]
  /\ clean_injury_line header = Some header
  /\ contains_char "," header = false
  /\ has_status header = false
  /\ map (fun e => dget e (txt "playerName"))
         (extract_injury_report_entries [MkPage (Some (first ++ nl ++ header)) []])
     = [VStr (txt "James, LeBron"); VStr (txt "Davis Anthony")].
Proof. vm_compute. repeat split. Qed.

Lemma split_go_nonempty cur s t : t ∈ split_go cur s -> t <> [].
Proof.
  revert cur. induction s as [|c s IH]; intros cur; simpl.
  - destruct cur as [|x cur]; [by intros H%elem_of_nil|].
    intros H%list_elem_of_singleton. subst t. simpl.
    by destruct (rev cur).
  - destruct (is_space c); [|apply IH].
    destruct cur as [|x cur]; [apply IH|].
    intros [->|H]%elem_of_cons; [|by eapply IH].
    simpl. by destruct (rev cur).
Qed.

Lemma split_first_nonempty line token0 tokens :
  split line = token0 :: tokens -> nonempty token0 = true.
Proof.
  intros E. assert (token0 <> []) as H.
  { apply (split_go_nonempty [] line). fold (split line). rewrite E. left. }
  by destruct token0.
Qed.




(** ** The table-oriented parser *)

Lemma map_headers_go_labels idx headers mapping normalized_headers :
  (map_headers_go idx headers mapping normalized_headers).2
  = normalized_headers ++ map normalize_header headers.
Proof.
  revert idx mapping normalized_headers.
  induction headers as [|hd headers IH]; intros idx mapping nh.
  - cbn [map_headers_go map snd]. by rewrite app_nil_r.
  - cbn [map_headers_go map]. rewrite IH, <- app_assoc. reflexivity.
Qed.

Lemma map_table_headers_labels headers :
  (map_table_headers headers).2 = map normalize_header headers.
Proof. apply map_headers_go_labels. Qed.

Lemma build_rows_elem mapping nh rows e :
  e ∈ build_rows mapping nh rows ->
  exists row, row ∈ rows /\ keeps_row row = true
              /\ e = row_entry mapping nh (map clean_cell row).
Proof.
  induction rows as [|row rows IH]; simpl; intros Hin.
  - by apply elem_of_nil in Hin.
  - destruct (keeps_row row) eqn:Hk.
    + apply elem_of_cons in Hin as [->|Hin].
      * exists row. split; [left|done].
      * destruct (IH Hin) as (row' & Hr & Hk' & ->).
        exists row'. split; [by right|done].
    + destruct (IH Hin) as (row' & Hr & Hk' & ->).
      exists row'. split; [by right|done].
Qed.

Lemma build_entries_from_table_elem table e :
  e ∈ build_entries_from_table table ->
  exists headers rows row,
    table = headers :: rows /\ row ∈ rows /\ keeps_row row = true
    /\ e = row_entry (map_table_headers headers).1
             (map normalize_header headers) (map clean_cell row).
Proof.
  unfold build_entries_from_table. destruct table as [|headers rows].
  { intros Hin. by apply elem_of_nil in Hin. }
  destruct rows as [|row0 rows].
  { intros Hin. by apply elem_of_nil in Hin. }
  pose proof (map_table_headers_labels headers) as Hl.
  destruct (map_table_headers headers) as [mapping nh] eqn:Em. simpl in Hl. subst nh.
  cbv beta iota.
  destruct (bool_decide (mapping = ∅)).
  { intros Hin. by apply elem_of_nil in Hin. }
  intros Hin. apply build_rows_elem in Hin as (row & Hr & Hk & ->).
  exists headers, (row0 :: rows), row. rewrite Em. done.
Qed.

(** Columns whose label differs from [k] leave [raw !! k] alone. *)
Lemma fill_row_raw_other mapping nh idx values entry raw (k : str) :
  (forall j v, values !! j = Some v -> raw_label nh (idx + j) <> k) ->
  (fill_row mapping nh idx values entry raw).2 !! k = raw !! k.
Proof.
  revert idx entry raw. induction values as [|v values IH];
    intros idx entry raw Hne; simpl; [done|].
  rewrite IH.
  - apply lookup_insert_ne. specialize (Hne 0 v eq_refl).
    by rewrite Nat.add_0_r in Hne.
  - intros j v' Hj. specialize (Hne (S j) v' Hj).
    by rewrite <- Nat.add_succ_comm in Hne.
Qed.

(** The value of a column is found in [raw] under the column's label
    unless a later column has the same label. *)
Lemma fill_row_raw mapping nh idx values entry raw i v :
  values !! i = Some v ->
  (forall j, i < j < length values ->
     raw_label nh (idx + j) <> raw_label nh (idx + i)) ->
  (fill_row mapping nh idx values entry raw).2 !! raw_label nh (idx + i) = Some v.
Proof.
  revert idx entry raw i. induction values as [|x values IH];
    intros idx entry raw i Hi Hlater; [done|].
  destruct i as [|i]; simpl in *.
  - injection Hi as ->. rewrite fill_row_raw_other.
    + rewrite Nat.add_0_r. apply lookup_insert_eq.
    + intros j v' Hj. rewrite Nat.add_succ_comm.
      apply Hlater. apply lookup_lt_Some in Hj. lia.
  - rewrite <- Nat.add_succ_comm. apply IH; [done|].
    intros j Hj. rewrite !Nat.add_succ_comm. apply Hlater. lia.
Qed.

Lemma fill_row_entry_other mapping nh idx values entry raw (k : str) :
  (forall j v, values !! j = Some v -> mapping !! (idx + j) <> Some k) ->
  (fill_row mapping nh idx values entry raw).1 !! k = entry !! k.
Proof.
  revert idx entry raw. induction values as [|v values IH];
    intros idx entry raw Hne; simpl; [done|].
  rewrite IH.
  - specialize (Hne 0 v eq_refl). rewrite Nat.add_0_r in Hne.
    destruct (mapping !! idx) as [c|]; [|done].
    apply lookup_insert_ne. congruence.
  - intros j v' Hj. specialize (Hne (S j) v' Hj).
    by rewrite <- Nat.add_succ_comm in Hne.
Qed.

(** A canonical field holds the value of the last column mapped to it. *)
Lemma fill_row_entry mapping nh idx values entry raw i v (k : str) :
  values !! i = Some v ->
  mapping !! (idx + i) = Some k ->
  (forall j, i < j < length values -> mapping !! (idx + j) <> Some k) ->
  (fill_row mapping nh idx values entry raw).1 !! k = Some (VStr v).
Proof.
  revert idx entry raw i. induction values as [|x values IH];
    intros idx entry raw i Hi Hmap Hlater; [done|].
  destruct i as [|i]; simpl in *.
  - injection Hi as ->. rewrite fill_row_entry_other.
    + rewrite Nat.add_0_r in Hmap. rewrite Hmap. apply lookup_insert_eq.
    + intros j v' Hj. rewrite Nat.add_succ_comm.
      apply Hlater. apply lookup_lt_Some in Hj. lia.
  - rewrite <- Nat.add_succ_comm in Hmap. apply (IH (S idx) _ _ i); [done|done|].
    intros j Hj. rewrite Nat.add_succ_comm. apply Hlater. lia.
Qed.

Lemma row_entry_raw mapping nh values :
  row_entry mapping nh values !! txt "raw"
  = Some (VDict (fill_row mapping nh 0 values ∅ ∅).2).
Proof.
  unfold row_entry. destruct (fill_row mapping nh 0 values ∅ ∅).
  apply lookup_insert_eq.
Qed.

Lemma row_entry_field mapping nh values (k : str) :
  k <> txt "raw" ->
  row_entry mapping nh values !! k = (fill_row mapping nh 0 values ∅ ∅).1 !! k.
Proof.
  intros Hne. unfold row_entry. destruct (fill_row mapping nh 0 values ∅ ∅).
  by apply lookup_insert_ne.
Qed.

(** *** Which columns are mapped, and which rows are kept *)

Lemma alias_map_canonical (k c : str) :
  alias_map !! k = Some c -> c ∈ canonical_fields /\ nonempty c = true.
Proof.
  unfold alias_map. intros H. apply elem_of_list_to_map_2 in H.
  cbn [map] in H.
  repeat (apply elem_of_cons in H as [H|H];
          [injection H as -> ->; split; [|reflexivity];
           unfold canonical_fields; cbn [map];
           repeat (first [apply list_elem_of_here | apply list_elem_of_further])|]).
  by apply elem_of_nil in H.
Qed.

Lemma map_headers_go_mapping idx headers mapping normalized_headers (i : nat) :
  (map_headers_go idx headers mapping normalized_headers).1 !! i
  = match (if idx <=? i then headers !! (i - idx) ≫= header_field else None) with
    | Some c => Some c
    | None => mapping !! i
    end.
Proof.
  revert idx mapping normalized_headers.
  induction headers as [|hd headers IH]; intros idx mapping nh.
  - cbn [map_headers_go fst]. rewrite lookup_nil. cbn. by destruct (idx <=? i).
  - cbn [map_headers_go]. rewrite IH.
    destruct (Nat.leb_spec (S idx) i) as [Hlt|Hge].
    + destruct (Nat.leb_spec idx i) as [_|]; [|lia].
      replace (i - idx) with (S (i - S idx)) by lia. cbn [lookup list_lookup].
      destruct (headers !! (i - S idx) ≫= header_field) as [c|]; [done|].
      destruct (alias_map !! normalize_header hd) as [c|]; [|done].
      destruct (nonempty c); [|done]. apply lookup_insert_ne. lia.
    + destruct (Nat.leb_spec idx i) as [Hle|Hgt].
      * assert (i = idx) as -> by lia. rewrite Nat.sub_diag.
        cbn [lookup list_lookup mbind option_bind]. unfold header_field.
        destruct (alias_map !! normalize_header hd) as [c|] eqn:Ha; [|done].
        destruct (alias_map_canonical _ _ Ha) as [_ ->].
        apply lookup_insert_eq.
      * destruct (alias_map !! normalize_header hd) as [c|]; [|done].
        destruct (nonempty c); [|done]. apply lookup_insert_ne. lia.
Qed.

Lemma map_table_headers_mapping headers i :
  (map_table_headers headers).1 !! i = headers !! i ≫= header_field.
Proof.
  unfold map_table_headers. rewrite map_headers_go_mapping.
  cbn [Nat.leb]. rewrite Nat.sub_0_r, lookup_empty.
  by destruct (headers !! i ≫= header_field).
Qed.

Lemma build_rows_length mapping nh rows :
  length (build_rows mapping nh rows) <= length rows.
Proof.
  induction rows as [|row rows IH]; cbn [build_rows length]; [done|].
  destruct (keeps_row row); cbn [length]; lia.
Qed.

Lemma build_rows_filter mapping nh rows :
  build_rows mapping nh rows
  = map (fun row => row_entry mapping nh (map clean_cell row))
      (List.filter keeps_row rows).
Proof.
  induction rows as [|row rows IH]; cbn [build_rows List.filter map]; [done|].
  destruct (keeps_row row); cbn [map]; by rewrite IH.
Qed.

Lemma map_table_headers_empty headers :
  (map_table_headers headers).1 = ∅
  <-> forall header, header ∈ headers ->
        alias_map !! normalize_header header = None.
Proof.
  split.
  - intros He header Hin. apply list_elem_of_lookup_1 in Hin as [i Hi].
    pose proof (map_table_headers_mapping headers i) as Hm.
    rewrite He, lookup_empty, Hi in Hm. done.
  - intros Hnone. apply map_empty. intros i.
    rewrite map_table_headers_mapping.
    destruct (headers !! i) as [hd|] eqn:Hi; [|done].
    apply Hnone. by eapply list_elem_of_lookup_2.
Qed.

Lemma keeps_row_spec row :
  keeps_row row = true
  <-> (exists c, c ∈ row /\ clean_cell c <> [])
      /\ forall c, c ∈ row -> is_player_header (clean_cell c) = false.
Proof.
  unfold keeps_row. destruct row as [|c0 row].
  { split; [done|]. intros [(c & Hc & _) _]. by apply elem_of_nil in Hc. }
  set (r := c0 :: row). rewrite andb_true_iff, negb_true_iff. split.
  - intros [He Hp]. split.
    + apply existsb_exists in He as (v & Hin & Hv).
      apply in_map_iff in Hin as (c & <- & Hin).
      exists c. split; [by apply list_elem_of_In|]. by destruct (clean_cell c).
    + intros c Hc. destruct (is_player_header (clean_cell c)) eqn:E; [|done].
      assert (existsb is_player_header (map clean_cell r) = true) as Hx; [|congruence].
      apply existsb_exists. exists (clean_cell c). split; [|done].
      apply in_map. by apply list_elem_of_In.
  - intros [(c & Hc & Hne) Hp]. split.
    + apply existsb_exists. exists (clean_cell c). split.
      * apply in_map. by apply list_elem_of_In.
      * by destruct (clean_cell c).
    + destruct (existsb is_player_header (map clean_cell r)) eqn:E; [|done].
      apply existsb_exists in E as (v & Hin & Hv).
      apply in_map_iff in Hin as (c' & <- & Hin).
      rewrite Hp in Hv; [done|]. by apply list_elem_of_In.
Qed.

(** ** The extraction loop *)

(** C4: on a page for which the line-oriented parser produced at least one
    entry, the page contributes exactly the line parser's entries, context
    and heap: its tables are not consulted and no table entry is added. *)
Theorem table_fallback_only_without_line_entries
    (ents : list nat) (ctx : gmap str value) (h : list (gmap str value))
    (pg : page) (text_entries : list nat) (ctx' : gmap str value)
    (h' : list (gmap str value)) :
  parse_injury_report_text (default [] (extract_text pg)) ctx h
    = (text_entries, ctx', h') ->
  text_entries <> [] ->
  process_page (ents, ctx, h) pg = (ents ++ text_entries, ctx', h').
Proof.
  intros Hparse Hne. unfold process_page. rewrite Hparse.
  destruct text_entries; [done|reflexivity].
Qed.

Lemma table_fallback_only_without_line_entries_witness :
  let pg :=
    MkPage (Some (txt "LAL James, LeBron Out Left ankle"))
      [[ [Some (txt "Player Name"); Some (txt "Current Status")];
         [Some (txt "Davis, Anthony"); Some (txt "Questionable")] ]] in
  let p := parse_injury_report_text (default [] (extract_text pg)) ∅ [] in
  p.1.1 = [0]
  /\ process_page ([], ∅, []) pg = ([] ++ p.1.1, p.1.2, p.2).
Proof.
  intros pg p. split; [vm_compute; reflexivity|].
  apply table_fallback_only_without_line_entries.
  - subst p. by destruct (parse_injury_report_text _ _ _) as [[? ?] ?].
  - vm_compute. discriminate.
Defined.

(** ** The invariants of the emitted entries *)

Lemma keeps_row_nonempty_cell row :
  keeps_row row = true -> exists c, c ∈ row /\ clean_cell c <> [].
Proof.
  unfold keeps_row. destruct row as [|c0 row]; [done|].
  intros H. apply andb_true_iff in H as [H _].
  apply existsb_exists in H as (v & Hin & Hv).
  apply in_map_iff in Hin as (c & <- & Hin).
  exists c. split; [by apply list_elem_of_In|]. by destruct (clean_cell c).
Qed.

(** C2, as amended: every entry the line-oriented parser appends has at
    least one of playerName, status, reason non-empty, on the heap it
    returns, and entries that had content before the call keep it.  The
    table-oriented parser gives no such guarantee.  For a table with at
    least two rows whose header row has a cell that normalises to an alias
    of the alias table, it appends exactly one entry, in row order, for
    every data row that has a non-empty cleaned cell and no cleaned cell
    that normalises to "player name" or "player", whether or not any of
    the three fields is set; for every other table it appends nothing. *)
Theorem emitted_entries_content :
  (forall text ctx h ents ctx' h',
      parse_injury_report_text text ctx h = (ents, ctx', h') ->
      (forall r, r ∈ ents -> exists e, h' !! r = Some e /\ has_content e)
      /\ (forall r e0, h !! r = Some e0 -> has_content e0 ->
            exists e, h' !! r = Some e /\ has_content e))
  /\ (forall headers rows,
        rows <> [] ->
        (exists header,
            header ∈ headers /\ is_Some (alias_map !! normalize_header header)) ->
        build_entries_from_table (headers :: rows)
        = map (fun row => row_entry (map_table_headers headers).1
                            (map normalize_header headers) (map clean_cell row))
            (List.filter keeps_row rows))
  /\ (forall row,
        keeps_row row = true
        <-> (exists c, c ∈ row /\ clean_cell c <> [])
            /\ forall c, c ∈ row -> is_player_header (clean_cell c) = false)
  /\ (forall table,
        length table < 2
        \/ (forall headers rows header,
              table = headers :: rows -> header ∈ headers ->
              alias_map !! normalize_header header = None) ->
        build_entries_from_table table = []).
Proof.
  split; [|split; [|split]].
  - intros text ctx h ents ctx' h' Hparse.
    pose proof (parse_injury_report_text_inv has_content
                  (fun r => exists e0, h !! r = Some e0 /\ has_content e0)
                  has_content_continuation has_content_emit
                  text ctx h ents ctx' h' Hparse) as Hinv.
    split.
    + intros r Hr. apply Hinv; [done|by left].
    + intros r e0 Hr He. apply Hinv; [done|]. right. eauto.
  - intros headers rows Hrows (header & Hin & Hsome).
    unfold build_entries_from_table.
    destruct rows as [|row0 rows]; [done|].
    pose proof (map_table_headers_labels headers) as Hl.
    pose proof (map_table_headers_empty headers) as Hempty.
    destruct (map_table_headers headers) as [mapping nh]. cbn [fst snd] in *.
    subst nh. cbv beta iota.
    rewrite bool_decide_eq_false_2; [apply build_rows_filter|].
    intros He. pose proof (proj1 Hempty He header Hin) as Hn.
    rewrite Hn in Hsome.
    by destruct Hsome.
  - apply keeps_row_spec.
  - intros table [Hlen|Hnone].
    + destruct table as [|headers [|row rows]]; cbn [length] in Hlen;
        [done|done|lia].
    + unfold build_entries_from_table.
      destruct table as [|headers [|row0 rows]]; [done|done|].
      pose proof (map_table_headers_empty headers) as Hempty.
      destruct (map_table_headers headers) as [mapping nh]. cbn [fst] in Hempty.
      cbv beta iota. rewrite bool_decide_eq_true_2; [done|].
      apply (proj2 Hempty). intros header Hin. by eapply Hnone.
Qed.

(** C2 as stated fails for the table-oriented parser: a row with a team
    and an empty player cell gives an entry without player, status or
    reason. *)
Lemma table_entry_without_content_counterexample :
  let pg :=
    MkPage None [[ [Some (txt "Team"); Some (txt "Player Name")];
                   [Some (txt "LAL"); Some (txt "")] ]] in
  map (fun e => (dget e (txt "team"), dget e (txt "playerName"),
                 dget e (txt "status"), dget e (txt "reason"),
                 has_content_b e))
      (extract_injury_report_entries [pg])
  = [(VStr (txt "LAL"), VStr [], VNone, VNone, false)].
Proof. vm_compute. reflexivity. Qed.

(** C3, as amended: every entry the line-oriented parser appends has a
    status that is none or, verbatim, a label of the status vocabulary, and
    entries for which this held before the call keep it; the table-oriented
    parser copies into status the trimmed text of the row's cell in the
    last column headed by a status alias, whatever that text is. *)
Theorem emitted_entries_status :
  (forall text ctx h ents ctx' h',
      parse_injury_report_text text ctx h = (ents, ctx', h') ->
      (forall r, r ∈ ents -> exists e, h' !! r = Some e /\ status_in_vocabulary e)
      /\ (forall r e0, h !! r = Some e0 -> status_in_vocabulary e0 ->
            exists e, h' !! r = Some e /\ status_in_vocabulary e))
  /\ (forall table e,
        e ∈ build_entries_from_table table ->
        exists headers rows row,
          table = headers :: rows /\ row ∈ rows
          /\ forall i c,
               row !! i = Some c ->
               (map_table_headers headers).1 !! i = Some (txt "status") ->
               (forall j, i < j < length row ->
                  (map_table_headers headers).1 !! j <> Some (txt "status")) ->
               e !! txt "status" = Some (VStr (clean_cell c))).
Proof.
  split.
  - intros text ctx h ents ctx' h' Hparse.
    pose proof (parse_injury_report_text_inv status_in_vocabulary
                  (fun r => exists e0, h !! r = Some e0 /\ status_in_vocabulary e0)
                  status_in_vocabulary_continuation status_in_vocabulary_emit
                  text ctx h ents ctx' h' Hparse) as Hinv.
    split.
    + intros r Hr. apply Hinv; [done|by left].
    + intros r e0 Hr He. apply Hinv; [done|]. right. eauto.
  - intros table e Hin.
    apply build_entries_from_table_elem in Hin
      as (headers & rows & row & -> & Hr & Hk & ->).
    exists headers, rows, row. split; [done|]. split; [done|].
    intros i c Hi Hmap Hlater.
    rewrite row_entry_field by key_neq.
    apply (fill_row_entry _ _ 0 _ _ _ i).
    + by rewrite list_lookup_fmap, Hi.
    + done.
    + intros j Hj. rewrite length_map in Hj. by apply Hlater.
Qed.

(** C3 as stated fails for the table-oriented parser: the text of a status
    cell is copied as it is. *)
Lemma table_status_outside_vocabulary_counterexample :
  let pg :=
    MkPage None [[ [Some (txt "Player Name"); Some (txt "Current Status")];
                   [Some (txt "A. Player"); Some (txt "Healthy")] ]] in
  map (fun e => dget e (txt "status")) (extract_injury_report_entries [pg])
  = [VStr (txt "Healthy")]
  /\ txt "Healthy" ∉ STATUS_OPTIONS.
Proof.
  split; [vm_compute; reflexivity|].
  unfold STATUS_OPTIONS. intros Hin.
  repeat (apply elem_of_cons in Hin as [Hin|Hin]; [vm_compute in Hin; discriminate|]).
  by apply elem_of_nil in Hin.
Qed.

(** C8, as amended: the raw map of a table-derived entry holds, under the
    label of each column whose label no later column of the row repeats,
    the trimmed, newline-collapsed text of the row's cell in that column;
    the label is the normalized header, or col_<index> when the header is
    blank or the row is longer than the header row. *)
Theorem raw_map_keeps_unshadowed_cells (table : list (list cell))
    (e : gmap str value) :
  e ∈ build_entries_from_table table ->
  exists headers rows row raw,
    table = headers :: rows /\ row ∈ rows
    /\ e !! txt "raw" = Some (VDict raw)
    /\ forall i c,
         row !! i = Some c ->
         (forall j, i < j < length row ->
            raw_label (map normalize_header headers) j
            <> raw_label (map normalize_header headers) i) ->
         raw !! raw_label (map normalize_header headers) i = Some (clean_cell c).
Proof.
  intros Hin.
  apply build_entries_from_table_elem in Hin
    as (headers & rows & row & -> & Hr & Hk & ->).
  eexists headers, rows, row, _. split; [done|]. split; [done|].
  split; [apply row_entry_raw|].
  intros i c Hi Hlater.
  apply (fill_row_raw _ _ 0 _ _ _ i).
  - by rewrite list_lookup_fmap, Hi.
  - intros j Hj. rewrite length_map in Hj. by apply Hlater.
Qed.

Lemma raw_map_keeps_unshadowed_cells_witness :
  let table := [ [Some (txt "Player Name"); Some (txt "Current Status");
                  Some (txt "Notes")];
                 [Some (txt "A. Player"); Some (txt "Out"); Some (txt " knee ")] ] in
  exists e raw,
    e ∈ build_entries_from_table table
    /\ e !! txt "raw" = Some (VDict raw)
    /\ raw !! txt "notes" = Some (txt "knee").
Proof.
  intros table.
  destruct (build_entries_from_table table) as [|e rest] eqn:E.
  { apply (f_equal length) in E. vm_compute in E. discriminate. }
  assert (e ∈ build_entries_from_table table) as Hin by (rewrite E; left).
  destruct (raw_map_keeps_unshadowed_cells table e Hin)
    as (headers & rows & row & raw & Et & Hr & Hraw & Hcells).
  exists e, raw. split; [left|]. split; [exact Hraw|].
  subst table. injection Et as <- <-.
  apply list_elem_of_singleton in Hr as ->.
  specialize (Hcells 2 (Some (txt " knee ")) eq_refl).
  lazymatch type of Hcells with
  | _ -> raw !! ?l = Some ?v =>
      replace l with (txt "notes") in Hcells by (vm_compute; reflexivity);
      replace v with (txt "knee") in Hcells by (vm_compute; reflexivity)
  end.
  apply Hcells.
  intros j Hj. simpl in Hj. lia.
Defined.

(** C8 as stated fails: when two columns have the same header the raw map
    keeps only the later cell, so the row cannot be read back from it. *)
Lemma raw_map_roundtrip_counterexample :
  let table := [ [Some (txt "Player"); Some (txt "Notes"); Some (txt "Notes")];
                 [Some (txt "A. Player"); Some (txt "knee");
                  Some (txt "out 2 weeks")] ] in
  map (fun e => match dget e (txt "raw") with
                | VDict raw => (raw !! txt "player", raw !! txt "notes", size raw)
                | _ => (None, None, 0)
                end)
      (build_entries_from_table table)
  = [(Some (txt "A. Player"), Some (txt "out 2 weeks"), 2)].
Proof. vm_compute. reflexivity. Qed.

(** ** The line cleaner *)

(** *** Character classes *)

Lemma code_lt_256 c : code c < 256.
Proof. apply nat_ascii_bounded. Qed.

Lemma lower_char_code c :
  code (lower_char c) = if is_upper c then code c + 32 else code c.
Proof.
  unfold lower_char. destruct (is_upper c) eqn:E; [|done].
  unfold code at 1. apply nat_ascii_embedding.
  unfold is_upper in E. apply andb_true_iff in E as [_ E].
  apply Nat.leb_le in E. lia.
Qed.

Ltac class_arith :=
  repeat match goal with
         | H : _ && _ = true |- _ => apply andb_true_iff in H as [? ?]
         | H : _ || _ = true |- _ => apply orb_true_iff in H as [?|?]
         | H : (_ <=? _) = true |- _ => apply Nat.leb_le in H
         | H : (_ =? _) = true |- _ => apply Nat.eqb_eq in H
         | H : _ && _ = false |- _ => apply andb_false_iff in H as [?|?]
         | H : _ || _ = false |- _ => apply orb_false_iff in H as [? ?]
         | H : (_ <=? _) = false |- _ => apply Nat.leb_gt in H
         | H : (_ =? _) = false |- _ => apply Nat.eqb_neq in H
         end.

(** A character equal to a lower-case letter up to case is a letter. *)
Lemma ci_letter_code a c :
  is_lower a = true -> ch_eq_ci a c = true ->
  code c = code a \/ code c + 32 = code a.
Proof.
  unfold ch_eq_ci, ch_eq. intros Ha H. apply Nat.eqb_eq in H.
  rewrite !lower_char_code in H.
  assert (is_upper a = false) as Hu.
  { unfold is_lower, is_upper in *. class_arith.
    apply andb_false_iff. right. apply Nat.leb_gt. lia. }
  rewrite Hu in H. destruct (is_upper c); lia.
Qed.

Lemma ci_letter_not_space a c :
  is_lower a = true -> ch_eq_ci a c = true -> is_space c = false.
Proof.
  intros Ha H. destruct (ci_letter_code a c Ha H) as [E|E];
    unfold is_space, is_lower in *; class_arith;
    apply orb_false_iff; split; apply andb_false_iff;
    (left; apply Nat.leb_gt; lia) || (right; apply Nat.leb_gt; lia).
Qed.

Lemma ci_letter_not_digit a c :
  is_lower a = true -> ch_eq_ci a c = true -> is_digit c = false.
Proof.
  intros Ha H. destruct (ci_letter_code a c Ha H) as [E|E];
    unfold is_digit, is_lower in *; class_arith;
    apply andb_false_iff;
    (left; apply Nat.leb_gt; lia) || (right; apply Nat.leb_gt; lia).
Qed.

Lemma digit_not_space c : is_digit c = true -> is_space c = false.
Proof.
  unfold is_digit, is_space. intros H. class_arith.
  apply orb_false_iff; split; apply andb_false_iff;
    (left; apply Nat.leb_gt; lia) || (right; apply Nat.leb_gt; lia).
Qed.

Lemma space_not_digit c : is_space c = true -> is_digit c = false.
Proof.
  intros H. destruct (is_digit c) eqn:E; [|done].
  apply digit_not_space in E. congruence.
Qed.

Lemma space_not_p c : is_space c = true -> ch_eq_ci "p" c = false.
Proof.
  intros H. destruct (ch_eq_ci "p" c) eqn:E; [|done].
  apply ci_letter_not_space in E; [congruence|reflexivity].
Qed.

Lemma digit_not_p c : is_digit c = true -> ch_eq_ci "p" c = false.
Proof.
  intros H. destruct (ch_eq_ci "p" c) eqn:E; [|done].
  apply ci_letter_not_digit in E; [congruence|reflexivity].
Qed.

Lemma lower_char_ci a c : lower_char c = lower_char a <-> ch_eq_ci a c = true.
Proof. unfold ch_eq_ci. rewrite ch_eq_true. split; congruence. Qed.

(** *** Running the matcher on a text of known shape *)

(** What [p*] does when the run of [p] characters ends at [s2] and the
    rest of the pattern succeeds there: greedy, it stops exactly there. *)
Lemma star_match_greedy {A} p prev s1 s2 (k : option ascii -> str -> option A) a :
  forallb p s1 = true ->
  match s2 with c :: _ => p c = false | [] => True end ->
  k (last_of prev s1) s2 = Some a ->
  star_match p prev (s1 ++ s2) k = Some a.
Proof.
  revert prev. induction s1 as [|c s1 IH]; intros prev Hall Hhead Hk; simpl in *.
  - destruct s2 as [|d s2]; [done|]. simpl. by rewrite Hhead.
  - apply andb_true_iff in Hall as [Hc Hall]. rewrite Hc.
    by rewrite (IH (Some c) Hall Hhead Hk).
Qed.

Lemma rmatch_Star_greedy {A} p prev s1 s2 g
    (k : option ascii -> str -> caps -> option A) a :
  forallb p s1 = true ->
  match s2 with c :: _ => p c = false | [] => True end ->
  k (last_of prev s1) s2 g = Some a ->
  rmatch (Star p) prev (s1 ++ s2) g k = Some a.
Proof. intros. simpl. by apply star_match_greedy. Qed.

Lemma rmatch_Plus_greedy {A} p prev s1 s2 g
    (k : option ascii -> str -> caps -> option A) a :
  s1 <> [] -> forallb p s1 = true ->
  match s2 with c :: _ => p c = false | [] => True end ->
  k (last_of prev s1) s2 g = Some a ->
  rmatch (Plus p) prev (s1 ++ s2) g k = Some a.
Proof.
  intros Hne Hall Hhead Hk. destruct s1 as [|c s1]; [done|].
  simpl in *. apply andb_true_iff in Hall as [Hc Hall]. rewrite Hc.
  by apply star_match_greedy.
Qed.

Lemma rmatch_lit_ci_eval {A} label prev s1 s2 g
    (k : option ascii -> str -> caps -> option A) :
  lower s1 = lower label ->
  rmatch (lit_ci label) prev (s1 ++ s2) g k = k (last_of prev s1) s2 g.
Proof.
  revert prev s1. induction label as [|c label IH]; intros prev s1 E.
  - destruct s1; [done|discriminate].
  - destruct s1 as [|x s1]; [discriminate|]. injection E as Hx E.
    simpl. apply lower_char_ci in Hx. rewrite Hx. by apply IH.
Qed.

Lemma rmatch_Seq {A} r1 r2 prev s g (k : option ascii -> str -> caps -> option A) :
  rmatch (Seq r1 r2) prev s g k
  = rmatch r1 prev s g (fun prev' s' g' => rmatch r2 prev' s' g' k).
Proof. reflexivity. Qed.

Lemma lower_page_head p :
  lower p = txt "page" -> exists c p', p = c :: p' /\ ch_eq_ci "p" c = true.
Proof.
  destruct p as [|c p']; [discriminate|]. intros [= Hc _].
  exists c, p'. split; [done|]. apply lower_char_ci. exact Hc.
Qed.

Lemma lower_of_head o :
  lower o = txt "of" -> exists c o', o = c :: o' /\ ch_eq_ci "o" c = true.
Proof.
  destruct o as [|c o']; [discriminate|]. intros [= Hc _].
  exists c, o'. split; [done|]. apply lower_char_ci. exact Hc.
Qed.

Lemma number_head n :
  is_number n -> exists c n', n = c :: n' /\ is_digit c = true.
Proof.
  intros [Hne Hall]. destruct n as [|c n']; [done|].
  simpl in Hall. apply andb_true_iff in Hall as [Hc _]. eauto.
Qed.

(** The head of [w ++ rest] is not in class [q] when no blank is and the
    head of [rest] is not. *)
Lemma head_after_blank (q : ascii -> bool) w rest :
  is_blank w ->
  (forall c, is_space c = true -> q c = false) ->
  match rest with c :: _ => q c = false | [] => True end ->
  match w ++ rest with c :: _ => q c = false | [] => True end.
Proof.
  intros Hw Hq Hrest. destruct w as [|c w]; [done|]. simpl.
  apply Hq. unfold is_blank in Hw. simpl in Hw.
  by apply andb_true_iff in Hw as [? _].
Qed.

(** The spaced trailing pattern, tried where a marker with its blanks
    begins and runs to the end of the text, matches all of it. *)
Lemma trailing_page_re_here prev pos w p w1 n w2 o w3 k w' :
  is_blank w -> lower p = txt "page" -> is_blank w1 -> is_number n ->
  is_blank w2 -> lower o = txt "of" -> is_blank w3 -> is_number k ->
  is_blank w' ->
  let s := w ++ p ++ w1 ++ n ++ w2 ++ o ++ w3 ++ k ++ w' in
  match_here trailing_page_re prev s pos = Some (MkMatch pos (pos + length s) ∅).
Proof.
  intros Hw Hp Hw1 Hn Hw2 Ho Hw3 Hk Hw' s.
  destruct (lower_page_head p Hp) as (cp & p' & Ep & Hcp).
  destruct (lower_of_head o Ho) as (co & o' & Eo & Hco).
  destruct (number_head n Hn) as (cn & n' & En & Hcn).
  destruct (number_head k Hk) as (ck & k' & Ek & Hck).
  unfold match_here, trailing_page_re, seqs, ws, digits. cbn [foldr].
  subst s. rewrite rmatch_Seq.
  apply rmatch_Star_greedy; [exact Hw| |].
  { rewrite Ep. simpl. eapply ci_letter_not_space; [|exact Hcp]. reflexivity. }
  rewrite rmatch_Seq, rmatch_lit_ci_eval by exact Hp.
  rewrite rmatch_Seq. apply rmatch_Star_greedy; [exact Hw1| |].
  { rewrite En. simpl. by apply digit_not_space. }
  rewrite rmatch_Seq. apply rmatch_Plus_greedy; [apply Hn|apply Hn| |].
  { apply head_after_blank; [exact Hw2|apply space_not_digit|].
    rewrite Eo. simpl. eapply ci_letter_not_digit; [|exact Hco]. reflexivity. }
  rewrite rmatch_Seq. apply rmatch_Star_greedy; [exact Hw2| |].
  { rewrite Eo. simpl. eapply ci_letter_not_space; [|exact Hco]. reflexivity. }
  rewrite rmatch_Seq, rmatch_lit_ci_eval by exact Ho.
  rewrite rmatch_Seq. apply rmatch_Star_greedy; [exact Hw3| |].
  { rewrite Ek. simpl. by apply digit_not_space. }
  rewrite rmatch_Seq. apply rmatch_Plus_greedy; [apply Hk|apply Hk| |].
  { rewrite <- (app_nil_r w'). apply head_after_blank;
      [exact Hw'|apply space_not_digit|done]. }
  rewrite rmatch_Seq. rewrite <- (app_nil_r w') at 1.
  apply rmatch_Star_greedy; [exact Hw'|done|].
  simpl. rewrite Nat.sub_0_r. reflexivity.
Qed.

(** *** The marker patterns, read declaratively *)

Lemma matches_Star_inv p prev s rest g g' :
  matches (Star p) prev s rest g g' -> forallb p s = true /\ g' = g.
Proof. intros M. by inversion M; subst. Qed.

Lemma matches_Eol_inv prev s rest g g' :
  matches Eol prev s rest g g' -> s = [] /\ g' = g /\ at_eol rest = true.
Proof. intros M. by inversion M; subst. Qed.

Lemma matches_Eps_inv prev s rest g g' :
  matches Eps prev s rest g g' -> s = [] /\ g' = g.
Proof. intros M. by inversion M; subst. Qed.

Lemma matches_Bol_inv prev s rest g g' :
  matches Bol prev s rest g g' -> s = [] /\ g' = g /\ prev = None.
Proof. intros M. by inversion M; subst. Qed.

Lemma matches_Plus_intro p prev s rest g :
  s <> [] -> forallb p s = true -> matches (Plus p) prev s rest g g.
Proof.
  intros Hne Hall. destruct s as [|c s]; [done|].
  simpl in Hall. apply andb_true_iff in Hall as [Hc Hall].
  change (c :: s) with ([c] ++ s). unfold Plus. econstructor.
  - by constructor.
  - by constructor.
Qed.

Lemma leading_page_re_inv prev s rest g g' :
  matches leading_page_re prev s rest g g' -> page_marker s.
Proof.
  unfold leading_page_re, ws, digits, seqs. cbn [foldr]. intros M.
  apply matches_Seq_inv in M as (s0 & ? & ? & -> & M0 & M).
  apply matches_Seq_inv in M as (p & ? & ? & -> & Mp & M).
  apply matches_Seq_inv in M as (w1 & ? & ? & -> & Mw1 & M).
  apply matches_Seq_inv in M as (n & ? & ? & -> & Mn & M).
  apply matches_Seq_inv in M as (w2 & ? & ? & -> & Mw2 & M).
  apply matches_Seq_inv in M as (o & ? & ? & -> & Mo & M).
  apply matches_Seq_inv in M as (w3 & ? & ? & -> & Mw3 & M).
  apply matches_Seq_inv in M as (k & ? & ? & -> & Mk & M).
  apply matches_Eps_inv in M as [-> _].
  apply matches_Bol_inv in M0 as (-> & _ & _).
  apply matches_lit_ci in Mp as [Hp _]. apply matches_lit_ci in Mo as [Ho _].
  apply matches_Star_inv in Mw1 as [Hw1 _].
  apply matches_Star_inv in Mw2 as [Hw2 _].
  apply matches_Star_inv in Mw3 as [Hw3 _].
  apply matches_Plus_inv in Mn as (Hn1 & Hn2 & _).
  apply matches_Plus_inv in Mk as (Hk1 & Hk2 & _).
  exists p, w1, n, w2, o, w3, k. rewrite app_nil_r. simpl.
  repeat split; done.
Qed.

Lemma leading_page_re_intro m rest :
  page_marker m -> matches leading_page_re None m rest ∅ ∅.
Proof.
  intros (p & w1 & n & w2 & o & w3 & k & -> & Hp & Hw1 & Hn & Hw2 & Ho & Hw3 & Hk).
  unfold leading_page_re, ws, digits, seqs. cbn [foldr].
  apply (M_Seq _ _ None [] _ rest ∅ ∅ ∅); [constructor|].
  eapply M_Seq; [by apply matches_lit_ci|].
  eapply M_Seq; [by constructor|].
  eapply M_Seq; [apply matches_Plus_intro; apply Hn|].
  eapply M_Seq; [by constructor|].
  eapply M_Seq; [by apply matches_lit_ci|].
  eapply M_Seq; [by constructor|].
  rewrite <- (app_nil_r k).
  eapply M_Seq; [apply matches_Plus_intro; apply Hk|].
  constructor.
Qed.

Lemma trailing_page_re_inv prev s rest g g' :
  matches trailing_page_re prev s rest g g' ->
  trailing_marker s /\ at_eol rest = true.
Proof.
  unfold trailing_page_re, ws, digits, seqs. cbn [foldr]. intros M.
  apply matches_Seq_inv in M as (w & ? & ? & -> & Mw & M).
  apply matches_Seq_inv in M as (p & ? & ? & -> & Mp & M).
  apply matches_Seq_inv in M as (w1 & ? & ? & -> & Mw1 & M).
  apply matches_Seq_inv in M as (n & ? & ? & -> & Mn & M).
  apply matches_Seq_inv in M as (w2 & ? & ? & -> & Mw2 & M).
  apply matches_Seq_inv in M as (o & ? & ? & -> & Mo & M).
  apply matches_Seq_inv in M as (w3 & ? & ? & -> & Mw3 & M).
  apply matches_Seq_inv in M as (k & ? & ? & -> & Mk & M).
  apply matches_Seq_inv in M as (w' & ? & ? & -> & Mw' & M).
  apply matches_Seq_inv in M as (e & ? & ? & -> & Me & M).
  apply matches_Eps_inv in M as [-> _].
  apply matches_Eol_inv in Me as (-> & _ & He).
  apply matches_lit_ci in Mp as [Hp _]. apply matches_lit_ci in Mo as [Ho _].
  apply matches_Star_inv in Mw as [Hw _].
  apply matches_Star_inv in Mw1 as [Hw1 _].
  apply matches_Star_inv in Mw2 as [Hw2 _].
  apply matches_Star_inv in Mw3 as [Hw3 _].
  apply matches_Star_inv in Mw' as [Hw' _].
  apply matches_Plus_inv in Mn as (Hn1 & Hn2 & _).
  apply matches_Plus_inv in Mk as (Hk1 & Hk2 & _).
  split; [|by rewrite app_nil_l in He].
  exists w, (p ++ w1 ++ n ++ w2 ++ o ++ w3 ++ k), w'.
  split; [by rewrite !app_nil_r, <- !app_assoc|].
  split; [exact Hw|]. split; [|exact Hw'].
  exists p, w1, n, w2, o, w3, k. repeat split; done.
Qed.

Lemma trailing_compact_page_re_inv prev s rest g g' :
  matches trailing_compact_page_re prev s rest g g' ->
  trailing_marker s /\ at_eol rest = true.
Proof.
  unfold trailing_compact_page_re, ws, digits, seqs. cbn [foldr]. intros M.
  apply matches_Seq_inv in M as (w & ? & ? & -> & Mw & M).
  apply matches_Seq_inv in M as (p & ? & ? & -> & Mp & M).
  apply matches_Seq_inv in M as (n & ? & ? & -> & Mn & M).
  apply matches_Seq_inv in M as (o & ? & ? & -> & Mo & M).
  apply matches_Seq_inv in M as (k & ? & ? & -> & Mk & M).
  apply matches_Seq_inv in M as (w' & ? & ? & -> & Mw' & M).
  apply matches_Seq_inv in M as (e & ? & ? & -> & Me & M).
  apply matches_Eps_inv in M as [-> _].
  apply matches_Eol_inv in Me as (-> & _ & He).
  apply matches_lit_ci in Mp as [Hp _]. apply matches_lit_ci in Mo as [Ho _].
  apply matches_Star_inv in Mw as [Hw _].
  apply matches_Star_inv in Mw' as [Hw' _].
  apply matches_Plus_inv in Mn as (Hn1 & Hn2 & _).
  apply matches_Plus_inv in Mk as (Hk1 & Hk2 & _).
  split; [|by rewrite app_nil_l in He].
  exists w, (p ++ [] ++ n ++ [] ++ o ++ [] ++ k), w'.
  split; [by rewrite !app_nil_r, <- !app_assoc|].
  split; [exact Hw|]. split; [|exact Hw'].
  exists p, [], n, [], o, [], k. repeat split; done.
Qed.

(** *** No marker can begin inside the text before a trailing marker *)

Lemma count_p_app a b : count_p (a ++ b) = count_p a + count_p b.
Proof. induction a as [|c a IH]; simpl; [done|]. rewrite IH. lia. Qed.

Lemma count_p_blank w : is_blank w -> count_p w = 0.
Proof.
  unfold is_blank. induction w as [|c w IH]; simpl; [done|].
  intros H. apply andb_true_iff in H as [Hc Hw].
  by rewrite (space_not_p c Hc), IH.
Qed.

Lemma count_p_number n : is_number n -> count_p n = 0.
Proof.
  intros [_ H]. induction n as [|c n IH]; simpl in *; [done|].
  apply andb_true_iff in H as [Hc Hn].
  by rewrite (digit_not_p c Hc), IH.
Qed.

Lemma ci_distinct a b c :
  lower_char c = a -> lower_char b <> a -> ch_eq_ci b c = false.
Proof.
  intros Hc Hb. destruct (ch_eq_ci b c) eqn:E; [|done].
  apply lower_char_ci in E. congruence.
Qed.

Lemma count_p_page p : lower p = txt "page" -> count_p p = 1.
Proof.
  destruct p as [|c1 [|c2 [|c3 [|c4 [|c5 p]]]]]; try discriminate.
  intros [= H1 H2 H3 H4]. simpl.
  assert (ch_eq_ci "p" c1 = true) as -> by (by apply lower_char_ci).
  rewrite (ci_distinct _ "p" _ H2), (ci_distinct _ "p" _ H3),
    (ci_distinct _ "p" _ H4); done.
Qed.

Lemma count_p_of o : lower o = txt "of" -> count_p o = 0.
Proof.
  destruct o as [|c1 [|c2 [|c3 o]]]; try discriminate.
  intros [= H1 H2]. simpl.
  rewrite (ci_distinct _ "p" _ H1), (ci_distinct _ "p" _ H2); done.
Qed.

Lemma count_p_page_marker m : page_marker m -> count_p m = 1.
Proof.
  intros (p & w1 & n & w2 & o & w3 & k & -> & Hp & Hw1 & Hn & Hw2 & Ho & Hw3 & Hk).
  rewrite !count_p_app, (count_p_page p Hp), (count_p_of o Ho),
    (count_p_blank w1 Hw1), (count_p_blank w2 Hw2), (count_p_blank w3 Hw3),
    (count_p_number n Hn), (count_p_number k Hk). reflexivity.
Qed.

Lemma count_p_trailing_marker x : trailing_marker x -> count_p x = 1.
Proof.
  intros (w & m & w' & -> & Hw & Hm & Hw').
  rewrite !count_p_app, (count_p_page_marker m Hm),
    (count_p_blank w Hw), (count_p_blank w' Hw'). reflexivity.
Qed.

Lemma lstrip_blank_app w r : is_blank w -> lstrip (w ++ r) = lstrip r.
Proof.
  unfold is_blank. induction w as [|c w IH]; simpl; [done|].
  intros H. apply andb_true_iff in H as [Hc Hw]. rewrite Hc. by apply IH.
Qed.

Lemma lstrip_app_nonblank a b : lstrip a <> [] -> lstrip (a ++ b) = lstrip a ++ b.
Proof.
  induction a as [|c a IH]; simpl; [done|].
  destruct (is_space c); [apply IH|done].
Qed.

(** The first non-blank character of a marker with its blanks is its [p]. *)
Lemma trailing_marker_first x :
  trailing_marker x -> exists c r, lstrip x = c :: r /\ ch_eq_ci "p" c = true.
Proof.
  intros (w & m & w' & -> & Hw & Hm & Hw').
  destruct Hm as (p & w1 & n & w2 & o & w3 & k & -> & Hp & _).
  destruct (lower_page_head p Hp) as (c & p' & -> & Hc).
  rewrite lstrip_blank_app by done. simpl.
  rewrite (ci_letter_not_space "p" c eq_refl Hc). eauto.
Qed.

Lemma lstrip_head_elem s c r : lstrip s = c :: r -> count_p s >= count_p [c].
Proof.
  induction s as [|x s IH]; simpl; [done|].
  destruct (is_space x) eqn:Hx.
  - intros H. specialize (IH H). simpl in IH. lia.
  - intros [= -> ->]. lia.
Qed.

Lemma trailing_marker_app_blank x y :
  trailing_marker x -> is_blank y -> trailing_marker (x ++ y).
Proof.
  intros (w & m & w' & -> & Hw & Hm & Hw') Hy.
  exists w, m, (w' ++ y). rewrite <- !app_assoc. repeat split; try done.
  unfold is_blank in *. rewrite forallb_app. by rewrite Hw', Hy.
Qed.

Lemma at_eol_blank y : at_eol y = true -> is_blank y.
Proof.
  destruct y as [|c [|? ?]]; simpl; try done.
  intros H. apply Nat.eqb_eq in H. unfold is_blank, is_space. simpl.
  by rewrite H.
Qed.

(** A marker with its blanks cannot start strictly inside [u ++ tail]
    before [tail] when [u] ends in a non-blank character. *)
Lemma no_marker_before u tail c :
  last_of None u = Some c -> is_space c = false ->
  trailing_marker tail -> ~ trailing_marker (u ++ tail).
Proof.
  intros Hl Hc Htail Hx.
  pose proof (count_p_trailing_marker _ Hx) as Hcx.
  rewrite count_p_app, (count_p_trailing_marker _ Htail) in Hcx.
  destruct (trailing_marker_first _ Hx) as (x & r & Hs & Hp).
  assert (lstrip u <> []) as Hne.
  { destruct u as [|y u] using rev_ind; [done|].
    rewrite last_of_snoc in Hl. injection Hl as ->.
    eapply lstrip_nonempty; [|exact Hc]. apply elem_of_app. right. left. }
  rewrite lstrip_app_nonblank in Hs by done.
  destruct (lstrip u) as [|z q] eqn:Eu; [done|].
  injection Hs as -> _.
  apply lstrip_head_elem in Eu. simpl in Eu. rewrite Hp in Eu. lia.
Qed.

(** *** Substitution *)

(** A prefix in which no match begins is copied. *)
Lemma sub_go_copy r rep prev u v :
  (forall pre1 s1, u ++ v = pre1 ++ s1 -> length pre1 < length u ->
     match_here r (last_of prev pre1) s1 0 = None) ->
  sub_go r rep prev (u ++ v) 0 = u ++ sub_go r rep (last_of prev u) v 0.
Proof.
  revert prev. induction u as [|c u IH]; intros prev Hnone; [done|].
  assert (match_here r prev (c :: u ++ v) 0 = None) as H0.
  { apply (Hnone [] (c :: u ++ v)); [done|simpl; lia]. }
  cbn [app sub_go]. rewrite H0. cbn [last_of]. f_equal. apply IH. intros pre1 s1 E Hlt.
  apply (Hnone (c :: pre1) s1); simpl; [by rewrite E|lia].
Qed.

Lemma sub_go_skip_all r prev s :
  sub_go r [] prev s (length s) = [].
Proof.
  revert prev. induction s as [|c s IH]; intros prev; simpl.
  - by destruct (match_here r prev [] 0).
  - apply IH.
Qed.

(** A match that runs to the end of the text removes all of it. *)
Lemma sub_go_match_all r prev s pos :
  s <> [] ->
  match_here r prev s 0 = Some (MkMatch pos (length s) ∅) ->
  sub_go r [] prev s 0 = [].
Proof.
  intros Hne Hm. destruct s as [|c s]; [done|].
  cbn [sub_go]. rewrite Hm. cbn [m_end length]. apply sub_go_skip_all.
Qed.

(** Where no match begins anywhere, nothing is removed. *)
Lemma re_sub_no_match r s :
  (forall pre1 s1, s = pre1 ++ s1 -> match_here r (last_of None pre1) s1 0 = None) ->
  re_sub r [] s = s.
Proof.
  intros Hnone. unfold re_sub.
  rewrite <- (app_nil_r s) at 1. rewrite sub_go_copy.
  - simpl. destruct (match_here r (last_of None s) [] 0); by rewrite app_nil_r.
  - intros pre1 s1 E _. apply Hnone. by rewrite app_nil_r in E.
Qed.

Lemma page_marker_nonempty m : page_marker m -> m <> [].
Proof.
  intros (p & w1 & n & w2 & o & w3 & k & -> & Hp & _).
  destruct (lower_page_head p Hp) as (c & p' & -> & _). done.
Qed.

Lemma trailing_marker_nonempty tail : trailing_marker tail -> tail <> [].
Proof.
  intros (w & m & w' & -> & _ & Hm & _) E.
  apply app_eq_nil in E as [_ E]. apply app_eq_nil in E as [E _].
  by apply page_marker_nonempty in Hm.
Qed.

(** The spaced trailing pattern finds nothing where no suffix is a marker
    with its blanks; so does the compact one. *)
Lemma no_trailing_match t :
  (forall u v, t = u ++ v -> ~ trailing_marker v) ->
  forall pre1 s1, t = pre1 ++ s1 ->
    match_here trailing_page_re (last_of None pre1) s1 0 = None
    /\ match_here trailing_compact_page_re (last_of None pre1) s1 0 = None.
Proof.
  intros Hno pre1 s1 E. split.
  - destruct (match_here trailing_page_re _ s1 0) as [m|] eqn:Hm; [|done].
    exfalso. apply match_here_Some in Hm as (x & y & g & -> & M & _).
    apply trailing_page_re_inv in M as [Hx Hy].
    apply (Hno pre1 (x ++ y) E).
    apply trailing_marker_app_blank; [done|by apply at_eol_blank].
  - destruct (match_here trailing_compact_page_re _ s1 0) as [m|] eqn:Hm; [|done].
    exfalso. apply match_here_Some in Hm as (x & y & g & -> & M & _).
    apply trailing_compact_page_re_inv in M as [Hx Hy].
    apply (Hno pre1 (x ++ y) E).
    apply trailing_marker_app_blank; [done|by apply at_eol_blank].
Qed.

Lemma no_leading_match line :
  (forall m rest, page_marker m -> line <> m ++ rest) ->
  re_match leading_page_re line = None.
Proof.
  intros Hno. unfold re_match.
  destruct (match_here leading_page_re None line 0) as [m|] eqn:Hm; [|done].
  exfalso. apply match_here_Some in Hm as (x & y & g & -> & M & _).
  apply leading_page_re_inv in M. by apply (Hno x y).
Qed.

Lemma last_of_any_prev prev u c :
  last_of None u = Some c -> last_of prev u = Some c.
Proof.
  destruct u as [|z u _] using rev_ind; [done|].
  by rewrite !last_of_snoc.
Qed.

(** The first substitution removes a trailing marker and the blanks
    around it from a text that does not end in a blank. *)
Lemma re_sub_trailing t tail :
  trailing_marker tail ->
  (forall c, last_of None t = Some c -> is_space c = false) ->
  re_sub trailing_page_re [] (t ++ tail) = t.
Proof.
  intros Htail Hlast. unfold re_sub. rewrite sub_go_copy.
  - assert (sub_go trailing_page_re [] (last_of None t) tail 0 = []) as ->;
      [|apply app_nil_r].
    pose proof Htail as (w & m & w' & -> & Hw & Hm & Hw').
    destruct Hm as (p & w1 & n & w2 & o & w3 & k & -> & Hp & Hw1 & Hn & Hw2 & Ho & Hw3 & Hk).
    apply (sub_go_match_all _ _ _ 0).
    + by apply trailing_marker_nonempty.
    + rewrite <- !app_assoc.
      apply (trailing_page_re_here (last_of None t) 0 w p w1 n w2 o w3 k w');
        done.
  - intros pre1 s1 E Hlt.
    destruct (match_here trailing_page_re _ s1 0) as [m|] eqn:Hm; [|done].
    exfalso. apply match_here_Some in Hm as (x & y & g & -> & M & _).
    apply trailing_page_re_inv in M as [Hx Hy].
    assert (exists u, t = pre1 ++ u /\ u <> [] /\ u ++ tail = x ++ y)
      as (u & -> & Hu & Eu).
    { exists (drop (length pre1) t).
      assert (pre1 = take (length pre1) t) as Hpre.
      { apply (f_equal (take (length pre1))) in E.
        rewrite take_app_le in E by lia. by rewrite take_app_length in E. }
      split; [rewrite Hpre at 1; by rewrite take_drop|].
      split.
      - intros Hd. apply (f_equal length) in Hd.
        rewrite length_drop in Hd. simpl in Hd. lia.
      - apply (f_equal (drop (length pre1))) in E.
        rewrite drop_app_le in E by lia. by rewrite drop_app_length in E. }
    destruct (nonempty_last u Hu) as [c Hc].
    apply (no_marker_before u tail c); [done| |done|].
    + apply Hlast. rewrite last_of_app. by apply last_of_any_prev.
    + rewrite Eu. apply trailing_marker_app_blank; [done|by apply at_eol_blank].
Qed.

Lemma clean_injury_line_unfold line :
  line <> [] ->
  clean_injury_line line
  = match re_match leading_page_re line with
    | Some _ => None
    | None =>
        or_none (strip (re_sub trailing_compact_page_re []
                          (re_sub trailing_page_re [] line)))
    end.
Proof. by destruct line. Qed.

(** C9, as amended: the cleaner returns none for the empty line and for
    every line that BEGINS with a pagination marker "Page N of M" (up to
    case, with or without blanks between the parts).  For a line that does
    not begin with a marker: when it ends with a marker and the blanks
    around it, and the text before these does not end in a blank and has no
    suffix that is itself a marker with blanks around it, the marker is
    stripped and the text before it is returned, trimmed (none if it trims
    to nothing); when no suffix of the line is a marker with blanks around
    it, wherever else a marker may stand, the line is returned trimmed
    (none if it trims to nothing).  What is returned is never empty and has
    no blank at either end. *)
Theorem clean_injury_line_spec :
  clean_injury_line [] = None
  /\ (forall m rest, page_marker m -> clean_injury_line (m ++ rest) = None)
  /\ (forall t tail,
        trailing_marker tail ->
        (forall c, last_of None t = Some c -> is_space c = false) ->
        (forall m rest, page_marker m -> t ++ tail <> m ++ rest) ->
        (forall u v, t = u ++ v -> ~ trailing_marker v) ->
        clean_injury_line (t ++ tail) = or_none (strip t))
  /\ (forall line,
        line <> [] ->
        (forall m rest, page_marker m -> line <> m ++ rest) ->
        (forall u v, line = u ++ v -> ~ trailing_marker v) ->
        clean_injury_line line = or_none (strip line))
  /\ (forall line l,
        clean_injury_line line = Some l ->
        l <> []
        /\ (forall c, head l = Some c -> is_space c = false)
        /\ (forall c, last_of None l = Some c -> is_space c = false)).
Proof.
  split; [reflexivity|]. split; [|split; [|split]].
  - intros m rest Hm. rewrite clean_injury_line_unfold.
    + unfold re_match.
      destruct (match_here leading_page_re None (m ++ rest) 0) eqn:Hh; [done|].
      exfalso. eapply match_here_None in Hh; [|reflexivity].
      apply Hh. by apply leading_page_re_intro.
    + intros E. apply app_eq_nil in E as [E _].
      by apply page_marker_nonempty in Hm.
  - intros t tail Htail Hlast Hlead Hsuffix. rewrite clean_injury_line_unfold.
    + rewrite (no_leading_match _ Hlead).
      rewrite (re_sub_trailing t tail Htail Hlast).
      rewrite re_sub_no_match; [done|].
      intros pre1 s1 E1. by apply (no_trailing_match t Hsuffix pre1 s1).
    + intros E. apply app_eq_nil in E as [_ E].
      by apply trailing_marker_nonempty in Htail.
  - intros line Hne Hlead Hsuffix. rewrite clean_injury_line_unfold by done.
    rewrite (no_leading_match _ Hlead).
    rewrite (re_sub_no_match trailing_page_re line);
      [|intros pre1 s1 E1; by apply (no_trailing_match line Hsuffix pre1 s1)].
    rewrite (re_sub_no_match trailing_compact_page_re line);
      [|intros pre1 s1 E1; by apply (no_trailing_match line Hsuffix pre1 s1)].
    done.
  - intros line l. unfold clean_injury_line. destruct line; [done|].
    destruct (re_match leading_page_re _); [done|].
    intros H. apply or_none_Some in H as [-> Hne].
    split; [done|]. split; intros c Hc.
    + by eapply strip_head.
    + by eapply strip_last.
Qed.

(** C9 as stated fails: a line with a trailing marker is not dropped, its
    text is kept; and a marker in the middle of a line is neither dropped
    nor stripped. *)
Lemma clean_line_marker_counterexample :
  clean_injury_line (txt "LeBron James Page 1 of 2") = Some (txt "LeBron James")
  /\ clean_injury_line (txt "Out Page 1 of 2 (knee)")
     = Some (txt "Out Page 1 of 2 (knee)").
Proof. vm_compute. split; reflexivity. Qed.

Lemma count_p_suffix_zero t u v : count_p t = 0 -> t = u ++ v -> ~ trailing_marker v.
Proof.
  intros Ht -> Hv. apply count_p_trailing_marker in Hv.
  rewrite count_p_app in Ht. lia.
Qed.

Lemma clean_injury_line_spec_witness :
  clean_injury_line (txt "LeBron James" ++ txt "  Page 1 of 2 ")
  = Some (txt "LeBron James")
  /\ clean_injury_line (txt "PAGE3 of 12" ++ txt " continued") = None.
Proof.
  destruct clean_injury_line_spec as (_ & Hlead & Htrail & _).
  assert (page_marker (txt "PAGE3 of 12")) as Hm.
  { exists (txt "PAGE"), [], (txt "3"), (txt " "), (txt "of"), (txt " "), (txt "12").
    repeat split; done. }
  assert (page_marker (txt "Page 1 of 2")) as Hm'.
  { exists (txt "Page"), (txt " "), (txt "1"), (txt " "), (txt "of"), (txt " "), (txt "2").
    repeat split; done. }
  split; [|by apply Hlead].
  rewrite Htrail; [vm_compute; reflexivity| | | |].
  - exists (txt "  "), (txt "Page 1 of 2"), (txt " "). repeat split; done.
  - intros c [= <-]. reflexivity.
  - intros m rest Hpm E.
    destruct Hpm as (p & w1 & n & w2 & o & w3 & k & -> & Hp & _).
    destruct (lower_page_head p Hp) as (c & p' & -> & Hc).
    injection E as <- _. vm_compute in Hc. discriminate.
  - intros u v. apply count_p_suffix_zero. reflexivity.
Defined.

(** Markers stacked at the end of a line are outside the hypotheses above:
    the two substitutions can remove two of them. *)
Lemma clean_injury_line_stacked_markers :
  clean_injury_line (txt "A Page1of2 Page 3 of 4") = Some (txt "A").
Proof. vm_compute. reflexivity. Qed.
(** * Further properties of the report core *)

(** ** The two context operations, key by key *)

Lemma context_keys_NoDup : NoDup context_keys.
Proof.
  unfold context_keys. simpl.
  repeat (apply NoDup_cons; split;
          [intros H; repeat (apply elem_of_cons in H as [H|H];
                             [vm_compute in H; discriminate H|]);
           by apply elem_of_nil in H|]).
  apply NoDup_nil_2.
Qed.

Lemma apply_context_go_at (keys : list str) (e c : gmap str value) (k : str) :
  NoDup keys -> k ∈ keys ->
  dget (foldl (fun entry key =>
                 if negb (truthy (dget entry key)) && truthy (dget c key)
                 then <[key := dget c key]> entry else entry) e keys) k
  = if negb (truthy (dget e k)) && truthy (dget c k) then dget c k else dget e k.
Proof.
  revert e. induction keys as [|key keys IH]; intros e Hnd Hk.
  { by apply elem_of_nil in Hk. }
  apply NoDup_cons in Hnd as [Hnin Hnd]. simpl.
  apply elem_of_cons in Hk as [->|Hk].
  - rewrite apply_context_go_other by done.
    destruct (_ && _); [|done]. by rewrite dget_insert_eq.
  - rewrite IH by done.
    assert (key <> k) as Hne by (intros ->; done).
    destruct (negb (truthy (dget e key)) && truthy (dget c key));
      [|done]. by rewrite dget_insert_ne.
Qed.

Lemma update_context_go_other (keys : list str) (e c : gmap str value) (k : str) :
  k ∉ keys ->
  dget (foldl (fun context key =>
                 if truthy (dget e key) then <[key := dget e key]> context
                 else context) c keys) k
  = dget c k.
Proof.
  revert c. induction keys as [|key keys IH]; intros c Hk; simpl; [done|].
  apply not_elem_of_cons in Hk as [Hne Hk]. rewrite IH by done.
  destruct (truthy _); [|done]. by apply dget_insert_ne.
Qed.

Lemma update_context_go_at (keys : list str) (e c : gmap str value) (k : str) :
  NoDup keys -> k ∈ keys ->
  dget (foldl (fun context key =>
                 if truthy (dget e key) then <[key := dget e key]> context
                 else context) c keys) k
  = if truthy (dget e k) then dget e k else dget c k.
Proof.
  revert c. induction keys as [|key keys IH]; intros c Hnd Hk.
  { by apply elem_of_nil in Hk. }
  apply NoDup_cons in Hnd as [Hnin Hnd]. simpl.
  apply elem_of_cons in Hk as [->|Hk].
  - rewrite update_context_go_other by done.
    destruct (truthy _); [|done]. by rewrite dget_insert_eq.
  - rewrite IH by done.
    assert (key <> k) as Hne by (intros ->; done).
    destruct (truthy (dget e key)); [|done].
    by rewrite dget_insert_ne.
Qed.

Lemma last_entry_not_context_key : txt "lastEntry" ∉ context_keys.
Proof. not_context_key. Qed.

Lemma update_injury_context_at e r c k :
  k ∈ context_keys ->
  dget (update_injury_context e r c) k
  = if truthy (dget e k) then dget e k else dget c k.
Proof.
  intros Hk. unfold update_injury_context.
  rewrite dget_insert_ne.
  - by apply update_context_go_at; [apply context_keys_NoDup|].
  - intros <-. by apply last_entry_not_context_key.
Qed.

Lemma apply_injury_context_at e c k :
  k ∈ context_keys ->
  dget (apply_injury_context e c) k
  = if negb (truthy (dget e k)) && truthy (dget c k) then dget c k else dget e k.
Proof. intros Hk. by apply apply_context_go_at; [apply context_keys_NoDup|]. Qed.

(** X1: [_apply_injury_context], key by key.  A context key the entry
    lacks (absent, [None] or empty) is filled from the context when the
    context holds it; a field the entry holds is never overridden; no
    other key of the entry is touched. *)
Theorem apply_injury_context_fills_only_gaps (e c : gmap str value) (k : str) :
  dget (apply_injury_context e c) k
  = if bool_decide (k ∈ context_keys) && negb (truthy (dget e k))
       && truthy (dget c k)
    then dget c k else dget e k.
Proof.
  destruct (decide (k ∈ context_keys)) as [Hk|Hk].
  - rewrite bool_decide_eq_true_2 by done. by apply apply_injury_context_at.
  - rewrite bool_decide_eq_false_2 by done. by apply apply_injury_context_other.
Qed.

(** X2: [_update_injury_context], key by key.  The context takes from the
    entry exactly the context fields the entry holds, keeps every other
    value it had, so that a context field once set is never cleared, and
    its [lastEntry] becomes the entry. *)
Theorem update_injury_context_only_strengthens
    (e c : gmap str value) (r : nat) (k : str) :
  dget (update_injury_context e r c) k
  = if bool_decide (k = txt "lastEntry") then VRef r
    else if bool_decide (k ∈ context_keys) && truthy (dget e k) then dget e k
    else dget c k.
Proof.
  destruct (decide (k = txt "lastEntry")) as [->|Hl].
  - rewrite bool_decide_eq_true_2 by done.
    unfold update_injury_context. by rewrite dget_insert_eq.
  - rewrite bool_decide_eq_false_2 by done.
    destruct (decide (k ∈ context_keys)) as [Hk|Hk].
    + rewrite bool_decide_eq_true_2 by done. by apply update_injury_context_at.
    + rewrite bool_decide_eq_false_2 by done. unfold update_injury_context.
      rewrite dget_insert_ne by done. by apply update_context_go_other.
Qed.

(** X3: after an entry has been merged with the context and folded back
    into it (the two calls every emitting branch makes), entry and context
    agree on every context field that either of them held. *)
Theorem merged_entry_agrees_with_context
    (e c : gmap str value) (r : nat) (k : str) :
  k ∈ context_keys ->
  truthy (dget e k) || truthy (dget c k) = true ->
  let e' := apply_injury_context e c in
  let c' := update_injury_context e' r c in
  dget c' k = dget e' k /\ truthy (dget e' k) = true.
Proof.
  intros Hk Ht. cbv zeta.
  rewrite update_injury_context_at by done.
  rewrite apply_injury_context_at by done.
  destruct (truthy (dget e k)) eqn:He; simpl.
  - by rewrite He.
  - simpl in Ht. rewrite Ht. by rewrite Ht.
Qed.

Lemma merged_entry_agrees_with_context_witness :
  let e : gmap str value := <[txt "playerName" := VStr (txt "James, LeBron")]> ∅ in
  let c : gmap str value := <[txt "team" := VStr (txt "LAL")]> ∅ in
  dget (update_injury_context (apply_injury_context e c) 0 c) (txt "team")
  = dget (apply_injury_context e c) (txt "team")
  /\ truthy (dget (apply_injury_context e c) (txt "team")) = true.
Proof.
  intros e c.
  apply (merged_entry_agrees_with_context e c 0 (txt "team")).
  - unfold context_keys. simpl. do 3 right. left.
  - vm_compute. reflexivity.
Defined.
(** ** The store of a document, step by step *)

Lemma reaches_trans xs ys zs : reaches xs ys -> reaches ys zs -> reaches xs zs.
Proof.
  intros Hxy Hyz. induction Hyz as [|ys zs ws _ IH Hstep]; [done|].
  eapply reaches_step; [by apply IH|done].
Qed.

Lemma reaches_one xs ys : store_step xs ys -> reaches xs ys.
Proof. intros H. eapply reaches_step; [apply reaches_refl|done]. Qed.

Lemma last_ref_snoc (h : list (gmap str value)) (e : gmap str value) : last_ref (h ++ [e]) = VRef (length h).
Proof. unfold last_ref. rewrite length_app. simpl. by rewrite Nat.add_1_r. Qed.

Lemma last_ref_lookup (h : list (gmap str value)) (r : nat) (e : gmap str value) :
  last_ref h = VRef r -> h !! r = Some e -> exists h0, h = h0 ++ [e] /\ r = length h0.
Proof.
  unfold last_ref. destruct (length h) as [|n] eqn:Hn; [done|].
  intros [= <-] He.
  destruct (decide (h = [])) as [->|Hne]; [done|].
  destruct (exists_last Hne) as (h0 & x & ->).
  rewrite length_app in Hn. simpl in Hn.
  assert (n = length h0) as -> by lia.
  rewrite lookup_app_r in He by lia. rewrite Nat.sub_diag in He.
  injection He as ->. by exists h0.
Qed.

Lemma insert_last (h : list (gmap str value)) (e e' : gmap str value) :
  <[length h := e']> (h ++ [e]) = h ++ [e'].
Proof.
  rewrite insert_app_r_alt by lia. by rewrite Nat.sub_diag.
Qed.

Lemma update_injury_context_last e r c :
  dget (update_injury_context e r c) (txt "lastEntry") = VRef r.
Proof. unfold update_injury_context. by rewrite dget_insert_eq. Qed.

Lemma line_step_reaches pre st raw_line :
  tracks_last_line st ->
  reaches (pre ++ entries st, context st, heap st)
    (pre ++ entries (line_step st raw_line), context (line_step st raw_line),
     heap (line_step st raw_line))
  /\ tracks_last_line (line_step st raw_line).
Proof.
  intros [Hl Hc].
  destruct (line_step_cases st raw_line)
    as [(He & Hx & Hh & Hle)|[(line & Hne & ->)|(st' & rest & Hs & Ht & ->)]].
  - rewrite He, Hx, Hh. split; [apply reaches_refl|].
    unfold tracks_last_line. by rewrite Hle, Hx, Hh.
  - unfold continuation.
    destruct (last_entry st) as [| | |r] eqn:El;
      try (split; [apply reaches_refl|unfold tracks_last_line; by rewrite El]).
    destruct (heap st !! r) as [e|] eqn:Er;
      [|split; [apply reaches_refl|unfold tracks_last_line; by rewrite El]].
    symmetry in Hl.
    destruct (last_ref_lookup _ _ _ Hl Er) as (h0 & Hh & ->).
    cbn [entries context heap last_entry]. rewrite Hh, insert_last.
    split.
    + apply reaches_one. by apply (step_extend _ _ h0 e line).
    + unfold tracks_last_line, tracks_last in *.
      cbn [entries context heap last_entry].
      rewrite last_ref_snoc. rewrite Hh, last_ref_snoc in Hc. done.
  - destruct Hs as (He & Hx & Hh & Hle).
    cbn [emit entries context heap last_entry]. rewrite He, Hx, Hh.
    rewrite app_assoc. split.
    + apply reaches_one. apply step_emit. left. eauto.
    + unfold tracks_last_line, tracks_last.
      cbn [emit entries context heap last_entry].
      by rewrite last_ref_snoc, update_injury_context_last.
Qed.

Lemma foldl_line_step_reaches pre lines st :
  tracks_last_line st ->
  reaches (pre ++ entries st, context st, heap st)
    (pre ++ entries (foldl line_step st lines),
     context (foldl line_step st lines), heap (foldl line_step st lines))
  /\ tracks_last_line (foldl line_step st lines).
Proof.
  revert st. induction lines as [|l lines IH]; intros st Hw; simpl.
  - split; [apply reaches_refl|done].
  - destruct (line_step_reaches pre st l Hw) as [Hr Hw'].
    destruct (IH _ Hw') as [Hr' Hw''].
    split; [by eapply reaches_trans|done].
Qed.

Lemma parse_injury_report_text_reaches pre text ctx h ents ctx' h' :
  tracks_last ctx h ->
  parse_injury_report_text text ctx h = (ents, ctx', h') ->
  reaches (pre, ctx, h) (pre ++ ents, ctx', h') /\ tracks_last ctx' h'.
Proof.
  intros Hw. unfold parse_injury_report_text.
  set (st0 := MkState _ _ _ _ _ _ _ _). intros [= <- <- <-].
  assert (tracks_last_line st0) as Hw0 by (by split).
  destruct (foldl_line_step_reaches pre (splitlines text) st0 Hw0) as [Hr [Hl Hc]].
  change (pre ++ entries st0) with (pre ++ []) in Hr. rewrite app_nil_r in Hr.
  rewrite Hl. split.
  - eapply reaches_step; [exact Hr|apply step_touch].
  - unfold tracks_last. by rewrite dget_insert_eq.
Qed.

Lemma add_table_reaches table xs :
  tracks_last xs.1.2 xs.2 ->
  (forall e, e ∈ build_entries_from_table table -> emittable e) ->
  reaches xs (add_table xs table)
  /\ tracks_last (add_table xs table).1.2 (add_table xs table).2.
Proof.
  unfold add_table. revert xs.
  induction (build_entries_from_table table) as [|e es IH]; intros xs Hw Hem.
  - split; [apply reaches_refl|done].
  - simpl. destruct xs as [[ents ctx] h].
    destruct (IH (add_table_entry (ents, ctx, h) e)) as [Hr Hw'].
    + unfold add_table_entry, tracks_last. simpl.
      by rewrite last_ref_snoc, update_injury_context_last.
    + intros e' He'. apply Hem. by right.
    + split; [|done]. eapply reaches_trans; [|exact Hr].
      apply reaches_one. unfold add_table_entry. apply step_emit.
      apply Hem. left.
Qed.

Lemma add_tables_reaches tables xs :
  tracks_last xs.1.2 xs.2 ->
  reaches xs (foldl add_table xs tables)
  /\ tracks_last (foldl add_table xs tables).1.2 (foldl add_table xs tables).2.
Proof.
  revert xs. induction tables as [|t tables IH]; intros xs Hw; simpl.
  - split; [apply reaches_refl|done].
  - destruct (add_table_reaches t xs Hw) as [Hr Hw'].
    { intros e He. right. by exists t. }
    destruct (IH _ Hw') as [Hr' Hw''].
    split; [by eapply reaches_trans|done].
Qed.

Lemma process_page_reaches xs pg :
  tracks_last xs.1.2 xs.2 ->
  reaches xs (process_page xs pg)
  /\ tracks_last (process_page xs pg).1.2 (process_page xs pg).2.
Proof.
  destruct xs as [[ents ctx] h]. cbn [fst snd]. intros Hw.
  destruct (parse_injury_report_text (default [] (extract_text pg)) ctx h)
    as [[text_entries ctx'] h'] eqn:Hp.
  destruct (parse_injury_report_text_reaches ents _ _ _ _ _ _ Hw Hp) as [Hr Hw'].
  assert (process_page (ents, ctx, h) pg
          = match text_entries with
            | [] => foldl add_table (ents ++ [], ctx', h') (extract_tables pg)
            | _ :: _ => (ents ++ text_entries, ctx', h')
            end) as ->.
  { unfold process_page. rewrite Hp. by destruct text_entries. }
  destruct text_entries as [|r rs].
  - destruct (add_tables_reaches (extract_tables pg) (ents ++ [], ctx', h') Hw')
      as [Hr' Hw''].
    split; [|exact Hw'']. eapply reaches_trans; [exact Hr|exact Hr'].
  - split; [exact Hr|exact Hw'].
Qed.

Lemma process_pages_reaches pages xs :
  tracks_last xs.1.2 xs.2 ->
  reaches xs (foldl process_page xs pages)
  /\ tracks_last (foldl process_page xs pages).1.2 (foldl process_page xs pages).2.
Proof.
  revert xs. induction pages as [|pg pages IH]; intros xs Hw; simpl.
  - split; [apply reaches_refl|done].
  - destruct (process_page_reaches xs pg Hw) as [Hr Hw'].
    destruct (IH _ Hw') as [Hr' Hw''].
    split; [by eapply reaches_trans|done].
Qed.

Lemma document_store_reaches pages :
  reaches ([], ∅, []) (document_store pages)
  /\ tracks_last (document_store pages).1.2 (document_store pages).2.
Proof. by apply process_pages_reaches. Qed.
(** ** Invariants of the store of a document *)

Lemma omap_lookup_seq (pre h : list (gmap str value)) :
  omap (fun r => (pre ++ h) !! r) (seq (length pre) (length h)) = h.
Proof.
  revert pre. induction h as [|x h IH]; intros pre; [done|].
  cbn [length seq]. cbn [omap list_omap].
  assert ((pre ++ x :: h) !! length pre = Some x) as ->.
  { rewrite lookup_app_r by lia. by rewrite Nat.sub_diag. }
  f_equal. specialize (IH (pre ++ [x])).
  rewrite <- app_assoc, length_app in IH. cbn [length app] in IH.
  by rewrite Nat.add_1_r in IH.
Qed.

Lemma store_step_entries xs ys :
  store_step xs ys ->
  xs.1.1 = seq 0 (length xs.2) -> ys.1.1 = seq 0 (length ys.2).
Proof.
  intros [ents ctx h e line _|ents ctx h e _|ents ctx h]; cbn [fst snd].
  - by rewrite !length_app.
  - intros ->. rewrite length_app. cbn [length].
    rewrite Nat.add_1_r, seq_S. done.
  - done.
Qed.

Lemma reaches_entries xs ys :
  reaches xs ys ->
  xs.1.1 = seq 0 (length xs.2) -> ys.1.1 = seq 0 (length ys.2).
Proof.
  induction 1 as [|xs ys zs _ IH Hstep]; [done|].
  intros H. eapply store_step_entries; [exact Hstep|by apply IH].
Qed.

Lemma document_store_entries pages :
  (document_store pages).1.1 = seq 0 (length (document_store pages).2).
Proof.
  eapply reaches_entries; [apply document_store_reaches|done].
Qed.

Lemma extract_is_heap pages :
  extract_injury_report_entries pages = (document_store pages).2.
Proof.
  unfold extract_injury_report_entries.
  pose proof (document_store_entries pages) as He.
  fold (document_store pages).
  destruct (document_store pages) as [[ents ctx] h]. cbn [fst snd] in *.
  subst ents. apply (omap_lookup_seq [] h).
Qed.

(** X4: the list that [_extract_injury_report_entries] returns holds
    every entry that was created while the pages were read, each exactly
    once and in the order of creation, and the [lastEntry] of the context
    at the end is the last entry of that list. *)
Theorem extract_returns_every_entry_once (pages : list page) :
  exists ctx,
    document_store pages
    = (seq 0 (length (extract_injury_report_entries pages)), ctx,
       extract_injury_report_entries pages)
    /\ dget ctx (txt "lastEntry")
       = last_ref (extract_injury_report_entries pages).
Proof.
  rewrite extract_is_heap.
  pose proof (document_store_entries pages) as He.
  destruct (document_store_reaches pages) as [_ Hw].
  destruct (document_store pages) as [[ents ctx] h]. cbn [fst snd] in *.
  exists ctx. by subst ents.
Qed.

(** *** Earlier entries under later pages *)

Lemma same_but_reason_refl e : same_but_reason e e.
Proof. by intros k _. Qed.

Lemma same_but_reason_trans e1 e2 e3 :
  same_but_reason e1 e2 -> same_but_reason e2 e3 -> same_but_reason e1 e3.
Proof. intros H1 H2 k Hk. by rewrite H2, H1. Qed.

Lemma same_but_reason_extend (e : gmap str value) s :
  same_but_reason e (<[txt "reason" := VStr s]> e).
Proof. intros k Hk. by rewrite lookup_insert_ne. Qed.

Lemma last_lookup_pred (h : list (gmap str value)) e :
  last h = Some e -> h !! (length h - 1) = Some e /\ 0 < length h.
Proof.
  intros Hl. rewrite last_lookup in Hl.
  destruct h as [|x h]; [done|]. cbn [length] in *.
  replace (S (length h) - 1) with (pred (S (length h))) by lia.
  split; [done|lia].
Qed.

Lemma keeps_refl h : keeps h h.
Proof.
  split; [done|]. split; [done|].
  intros e Hl. exists e. split; [|apply same_but_reason_refl].
  by apply last_lookup_pred.
Qed.

Lemma keeps_step (h : list (gmap str value)) xs ys :
  store_step xs ys -> keeps h xs.2 -> keeps h ys.2.
Proof.
  intros [ents ctx h0 e line _|ents ctx h0 e _|ents ctx h0]; cbn [fst snd];
    [| |done].
  - intros (Hlen & Hbefore & Hlast). rewrite length_app in Hlen. cbn in Hlen.
    split; [rewrite length_app; cbn; lia|]. split.
    + intros i Hi. rewrite <- (Hbefore i Hi).
      rewrite !lookup_app_l by lia. done.
    + intros e0 Hl. destruct (Hlast e0 Hl) as (e1 & He1 & Hs).
      apply last_lookup_pred in Hl as [_ Hpos].
      destruct (decide (length h - 1 < length h0)) as [Hlt|Hge].
      * exists e1. rewrite lookup_app_l in * by lia. done.
      * assert (length h - 1 = length h0) as Heq by lia.
        rewrite Heq in *. rewrite lookup_app_r in * by lia.
        rewrite Nat.sub_diag in *. cbn in He1. injection He1 as <-.
        eexists. split; [reflexivity|].
        eapply same_but_reason_trans; [exact Hs|apply same_but_reason_extend].
  - intros (Hlen & Hbefore & Hlast).
    split; [rewrite length_app; cbn; lia|]. split.
    + intros i Hi. rewrite <- (Hbefore i Hi). apply lookup_app_l. lia.
    + intros e0 Hl. destruct (Hlast e0 Hl) as (e1 & He1 & Hs).
      exists e1. split; [|done]. by apply lookup_app_l_Some.
Qed.

Lemma reaches_keeps xs ys : reaches xs ys -> keeps xs.2 ys.2.
Proof.
  induction 1 as [xs|xs ys zs _ IH Hstep]; [apply keeps_refl|].
  by eapply keeps_step.
Qed.

(** X5: reading further pages never removes or reorders the entries of
    the pages read so far, leaves all of them but the last exactly as they
    were, and can change the last one only in its reason (by continuation
    lines). *)
Theorem later_pages_change_only_last_reason (pages more : list page) :
  let out := extract_injury_report_entries pages in
  let out' := extract_injury_report_entries (pages ++ more) in
  length out <= length out'
  /\ (forall i, S i < length out -> out' !! i = out !! i)
  /\ (forall e, last out = Some e ->
        exists e', out' !! (length out - 1) = Some e'
                   /\ forall k : str, k <> txt "reason" -> e' !! k = e !! k).
Proof.
  cbv zeta. rewrite !extract_is_heap. apply reaches_keeps.
  unfold document_store. rewrite foldl_app.
  apply process_pages_reaches. apply document_store_reaches.
Qed.
(** *** Context fields, once seen, stay *)

Lemma reason_not_context_key : txt "reason" ∉ context_keys.
Proof. not_context_key. Qed.

Lemma field_persists_step (k : str) xs ys :
  k ∈ context_keys -> store_step xs ys ->
  field_persists k xs.1.2 xs.2 -> field_persists k ys.1.2 ys.2.
Proof.
  intros Hk [ents ctx h e line _|ents ctx h e _|ents ctx h]; cbn [fst snd].
  - intros [Ha Hb].
    assert (forall i x', (h ++ [<[txt "reason" := VStr (extended_reason e line)]> e]) !! i
                         = Some x' ->
            exists x, (h ++ [e]) !! i = Some x /\ dget x' k = dget x k) as Hback.
    { intros i x' Hi. apply lookup_app_Some in Hi as [Hi|[Hlen Hi]].
      - exists x'. split; [by apply lookup_app_l_Some|done].
      - apply list_lookup_singleton_Some in Hi as [Hi <-].
        exists e. split.
        + rewrite lookup_app_r by lia. by rewrite Hi.
        + apply dget_insert_ne. intros <-. by apply reason_not_context_key. }
    split.
    + intros i x' Hi Ht. destruct (Hback i x' Hi) as (x & Hx & Heq).
      rewrite Heq in Ht. by eapply Ha.
    + intros i j ei' ej' Hij Hi Hj Ht.
      destruct (Hback i ei' Hi) as (ei & Hei & Heqi).
      destruct (Hback j ej' Hj) as (ej & Hej & Heqj).
      rewrite Heqi in Ht. rewrite Heqj. by eapply (Hb i j).
  - intros [Ha Hb].
    assert (forall i x, h !! i = Some x -> truthy (dget x k) = true ->
            truthy (dget (apply_injury_context e ctx) k) = true) as Hnew.
    { intros i x Hi Ht. rewrite apply_injury_context_at by done.
      rewrite (Ha i x Hi Ht).
      destruct (truthy (dget e k)) eqn:He; simpl; [done|]. by eapply Ha. }
    split.
    + intros i x Hi Ht. rewrite update_injury_context_at by done.
      apply lookup_app_Some in Hi as [Hi|[Hlen Hi]].
      * rewrite (Hnew i x Hi Ht). by eapply Hnew.
      * apply list_lookup_singleton_Some in Hi as [_ <-]. by rewrite Ht.
    + intros i j ei ej Hij Hi Hj Ht.
      apply lookup_app_Some in Hi as [Hi|[Hleni Hi]];
        apply lookup_app_Some in Hj as [Hj|[Hlenj Hj]].
      * by eapply (Hb i j).
      * apply list_lookup_singleton_Some in Hj as [_ <-]. by eapply Hnew.
      * apply lookup_lt_Some in Hj. lia.
      * apply list_lookup_singleton_Some in Hi as [_ <-].
        apply list_lookup_singleton_Some in Hj as [_ <-]. done.
  - intros [Ha Hb]. split; [|done].
    intros i x Hi Ht. rewrite dget_insert_ne.
    + by eapply Ha.
    + intros <-. by apply last_entry_not_context_key.
Qed.

Lemma reaches_field_persists (k : str) xs ys :
  k ∈ context_keys -> reaches xs ys ->
  field_persists k xs.1.2 xs.2 -> field_persists k ys.1.2 ys.2.
Proof.
  intros Hk. induction 1 as [|xs ys zs _ IH Hstep]; [done|].
  intros H. eapply field_persists_step; [done|exact Hstep|by apply IH].
Qed.

(** X6: in the entries of a document, a context field (game date, game
    time, matchup, team) that some entry holds is held by every later
    entry: the flags "holds the field", read down the list, never go from
    true back to false. *)
Theorem context_fields_persist (pages : list page) (k : str) (i j : nat) :
  let holds :=
    map (fun e => truthy (dget e k)) (extract_injury_report_entries pages) in
  k ∈ context_keys -> i <= j -> j < length holds ->
  holds !! i = Some true -> holds !! j = Some true.
Proof.
  cbv zeta. intros Hk Hij Hj Hi. rewrite extract_is_heap in *.
  destruct (reaches_field_persists k _ _ Hk (proj1 (document_store_reaches pages)))
    as [_ Hb].
  { split; [intros ? e Hl|intros ? ? ei ej _ Hl]; cbn [fst snd] in Hl;
      by rewrite lookup_nil in Hl. }
  rewrite list_lookup_fmap in Hi. rewrite list_lookup_fmap.
  rewrite length_map in Hj.
  destruct ((document_store pages).2 !! i) as [ei|] eqn:Ei; [|done].
  destruct (lookup_lt_is_Some_2 _ _ Hj) as [ej Ej]. rewrite Ej.
  cbn in *. injection Hi as Hi. f_equal. by eapply (Hb i j).
Qed.

Lemma context_fields_persist_witness :
  let pages :=
    [MkPage (Some (txt "LAL James, LeBron Out Left ankle")) [];
     MkPage None [[ [Some (txt "Player Name"); Some (txt "Current Status")];
                    [Some (txt "Davis, Anthony"); Some (txt "Questionable")] ]]] in
  map (fun e => truthy (dget e (txt "team")))
      (extract_injury_report_entries pages) !! 1 = Some true.
Proof.
  intros pages.
  apply (context_fields_persist pages (txt "team") 0 1).
  - unfold context_keys. simpl. do 3 right. left.
  - lia.
  - vm_compute. lia.
  - vm_compute. reflexivity.
Defined.

(** *** The line parser's guarantees, for the whole document *)

Lemma raw_not_context_key : txt "raw" ∉ context_keys.
Proof. not_context_key. Qed.

Lemma line_entry_ok_emittable e ctx :
  emittable e -> line_entry_ok (apply_injury_context e ctx).
Proof.
  intros [(st & rest & Ht & ->)|(table & Hin)] Hraw.
  - split; [by apply has_content_emit|by apply status_in_vocabulary_emit].
  - rewrite apply_injury_context_other in Hraw by apply raw_not_context_key.
    apply build_entries_from_table_elem in Hin
      as (headers & rows & row & _ & _ & _ & ->).
    unfold dget in Hraw. by rewrite row_entry_raw in Hraw.
Qed.

Lemma line_entry_ok_step xs ys :
  store_step xs ys -> Forall line_entry_ok xs.2 -> Forall line_entry_ok ys.2.
Proof.
  intros [ents ctx h e line Hne|ents ctx h e Hem|ents ctx h]; cbn [fst snd];
    [| |done].
  - intros H. apply Forall_app in H as [Hh He]. apply Forall_app. split; [done|].
    apply (proj2 (Forall_singleton _ _)).
    apply (proj1 (Forall_singleton _ _)) in He. intros Hraw.
    rewrite dget_insert_ne in Hraw by key_neq.
    destruct (He Hraw) as [Hc Hs].
    split; [by apply has_content_continuation
           |by apply status_in_vocabulary_continuation].
  - intros H. apply Forall_app. split; [done|].
    apply (proj2 (Forall_singleton _ _)). by apply line_entry_ok_emittable.
Qed.

Lemma reaches_line_entry_ok xs ys :
  reaches xs ys -> Forall line_entry_ok xs.2 -> Forall line_entry_ok ys.2.
Proof.
  induction 1 as [|xs ys zs _ IH Hstep]; [done|].
  intros H. eapply line_entry_ok_step; [exact Hstep|by apply IH].
Qed.

(** X7: in the entries of a whole document, whatever pages and
    continuation lines came after, every entry that carries no [raw] map
    (the entries of the line-oriented parser; the table-oriented parser
    gives each of its entries one) has a non-empty player name, status or
    reason, and a status that is none or a label of the vocabulary. *)
Theorem document_line_entries_ok (pages : list page) :
  Forall (fun e => dget e (txt "raw") = VNone ->
                   has_content e /\ status_in_vocabulary e)
    (extract_injury_report_entries pages).
Proof.
  rewrite extract_is_heap.
  apply (reaches_line_entry_ok ([], ∅, [])); [apply document_store_reaches|].
  apply Forall_nil_2.
Qed.
(** ** The table-oriented parser: headers and rows *)

(** X8: [_map_table_headers] gives one normalised label per header cell,
    in order, and maps a column to a canonical field exactly when the
    normalised header of that column is an alias of the alias table, and
    then to the field of that alias; no other column is mapped. *)
Theorem map_table_headers_spec (headers : list cell) (i : nat) :
  (map_table_headers headers).2 = map normalize_header headers
  /\ (map_table_headers headers).1 !! i
     = headers !! i ≫= (fun header => alias_map !! normalize_header header).
Proof.
  split; [apply map_table_headers_labels|].
  apply map_table_headers_mapping.
Qed.

(** X9: the table-oriented parser returns no entry for a table of fewer
    than two rows and for a table whose header row has no cell that
    normalises to an alias of the alias table; in every case it returns at
    most one entry per row after the header row. *)
Theorem build_entries_from_table_bounds (table : list (list cell)) :
  (length table < 2 -> build_entries_from_table table = [])
  /\ (forall headers rows,
        table = headers :: rows ->
        (forall header, header ∈ headers ->
           alias_map !! normalize_header header = None) ->
        build_entries_from_table table = [])
  /\ length (build_entries_from_table table) <= length table - 1.
Proof.
  split; [|split].
  - destruct table as [|headers [|row rows]]; cbn [length]; [done|done|lia].
  - intros headers rows -> Hnone. unfold build_entries_from_table.
    destruct rows as [|row rows]; [done|].
    assert ((map_table_headers headers).1 = ∅) as Hempty.
    { apply map_empty. intros i. rewrite map_table_headers_mapping.
      destruct (headers !! i) as [hd|] eqn:Hi; [|done].
      apply Hnone. by eapply list_elem_of_lookup_2. }
    destruct (map_table_headers headers) as [mapping nh]. cbn [fst] in Hempty.
    cbv beta iota. by rewrite bool_decide_eq_true_2.
  - unfold build_entries_from_table.
    destruct table as [|headers [|row rows]]; cbn [length]; [lia|lia|].
    destruct (map_table_headers headers) as [mapping nh]. cbv beta iota.
    destruct (bool_decide (mapping = ∅)); cbn [length]; [lia|].
    pose proof (build_rows_length mapping nh (row :: rows)) as H.
    cbn [length] in H. lia.
Qed.
(** ** The keys of the entries *)

Lemma context_keys_line_fields (k : str) : k ∈ context_keys -> k ∈ line_fields.
Proof.
  unfold context_keys, line_fields. cbn [map]. intros H.
  apply elem_of_list_to_set.
  repeat (apply elem_of_cons in H as [->|H];
          [repeat (first [apply list_elem_of_here | apply list_elem_of_further])|]).
  by apply elem_of_nil in H.
Qed.

Lemma context_keys_table_fields (k : str) : k ∈ context_keys -> k ∈ table_fields.
Proof.
  unfold context_keys, table_fields, canonical_fields. cbn [map]. intros H.
  apply elem_of_list_to_set.
  repeat (apply elem_of_cons in H as [->|H];
          [repeat (first [apply list_elem_of_here | apply list_elem_of_further])|]).
  by apply elem_of_nil in H.
Qed.

Lemma reason_line_fields : txt "reason" ∈ line_fields.
Proof.
  apply elem_of_list_to_set. cbn [map].
  repeat (first [apply list_elem_of_here | apply list_elem_of_further]).
Qed.

Lemma reason_table_fields : txt "reason" ∈ table_fields.
Proof.
  apply elem_of_list_to_set. unfold canonical_fields. cbn [map].
  repeat (first [apply list_elem_of_here | apply list_elem_of_further]).
Qed.

Lemma apply_context_go_dom (keys : list str) (e c : gmap str value) :
  dom e ⊆ dom (foldl (fun entry key =>
                 if negb (truthy (dget entry key)) && truthy (dget c key)
                 then <[key := dget c key]> entry else entry) e keys)
  /\ dom (foldl (fun entry key =>
                 if negb (truthy (dget entry key)) && truthy (dget c key)
                 then <[key := dget c key]> entry else entry) e keys)
     ⊆ dom e ∪ list_to_set keys.
Proof.
  revert e. induction keys as [|key keys IH]; intros e; cbn [foldl].
  - split; [done|apply union_subseteq_l].
  - destruct (negb (truthy (dget e key)) && truthy (dget c key)).
    + destruct (IH (<[key := dget c key]> e)) as [H1 H2].
      rewrite dom_insert_L in H1, H2. cbn [list_to_set]. split.
      * intros k Hk. apply H1. by apply elem_of_union_r.
      * intros k Hk. apply H2 in Hk. rewrite !elem_of_union in Hk.
        rewrite !elem_of_union. tauto.
    + destruct (IH e) as [H1 H2]. cbn [list_to_set]. split; [done|].
      intros k Hk. apply H2 in Hk. rewrite !elem_of_union in Hk.
      rewrite !elem_of_union. tauto.
Qed.

Lemma new_entry_dom st psr : dom (new_entry st psr) = line_fields.
Proof.
  destruct psr as [[p s] r]. unfold new_entry, line_fields.
  rewrite !dom_insert_L, dom_empty_L. cbn [map list_to_set]. set_solver.
Qed.

Lemma fill_row_dom (K : gset str) (mapping : gmap nat str) (nh : list str)
    (idx : nat) (values : list str) (entry : gmap str value)
    (raw : gmap str str) :
  (forall (i : nat) (c : str), mapping !! i = Some c -> c ∈ K) ->
  dom entry ⊆ K ->
  dom (fill_row mapping nh idx values entry raw).1 ⊆ K.
Proof.
  intros Hm. revert idx entry raw.
  induction values as [|v values IH]; intros idx entry raw He;
    cbn [fill_row fst]; [done|].
  apply IH. destruct (mapping !! idx) as [c|] eqn:Hc; [|done].
  rewrite dom_insert_L. apply Hm in Hc.
  apply union_subseteq. split; [by apply singleton_subseteq_l|done].
Qed.

Lemma table_entry_dom table e :
  e ∈ build_entries_from_table table ->
  txt "raw" ∈ dom e /\ dom e ⊆ table_fields.
Proof.
  intros Hin. apply build_entries_from_table_elem in Hin
    as (headers & rows & row & _ & _ & _ & ->).
  unfold row_entry.
  destruct (fill_row _ _ 0 _ ∅ ∅) as [entry raw] eqn:Ef.
  rewrite dom_insert_L. split; [apply elem_of_union_l; by apply elem_of_singleton|].
  assert (dom entry ⊆ table_fields) as Hd.
  { change entry with (entry, raw).1. rewrite <- Ef. apply fill_row_dom.
    - intros i c Hc. rewrite map_table_headers_mapping in Hc.
      destruct (headers !! i) as [hd|]; [|done]. cbn in Hc.
      apply alias_map_canonical in Hc as [Hc _].
      apply elem_of_list_to_set. by right.
    - rewrite dom_empty_L. apply empty_subseteq. }
  apply union_subseteq. split; [|done].
  apply singleton_subseteq_l, elem_of_list_to_set. left.
Qed.

Lemma entry_schema_emittable e ctx :
  emittable e ->
  dom (apply_injury_context e ctx) = line_fields
  \/ (txt "raw" ∈ dom (apply_injury_context e ctx)
      /\ dom (apply_injury_context e ctx) ⊆ table_fields).
Proof.
  destruct (apply_context_go_dom context_keys e ctx) as [H1 H2].
  fold (apply_injury_context e ctx) in H1, H2.
  intros [(st & rest & _ & ->)|(table & Hin)].
  - left. rewrite new_entry_dom in H1, H2. apply set_eq. intros k. split.
    + intros Hk. apply H2 in Hk. apply elem_of_union in Hk as [Hk|Hk]; [done|].
      apply elem_of_list_to_set in Hk. by apply context_keys_line_fields.
    + intros Hk. by apply H1.
  - right. destruct (table_entry_dom _ _ Hin) as [Hr Hd]. split.
    + by apply H1.
    + intros k Hk. apply H2 in Hk. apply elem_of_union in Hk as [Hk|Hk].
      * by apply Hd.
      * apply elem_of_list_to_set in Hk. by apply context_keys_table_fields.
Qed.

Lemma entry_schema_step xs ys :
  store_step xs ys ->
  Forall (fun e => dom e = line_fields
                   \/ (txt "raw" ∈ dom e /\ dom e ⊆ table_fields)) xs.2 ->
  Forall (fun e => dom e = line_fields
                   \/ (txt "raw" ∈ dom e /\ dom e ⊆ table_fields)) ys.2.
Proof.
  intros [ents ctx h e line Hne|ents ctx h e Hem|ents ctx h]; cbn [fst snd];
    [| |done].
  - intros H. apply Forall_app in H as [Hh He]. apply Forall_app. split; [done|].
    apply (proj2 (Forall_singleton _ _)).
    apply (proj1 (Forall_singleton _ _)) in He.
    rewrite dom_insert_L.
    destruct He as [He|[Hr Hd]]; [left|right].
    + rewrite He. apply subseteq_union_1_L, singleton_subseteq_l.
      apply reason_line_fields.
    + split; [by apply elem_of_union_r|].
      apply union_subseteq. split; [|done].
      apply singleton_subseteq_l, reason_table_fields.
  - intros H. apply Forall_app. split; [done|].
    apply (proj2 (Forall_singleton _ _)). by apply entry_schema_emittable.
Qed.

Lemma reaches_entry_schema xs ys :
  reaches xs ys ->
  Forall (fun e => dom e = line_fields
                   \/ (txt "raw" ∈ dom e /\ dom e ⊆ table_fields)) xs.2 ->
  Forall (fun e => dom e = line_fields
                   \/ (txt "raw" ∈ dom e /\ dom e ⊆ table_fields)) ys.2.
Proof.
  induction 1 as [|xs ys zs _ IH Hstep]; [done|].
  intros H. eapply entry_schema_step; [exact Hstep|by apply IH].
Qed.

(** X10: the keys of the entries of a document.  An entry is either a
    dict with exactly the seven keys of the line-oriented parser (game
    date, game time, matchup, team, player name, status, reason), or it
    has a [raw] map and, beside it, only canonical fields of the header
    alias table. *)
Theorem document_entry_keys (pages : list page) :
  Forall (fun e => dom e = line_fields
                   \/ (txt "raw" ∈ dom e /\ dom e ⊆ table_fields))
    (extract_injury_report_entries pages).
Proof.
  rewrite extract_is_heap.
  apply (reaches_entry_schema ([], ∅, [])); [apply document_store_reaches|].
  apply Forall_nil_2.
Qed.
(** ** The metadata of a report URL *)

Ltac invert_matches :=
  repeat match goal with
  | H : matches (Seq _ _) _ _ _ _ _ |- _ =>
      apply matches_Seq_inv in H as (? & ? & ? & -> & ? & ?)
  | H : matches (Opt _) _ _ _ _ _ |- _ => unfold Opt in H
  | H : matches (Grp _ _) _ _ _ _ _ |- _ => inversion H; subst; clear H
  | H : matches (Chr _) _ _ _ _ _ |- _ => inversion H; subst; clear H
  | H : matches Eps _ _ _ _ _ |- _ => inversion H; subst; clear H
  | H : matches (Alt _ _) _ _ _ _ _ |- _ => inversion H; subst; clear H
  end.

Lemma matches_Alt_inv r1 r2 prev s rest g g' :
  matches (Alt r1 r2) prev s rest g g' ->
  matches r1 prev s rest g g' \/ matches r2 prev s rest g g'.
Proof. intros M. inversion M; subst; [by left|by right]. Qed.

Lemma re_search_matches r s m :
  re_search r s = Some m ->
  exists prev s1 s2, matches r prev s1 s2 ∅ (m_groups m).
Proof.
  unfold re_search. intros H.
  apply search_from_Some in H as (pre & s' & _ & H & _).
  apply match_here_Some in H as (s1 & s2 & g & _ & M & ->).
  by exists (last_of None pre), s1, s2.
Qed.

Lemma int_of_digits_lt (a b : ascii) :
  is_digit a = true -> is_digit b = true ->
  int_of [a] < 10 /\ int_of [a; b] < 100.
Proof.
  unfold is_digit, int_of. cbn [foldl]. intros Ha Hb.
  apply andb_true_iff in Ha as [Ha1 Ha2]. apply andb_true_iff in Hb as [Hb1 Hb2].
  apply Nat.leb_le in Ha1, Ha2, Hb1, Hb2. lia.
Qed.

Lemma upper_of_lower_am s : lower s = txt "am" -> upper s = txt "AM".
Proof.
  destruct s as [|a [|b [|c s]]]; try done. intros [= Ha Hb].
  assert (forall x y : ascii, lower_char x = y ->
            (y = "a"%char -> upper_char x = "A"%char)
            /\ (y = "m"%char -> upper_char x = "M"%char)
            /\ (y = "p"%char -> upper_char x = "P"%char)) as Hc.
  { intros x y <-.
    destruct x as [[] [] [] [] [] [] [] []]; vm_compute;
      repeat split; intros; congruence. }
  unfold upper. cbn [map].
  by rewrite (proj1 (Hc _ _ Ha) eq_refl), (proj1 (proj2 (Hc _ _ Hb)) eq_refl).
Qed.

Lemma upper_of_lower_pm s : lower s = txt "pm" -> upper s = txt "PM".
Proof.
  destruct s as [|a [|b [|c s]]]; try done. intros [= Ha Hb].
  assert (forall x y : ascii, lower_char x = y ->
            (y = "m"%char -> upper_char x = "M"%char)
            /\ (y = "p"%char -> upper_char x = "P"%char)) as Hc.
  { intros x y <-.
    destruct x as [[] [] [] [] [] [] [] []]; vm_compute;
      repeat split; intros; congruence. }
  unfold upper. cbn [map].
  by rewrite (proj2 (Hc _ _ Ha) eq_refl), (proj1 (Hc _ _ Hb) eq_refl).
Qed.

(** X11: the metadata read off a report URL that [urlparse] accepts.  A
    report date, when there is one, is ten characters: four digits, a dash,
    two digits, a dash, two digits.  A report time, when there is one, is
    an hour below 100 without padding, a colon, a minute below 100 on two
    digits, a blank and AM or PM in upper case; neither number is checked
    against the clock. *)
Theorem report_metadata_shape (urlparse_path : str -> result str) (url : str) :
  (forall meta d,
     extract_report_metadata_from_url urlparse_path url = Ok meta ->
     report_date meta = Some d ->
     exists y m dd,
       d = y ++ txt "-" ++ m ++ txt "-" ++ dd
       /\ length y = 4 /\ length m = 2 /\ length dd = 2
       /\ forallb is_digit (y ++ m ++ dd) = true)
  /\ (forall meta t,
     extract_report_metadata_from_url urlparse_path url = Ok meta ->
     report_time meta = Some t ->
     exists hour minute ampm,
       t = decimal hour ++ txt ":" ++ decimal02 minute ++ txt " " ++ ampm
       /\ hour < 100 /\ minute < 100
       /\ (ampm = txt "AM" \/ ampm = txt "PM")).
Proof.
  unfold extract_report_metadata_from_url.
  destruct (urlparse_path url) as [path|e]; [|split; intros; discriminate].
  set (filename := basename path). clearbody filename. split.
  - intros meta d [= <-]. cbn [report_date]. revert d. intros d.
    destruct (re_search report_date_re filename) as [m|] eqn:E; [|done].
    intros [= <-]. apply re_search_matches in E as (prev & s1 & s2 & M).
    unfold group. destruct m as [ms me g]. cbn [m_groups] in *.
    unfold report_date_re, seqs in M. cbn [foldr] in M.
    invert_matches;
      (rewrite lookup_insert_ne by done; rewrite lookup_insert_ne by done;
       rewrite lookup_insert_eq; rewrite lookup_insert_ne by done;
       rewrite lookup_insert_eq; rewrite lookup_insert_eq;
       cbn [default app];
       eexists _, _, _; split; [reflexivity|];
       unfold id; cbn [length app forallb];
       (split; [reflexivity|]); (split; [reflexivity|]); (split; [reflexivity|]);
       repeat match goal with
              | H : is_digit _ = true |- _ => rewrite H; clear H
              end; reflexivity).
  - intros meta t [= <-]. cbn [report_time].
    destruct (re_search report_time_re filename) as [m|] eqn:E; [|done].
    intros [= <-]. apply re_search_matches in E as (prev & s1 & s2 & M).
    unfold group. destruct m as [ms me g]. cbn [m_groups] in *.
    unfold report_time_re, seqs in M. cbn [foldr] in M.
    apply matches_Seq_inv in M as (h & s3 & g1 & -> & Mh & M).
    apply matches_Seq_inv in M as (mn & s4 & g2 & -> & Mm & M).
    apply matches_Seq_inv in M as (w & s5 & g3 & -> & Mw & M).
    apply matches_Seq_inv in M as (ap & s6 & g4 & -> & Ma & M).
    inversion M; subst; clear M. inversion Mw; subst; clear Mw.
    inversion Ma as [| | | | | |? ? ? ? ? ? g5 Ma'| | |]; subst; clear Ma.
    rewrite lookup_insert_eq. cbn [default].
    assert (g5 = g3 /\ (upper ap = txt "AM" \/ upper ap = txt "PM")) as [-> Hap].
    { apply matches_Alt_inv in Ma' as [Ma'|Ma'].
      - apply (matches_lit_ci (txt "AM")) in Ma' as [Hl ->].
        split; [done|]. left. by apply upper_of_lower_am.
      - apply (matches_lit_ci (txt "PM")) in Ma' as [Hl ->].
        split; [done|]. right. by apply upper_of_lower_pm. }
    eexists _, _, (upper ap). split; [reflexivity|].
    split; [|split; [|exact Hap]].
    + rewrite lookup_insert_ne by done.
      invert_matches;
        repeat (first [rewrite lookup_insert_eq | rewrite lookup_insert_ne by done]);
        unfold id; cbn [default app];
        match goal with
        | Ha : is_digit ?a = true, Hb : is_digit ?b = true |- int_of [?a; ?b] < _ =>
            apply (int_of_digits_lt a b Ha Hb)
        | Ha : is_digit ?a = true |- int_of [?a] < _ =>
            pose proof (int_of_digits_lt a a Ha Ha); lia
        end.
    + rewrite lookup_insert_ne by done.
      invert_matches;
        repeat (first [rewrite lookup_insert_eq | rewrite lookup_insert_ne by done]);
        rewrite ?lookup_empty; unfold id; cbn [default app];
        lazymatch goal with
        | |- int_of [?a; ?b] < _ =>
            match goal with
            | Ha : is_digit a = true, Hb : is_digit b = true |- _ =>
                apply (int_of_digits_lt a b Ha Hb)
            end
        | |- _ => vm_compute; lia
        end.
Qed.
(** ** Header normalisation *)

Lemma char_cases (P : ascii -> Prop) :
  (forall b0 b1 b2 b3 b4 b5 b6 b7 : bool, P (Ascii b0 b1 b2 b3 b4 b5 b6 b7)) ->
  forall c, P c.
Proof. intros H [b0 b1 b2 b3 b4 b5 b6 b7]. apply H. Qed.

Lemma lower_char_not_upper c : is_upper (lower_char c) = false.
Proof.
  revert c. apply char_cases.
  intros [] [] [] [] [] [] [] []; vm_compute; reflexivity.
Qed.

Lemma lower_char_space c :
  is_space (lower_char c) = is_space c
  /\ (c = " "%char -> lower_char c = " "%char).
Proof.
  revert c. apply char_cases.
  intros [] [] [] [] [] [] [] []; vm_compute; split; congruence.
Qed.

Lemma sub_spaces_blank s prev skip :
  Forall (fun c => is_space c = true -> c = " "%char)
    (sub_go (Plus is_space) (txt " ") prev s skip).
Proof.
  revert prev skip. induction s as [|c s IH]; intros prev [|n]; cbn [sub_go].
  - destruct (match_here _ prev [] 0); [|constructor].
    apply (proj2 (Forall_singleton _ _)). done.
  - constructor.
  - destruct (match_here (Plus is_space) prev (c :: s) 0) as [m|] eqn:Hm.
    + apply match_here_Some in Hm as (s1 & s2 & g & _ & M & ->).
      apply matches_Plus_inv in M as (Hne & _ & _).
      destruct s1 as [|x s1]; [done|]. cbn [m_end length Nat.add].
      apply Forall_app. split; [|apply IH].
      apply (proj2 (Forall_singleton _ _)). done.
    + constructor; [|apply IH]. intros Hc.
      eapply (match_here_None _ _ _ _ [c] s ∅) in Hm; [|done].
      exfalso. apply Hm. apply matches_Plus_intro; [done|].
      cbn [forallb]. by rewrite Hc.
  - apply IH.
Qed.

Lemma Forall_lstrip (P : ascii -> Prop) s : Forall P s -> Forall P (lstrip s).
Proof.
  intros H. destruct (lstrip_suffix s) as (w & E & _).
  rewrite E in H. by apply Forall_app in H as [_ H].
Qed.

Lemma Forall_strip (P : ascii -> Prop) s : Forall P s -> Forall P (strip s).
Proof.
  intros H. unfold strip, rstrip.
  apply Forall_rev, Forall_lstrip, Forall_rev. by apply Forall_lstrip.
Qed.

Lemma head_lower s c :
  head (lower s) = Some c -> exists x, head s = Some x /\ c = lower_char x.
Proof. destruct s as [|x s]; [done|]. intros [= <-]. by exists x. Qed.

Lemma last_lower s c :
  last (lower s) = Some c -> exists x, last s = Some x /\ c = lower_char x.
Proof.
  unfold lower. rewrite fmap_last.
  destruct (last s) as [x|]; [|done]. intros [= <-]. by exists x.
Qed.

Lemma last_of_last s : last_of None s = last s.
Proof.
  induction s as [|c s _] using rev_ind; [done|].
  by rewrite last_of_snoc, last_snoc.
Qed.

(** X12: a normalised header has no upper-case letter, no blank at either
    end, and no whitespace character other than the single blank (line
    breaks, tabs and the like have all been turned into blanks). *)
Theorem normalize_header_shape (value : option str) :
  let r := normalize_header value in
  forallb (fun c => negb (is_upper c)) r = true
  /\ Forall (fun c => is_space c = true -> c = " "%char) r
  /\ (forall c, head r = Some c \/ last r = Some c -> is_space c = false).
Proof.
  cbv zeta. unfold normalize_header.
  set (t := re_sub _ _ _). split; [|split].
  - apply forallb_forall. intros c Hc. apply in_map_iff in Hc as (x & <- & _).
    by rewrite lower_char_not_upper.
  - assert (Forall (fun c => is_space c = true -> c = " "%char) (strip t)) as H.
    { apply Forall_strip. apply sub_spaces_blank. }
    unfold lower. apply Forall_fmap. eapply Forall_impl; [exact H|].
    intros x Hx Hs. cbn in *. destruct (lower_char_space x) as [E1 E2].
    rewrite E1 in Hs. by apply E2, Hx.
  - intros c [Hc|Hc].
    + apply head_lower in Hc as (x & Hx & ->).
      rewrite (proj1 (lower_char_space x)). by eapply strip_head.
    + apply last_lower in Hc as (x & Hx & ->).
      rewrite (proj1 (lower_char_space x)). eapply strip_last.
      by rewrite last_of_last.
Qed.
(** * Properties of the other helpers *)

(** ** The proxy list *)

Lemma dedupe_spec (seen : gset str) (l : list str) :
  NoDup (dedupe seen l)
  /\ forall p, p ∈ dedupe seen l <-> p ∈ l /\ p ∉ seen.
Proof.
  revert seen. induction l as [|x l IH]; intros seen; cbn [dedupe].
  - split; [apply NoDup_nil_2|]. intros p. rewrite elem_of_nil. tauto.
  - destruct (decide (x ∈ seen)) as [Hx|Hx].
    + rewrite bool_decide_eq_true_2 by done. destruct (IH seen) as [Hnd Hin].
      split; [done|]. intros p. rewrite Hin, elem_of_cons. split.
      * intros [? ?]. split; [by right|done].
      * intros [[->|?] ?]; [done|by split].
    + rewrite bool_decide_eq_false_2 by done.
      destruct (IH ({[x]} ∪ seen)) as [Hnd Hin]. split.
      * apply NoDup_cons. split; [|done]. rewrite Hin.
        intros [_ Hn]. apply Hn, elem_of_union_l. by apply elem_of_singleton.
      * intros p. rewrite !elem_of_cons, Hin, not_elem_of_union, not_elem_of_singleton.
        split.
        -- intros [->|(? & ? & ?)]; [split; [by left|done]|split; [by right|done]].
        -- intros [[->|?] ?]; [by left|].
           destruct (decide (p = x)) as [->|?]; [by left|by right].
Qed.

Lemma proxy_of_line_scheme raw p :
  proxy_of_line raw = Some p ->
  exists scheme, scheme ∈ allowed_schemes /\ startswith scheme (lower p) = true.
Proof.
  unfold proxy_of_line.
  destruct (negb (nonempty (strip raw))); [done|].
  set (q := if negb _ then _ else _).
  destruct (existsb _ allowed_schemes) eqn:He; [|done].
  intros [= <-]. apply existsb_exists in He as (scheme & Hin & Hs).
  exists scheme. split; [by apply list_elem_of_In|done].
Qed.

(** X13: the proxies that [_fetch_proxy_list] returns for a response.  No
    proxy is listed twice; every proxy begins, up to case, with one of the
    six allowed schemes; and a proxy is listed exactly when the status is
    below 400 and some line of the text contributes it (the trimmed line,
    with [http://] put before it when it has no [://]). *)
Theorem fetch_proxy_list_spec (status_code : nat) (text : str) :
  NoDup (fetch_proxy_list status_code text)
  /\ (forall p, p ∈ fetch_proxy_list status_code text ->
        exists scheme,
          scheme ∈ allowed_schemes /\ startswith scheme (lower p) = true)
  /\ (forall p, p ∈ fetch_proxy_list status_code text <->
        status_code < 400
        /\ exists raw, raw ∈ splitlines text /\ proxy_of_line raw = Some p).
Proof.
  assert (forall p, p ∈ fetch_proxy_list status_code text <->
            status_code < 400
            /\ exists raw, raw ∈ splitlines text /\ proxy_of_line raw = Some p)
    as Hiff.
  { intros p. unfold fetch_proxy_list.
    destruct (Nat.leb_spec 400 status_code) as [Hge|Hlt].
    - rewrite elem_of_nil. split; [done|]. intros [? _]. lia.
    - rewrite (proj2 (dedupe_spec ∅ _)), list_elem_of_omap. split.
      + intros [H _]. done.
      + intros [_ H]. split; [done|]. apply not_elem_of_empty. }
  split; [|split; [|exact Hiff]].
  - unfold fetch_proxy_list. destruct (400 <=? status_code).
    + apply NoDup_nil_2.
    + apply dedupe_spec.
  - intros p Hp. apply Hiff in Hp as (_ & raw & _ & Hraw).
    by eapply proxy_of_line_scheme.
Qed.

(** ** The proxy rotation *)

Lemma next_proxy_nonempty st :
  proxies st <> [] ->
  exists p,
    proxies st !! (index st mod length (proxies st)) = Some p
    /\ next_proxy st
       = (Ok (Some p),
          MkProxy (proxies st) (index st mod length (proxies st) + 1)).
Proof.
  intros Hne. unfold next_proxy.
  destruct (proxies st) as [|x l] eqn:E; [done|]. cbn [proxies].
  assert (index st mod length (x :: l) < length (x :: l)) as Hlt.
  { apply Nat.mod_upper_bound. cbn [length]. lia. }
  destruct (lookup_lt_is_Some_2 _ _ Hlt) as [p Hp].
  exists p. split; [done|]. by rewrite Hp.
Qed.

(** X14: [_next_proxy] rotates through the pool.  On a pool that is not
    empty, call number [j] of a row of calls returns the proxy at position
    (index + j) modulo the size of the pool and never fails; the pool
    itself is left as it is. *)
Theorem next_proxy_round_robin (st : proxy_state) (n : nat) :
  proxies st <> [] ->
  proxies (next_proxies n st).2 = proxies st
  /\ forall j, j < n ->
       exists p,
         proxies st !! ((index st + j) mod length (proxies st)) = Some p
         /\ (next_proxies n st).1 !! j = Some (Ok (Some p)).
Proof.
  revert st. induction n as [|n IH]; intros st Hne; cbn [next_proxies].
  - split; [done|]. intros j Hj. lia.
  - destruct (next_proxy_nonempty st Hne) as (p & Hp & ->).
    set (st' := MkProxy _ _).
    destruct (IH st') as [Hpool Hcalls]; [done|].
    destruct (next_proxies n st') as [rs st''] eqn:E. cbn [fst snd] in *.
    split; [done|]. intros [|j] Hj.
    + exists p. rewrite Nat.add_0_r. done.
    + destruct (Hcalls j) as (q & Hq & Hr); [lia|].
      exists q. split; [|done]. rewrite <- Hq. subst st'. cbn [proxies index].
      f_equal. by rewrite <- Nat.add_assoc, Nat.Div0.add_mod_idemp_l.
Qed.

Lemma next_proxy_round_robin_witness :
  let st := MkProxy [txt "http://a:1"; txt "http://b:2"; txt "http://c:3"] 7 in
  exists p,
    proxies st !! ((index st + 4) mod length (proxies st)) = Some p
    /\ (next_proxies 5 st).1 !! 4 = Some (Ok (Some p)).
Proof.
  intros st.
  apply (proj2 (next_proxy_round_robin st 5 ltac:(discriminate)) 4). lia.
Defined.
(** ** Retries *)

Lemma backoff_sleeps_S backoff_ms k :
  backoff_sleeps backoff_ms (S k)
  = backoff_sleeps backoff_ms k ++ [(backoff_ms * 2 ^ Z.of_nat k)%Z].
Proof. unfold backoff_sleeps. by rewrite seq_S, map_app. Qed.

Lemma backoff_sleeps_sum backoff_ms k :
  foldr Z.add 0%Z (backoff_sleeps backoff_ms k)
  = (backoff_ms * (2 ^ Z.of_nat k - 1))%Z.
Proof.
  assert (forall (l : list Z) a, foldr Z.add a l = (foldr Z.add 0 l + a)%Z) as Hf.
  { induction l as [|x l IHl]; intros a; cbn [foldr]; [lia|]. rewrite IHl. lia. }
  induction k as [|k IH]; [cbn; lia|].
  rewrite backoff_sleeps_S, foldr_app. cbn [foldr].
  rewrite Hf, IH, Nat2Z.inj_succ, Z.pow_succ_r by lia. lia.
Qed.

(** The loop from attempt [attempt] on, when the next [d] calls raise and
    the budget of retries allows [d] more attempts. *)
Lemma retry_loop_reaches {A E : Type} (fn : nat -> A + E) retries backoff_ms
    (d attempt remaining : nat) (last_exc : option E) :
  (0 <= backoff_ms)%Z ->
  (Z.of_nat (attempt + d) <= retries)%Z ->
  d <= remaining ->
  (forall j, attempt <= j < attempt + d -> exists e, fn j = inr e) ->
  exists last_exc',
    retry_loop fn retries backoff_ms attempt remaining last_exc
      (backoff_sleeps backoff_ms attempt)
    = retry_loop fn retries backoff_ms (attempt + d) (remaining - d) last_exc'
        (backoff_sleeps backoff_ms (attempt + d)).
Proof.
  intros Hb. revert attempt remaining last_exc.
  induction d as [|d IH]; intros attempt remaining last_exc Hk Hd Hfail.
  - exists last_exc. by rewrite Nat.add_0_r, Nat.sub_0_r.
  - destruct remaining as [|remaining]; [lia|].
    destruct (Hfail attempt) as [e He]; [lia|].
    cbn [retry_loop]. rewrite He.
    destruct (Z.leb_spec retries (Z.of_nat attempt)) as [|_]; [lia|].
    destruct (Z.ltb_spec (backoff_ms * 2 ^ Z.of_nat attempt) 0) as [Hneg|_].
    { assert (0 <= backoff_ms * 2 ^ Z.of_nat attempt)%Z; [|lia].
      apply Z.mul_nonneg_nonneg; [done|]. apply Z.pow_nonneg. lia. }
    rewrite <- backoff_sleeps_S.
    destruct (IH (S attempt) remaining (Some e)) as [last_exc' Heq].
    + lia.
    + lia.
    + intros j Hj. apply Hfail. lia.
    + exists last_exc'. rewrite Heq.
      by replace (S attempt + d) with (attempt + S d) by lia.
Qed.



Lemma retry_loop_bounds {A E : Type} (fn : nat -> A + E) retries backoff_ms
    (remaining attempt : nat) (last_exc : option E) slept :
  (retries + 1 <= Z.of_nat (attempt + remaining))%Z ->
  attempt
  <= calls (retry_loop fn retries backoff_ms attempt remaining last_exc slept)
  <= attempt + remaining
  /\ (0 < remaining ->
      attempt
      < calls (retry_loop fn retries backoff_ms attempt remaining last_exc slept))
  /\ length (sleeps (retry_loop fn retries backoff_ms attempt remaining
                       last_exc slept))
       + S attempt
     <= length slept
        + Nat.max (S attempt)
            (calls (retry_loop fn retries backoff_ms attempt remaining
                      last_exc slept)).
Proof.
  revert attempt last_exc slept.
  induction remaining as [|remaining IH]; intros attempt last_exc slept Hsum;
    cbn [retry_loop].
  - cbn [calls sleeps]. lia.
  - destruct (fn attempt) as [v|exc]; [cbn [calls sleeps]; lia|].
    destruct (Z.leb_spec retries (Z.of_nat attempt)) as [|Hlt];
      [cbn [calls sleeps]; lia|].
    destruct (Z.ltb_spec (backoff_ms * 2 ^ Z.of_nat attempt) 0);
      [cbn [calls sleeps]; lia|].
    specialize (IH (S attempt) (Some exc)
                  (slept ++ [(backoff_ms * 2 ^ Z.of_nat attempt)%Z])).
    rewrite length_app in IH. cbn [length] in IH.
    destruct IH as (Hc & Hpos & Hs); [lia|].
    assert (0 < remaining) as Hrem by lia.
    specialize (Hpos Hrem). lia.
Qed.

(** ** Rows under headers *)

Section DataSetFacts.
Variable V : Type.

Lemma zip_row_ok (headers : list str) (idx : nat) (row : list V)
    (acc : gmap str V) :
  idx + length row <= length headers ->
  exists d, zip_row headers idx row acc = Ok d.
Proof.
  revert idx acc. induction row as [|v row IH]; intros idx acc Hlen;
    cbn [zip_row].
  - by exists acc.
  - cbn [length] in Hlen.
    destruct (lookup_lt_is_Some_2 headers idx) as [h Hh]; [lia|].
    rewrite Hh. apply IH. lia.
Qed.

Lemma zip_row_raise (headers : list str) (idx : nat) (row : list V)
    (acc : gmap str V) :
  idx <= length headers ->
  length headers < idx + length row ->
  zip_row headers idx row acc = Raise IndexError.
Proof.
  revert idx acc. induction row as [|v row IH]; intros idx acc Hidx Hlen;
    cbn [zip_row]; cbn [length] in Hlen.
  - lia.
  - destruct (headers !! idx) as [h|] eqn:Hh; [|done].
    apply lookup_lt_Some in Hh. apply IH; lia.
Qed.

(** What the dict of one row holds under a header: the value of the last
    column with that header, or what was there before. *)
Lemma zip_row_lookup (headers : list str) (idx : nat) (row : list V)
    (acc d : gmap str V) (h : str) :
  zip_row headers idx row acc = Ok d ->
  (exists j v,
      row !! j = Some v /\ headers !! (idx + j) = Some h /\ d !! h = Some v
      /\ forall j', j < j' < length row -> headers !! (idx + j') <> Some h)
  \/ ((forall j, j < length row -> headers !! (idx + j) <> Some h)
      /\ d !! h = acc !! h).
Proof.
  revert idx acc. induction row as [|v row IH]; intros idx acc; cbn [zip_row].
  - intros [= <-]. right. split; [|done]. intros j Hj. cbn in Hj. lia.
  - destruct (headers !! idx) as [hd|] eqn:Hh; [|done]. intros Hz.
    destruct (IH _ _ Hz) as [(j & w & Hj & Hhj & Hd & Hlast)|[Hnone Hd]].
    + left. exists (S j), w. split; [done|].
      rewrite <- Nat.add_succ_comm. split; [done|]. split; [done|].
      intros j' Hj'. cbn [length] in Hj'. destruct j' as [|j']; [lia|].
      rewrite <- Nat.add_succ_comm. apply Hlast. lia.
    + destruct (decide (hd = h)) as [->|Hne].
      * left. exists 0, v. rewrite Nat.add_0_r. split; [done|]. split; [done|].
        split; [by rewrite Hd, lookup_insert_eq|].
        intros j' Hj'. cbn [length] in Hj'. destruct j' as [|j']; [lia|].
        rewrite <- Nat.add_succ_comm. apply Hnone. lia.
      * right. split.
        -- intros [|j] Hj; cbn [length] in Hj.
           ++ rewrite Nat.add_0_r, Hh. congruence.
           ++ rewrite <- Nat.add_succ_comm. apply Hnone. lia.
        -- by rewrite Hd, lookup_insert_ne.
Qed.

Lemma zip_rows_ok (headers : list str) (rows : list (list V)) :
  Forall (fun row => length row <= length headers) rows ->
  exists out,
    zip_rows headers rows = Ok out
    /\ Forall2 (fun row d => zip_row headers 0 row ∅ = Ok d) rows out.
Proof.
  induction 1 as [|row rows Hrow _ (out & Hout & Hall)]; cbn [zip_rows].
  - exists []. split; [done|constructor].
  - destruct (zip_row_ok headers 0 row ∅) as [d Hd]; [lia|].
    rewrite Hd, Hout. exists (d :: out). split; [done|]. by constructor.
Qed.

Lemma zip_row_raise_inv (headers : list str) (idx : nat) (row : list V)
    (acc : gmap str V) e :
  zip_row headers idx row acc = Raise e -> e = IndexError.
Proof.
  revert idx acc. induction row as [|v row IH]; intros idx acc; cbn [zip_row];
    [done|].
  destruct (headers !! idx); [apply IH|]. by intros [= <-].
Qed.

Lemma zip_rows_raise (headers : list str) (rows : list (list V)) :
  Exists (fun row => length headers < length row) rows ->
  zip_rows headers rows = Raise IndexError.
Proof.
  induction 1 as [row rows Hrow|row rows _ IH]; cbn [zip_rows].
  - rewrite zip_row_raise; [done|lia|lia].
  - destruct (zip_row headers 0 row ∅) as [d|e] eqn:Hz.
    + by rewrite IH.
    + by apply zip_row_raise_inv in Hz as ->.
Qed.

(** X17: [_normalize_data_set].  A missing data set gives no rows.  A row
    longer than the headers makes the call fail with [IndexError] (so does
    any non-empty row when the headers are missing).  Otherwise there is
    one dict per row, in order, and the dict of a row maps a header to the
    row's value in the last of the row's columns that carries this header,
    and has no other key. *)
Theorem normalize_data_set_spec (ds : data_set V) :
  normalize_data_set (V := V) None = Ok []
  /\ (Exists (fun row => length (default [] (ds_headers ds)) < length row)
        (default [] (ds_data ds)) ->
      normalize_data_set (Some ds) = Raise IndexError)
  /\ (Forall (fun row => length row <= length (default [] (ds_headers ds)))
        (default [] (ds_data ds)) ->
      exists out,
        normalize_data_set (Some ds) = Ok out
        /\ length out = length (default [] (ds_data ds))
        /\ forall i row d (h : str),
             default [] (ds_data ds) !! i = Some row -> out !! i = Some d ->
             (exists j v,
                 row !! j = Some v
                 /\ default [] (ds_headers ds) !! j = Some h
                 /\ d !! h = Some v
                 /\ forall j', j < j' < length row ->
                      default [] (ds_headers ds) !! j' <> Some h)
             \/ ((forall j, j < length row ->
                    default [] (ds_headers ds) !! j <> Some h)
                 /\ d !! h = None)).
Proof.
  split; [reflexivity|]. split.
  - intros Hlong. by apply zip_rows_raise.
  - intros Hfit. destruct (zip_rows_ok _ _ Hfit) as (out & Hout & Hall).
    exists out. split; [exact Hout|]. split.
    + symmetry. by eapply Forall2_length.
    + intros i row d h Hrow Hd.
      pose proof (Forall2_lookup_lr _ _ _ _ _ _ Hall Hrow Hd) as Hz.
      destruct (zip_row_lookup _ _ _ _ _ h Hz) as [H|[Hnone Hl]]; [by left|].
      right. split; [done|]. by rewrite Hl, lookup_empty.
Qed.
End DataSetFacts.
(** ** Seasons *)

Lemma digit_char_code k : k < 10 -> code (digit_char k) = 48 + k.
Proof. intros Hk. unfold code, digit_char. apply nat_ascii_embedding. lia. Qed.

Lemma digit_char_digit k : k < 10 -> is_digit (digit_char k) = true.
Proof.
  intros Hk. unfold is_digit. rewrite digit_char_code by done.
  apply andb_true_iff. split; apply Nat.leb_le; lia.
Qed.

Lemma decimal_go_digits fuel n acc :
  Forall (fun c => is_digit c = true) acc ->
  Forall (fun c => is_digit c = true) (decimal_go fuel n acc).
Proof.
  revert n acc. induction fuel as [|fuel IH]; intros n acc Hacc;
    cbn [decimal_go]; [done|].
  assert (Forall (fun c => is_digit c = true) (digit_char (n mod 10) :: acc)) as H.
  { constructor; [|done]. apply digit_char_digit.
    apply Nat.mod_upper_bound. lia. }
  destruct (n / 10 =? 0); [done|]. by apply IH.
Qed.

Lemma decimal_go_value fuel n acc :
  n < fuel ->
  foldl (fun m c => 10 * m + (code c - 48)) 0 (decimal_go fuel n acc)
  = foldl (fun m c => 10 * m + (code c - 48)) n acc.
Proof.
  revert n acc. induction fuel as [|fuel IH]; intros n acc Hn; [lia|].
  cbn [decimal_go].
  assert (n mod 10 < 10) as Hm by (apply Nat.mod_upper_bound; lia).
  pose proof (Nat.div_mod_eq n 10) as Hdiv.
  destruct (Nat.eqb_spec (n / 10) 0) as [Hz|Hnz].
  - cbn [foldl]. rewrite digit_char_code by done. f_equal. lia.
  - rewrite IH by lia. cbn [foldl]. rewrite digit_char_code by done.
    f_equal. lia.
Qed.

(** Reading back what [f"{n}"] writes. *)
Lemma int_of_decimal n : int_of (decimal n) = n.
Proof. unfold int_of, decimal. by rewrite decimal_go_value by lia. Qed.

Lemma decimal_digits n : Forall (fun c => is_digit c = true) (decimal n).
Proof. apply decimal_go_digits. constructor. Qed.

Lemma app_sep_inj (sep : ascii) (s1 s2 r1 r2 : str) :
  sep ∉ s1 -> sep ∉ s2 -> s1 ++ sep :: r1 = s2 ++ sep :: r2 -> s1 = s2.
Proof.
  revert s2. induction s1 as [|x s1 IH]; intros [|y s2] H1 H2 E; cbn in E.
  - done.
  - injection E as <- _. exfalso. apply H2. left.
  - injection E as -> _. exfalso. apply H1. left.
  - injection E as -> E. f_equal. apply IH; [| |done].
    + intros H. apply H1. by right.
    + intros H. apply H2. by right.
Qed.

Lemma dash_not_in_decimal n : "-"%char ∉ decimal n.
Proof.
  intros Hin. pose proof (decimal_digits n) as Hd.
  rewrite Forall_forall in Hd. apply Hd in Hin. vm_compute in Hin. done.
Qed.

Lemma decimal02_two m :
  m < 100 ->
  exists a b, decimal02 m = [a; b] /\ is_digit a = true /\ is_digit b = true.
Proof.
  intros Hm.
  assert (forallb (fun m => match decimal02 m with
                            | [a; b] => is_digit a && is_digit b
                            | _ => false
                            end) (seq 0 100) = true) as Hall
    by (vm_compute; reflexivity).
  rewrite forallb_forall in Hall. specialize (Hall m).
  destruct (decimal02 m) as [|a [|b [|c l]]];
    try (discriminate Hall; apply in_seq; lia).
  exists a, b. split; [done|]. apply andb_true_iff, Hall, in_seq. lia.
Qed.

(** X18: seasons.  A season runs from July to June: a date from July on
    and a date before July of the next year have the same season year, the
    year of the first.  The label of a season year is the year, a dash and
    two digits, and different season years never share a label. *)
Theorem season_label_spec :
  (forall d1 d2,
      7 <= dt_month d1 -> dt_month d2 < 7 -> dt_year d2 = dt_year d1 + 1 ->
      season_year_from_date d1 = dt_year d1
      /\ season_year_from_date d2 = dt_year d1)
  /\ (forall y, exists a b,
        season_label_from_year y = decimal y ++ txt "-" ++ [a; b]
        /\ is_digit a = true /\ is_digit b = true)
  /\ (forall y1 y2,
        season_label_from_year y1 = season_label_from_year y2 -> y1 = y2).
Proof.
  split; [|split].
  - intros d1 d2 H1 H2 Hy. unfold season_year_from_date.
    destruct (Nat.leb_spec 7 (dt_month d1)); [|lia].
    destruct (Nat.leb_spec 7 (dt_month d2)); [lia|].
    split; [done|lia].
  - intros y. unfold season_label_from_year.
    destruct (decimal02_two ((y + 1) mod 100)) as (a & b & -> & Ha & Hb).
    { apply Nat.mod_upper_bound. lia. }
    by exists a, b.
  - intros y1 y2 E. unfold season_label_from_year in E. cbn [txt app] in E.
    change (list_ascii_of_string "-") with ["-"%char] in E. cbn [app] in E.
    apply app_sep_inj in E; [|apply dash_not_in_decimal..].
    rewrite <- (int_of_decimal y1), <- (int_of_decimal y2). by rewrite E.
Qed.
